(** * Pybricks BLE broadcast/observe: a shallow embedding of
      [pybricks/common/pb_type_ble.c] and the properties of its codec,
      its observation table and its life cycle.

    Configuration embedded here.  The C file is compiled under several
    MicroPython configurations; the embedding fixes or exposes them as follows.
    - [__SIZEOF_POINTER__] is a parameter ([target]): both branches of the
      [#if] in [pb_module_ble_encode] are embedded.
    - [MICROPY_FLOAT_IMPL] is [MICROPY_FLOAT_IMPL_FLOAT]: a Python float is an
      IEEE-754 single, represented by its 32-bit pattern.  The codec only
      moves the four bytes around, so no floating-point arithmetic is needed.
      The decoder is given a second time with the condition
      [MICROPY_FLOAT_IMPL != MICROPY_FLOAT_IMPL_NONE] of its FLOAT case as a
      parameter ([pb_module_ble_decode_for]).
    - Python integers are unbounded ([Z]), as with MicroPython's
      arbitrary-precision integers; the conversions to the machine integer
      [mp_int_t] are the MicroPython runtime functions described below.
    - [assert] is the checking [assert] of <assert.h>: a failed assertion
      stops the program (outcome [Trap AssertionFailed]).

    A second part embeds two drivers of the I/O library the module sits on,
    [lib/pbio/drv/battery/battery_adc.c] and
    [lib/pbio/drv/ev3dev_stretch/motor.c].  Their configuration macros are
    parameters, the ADC and the sysfs tree are inputs, and a call that C
    leaves undefined (signed overflow, an index outside an array, a stream
    that is NULL or closed) has no result ([None]). *)

From Stdlib Require Import ZArith List Lia Bool.
From Stdlib Require String Ascii DecimalString.
From coqutil Require Import Byte Word.LittleEndianList.
From stdpp Require Import base list.
Import ListNotations.
Import String.StringSyntax Ascii.AsciiSyntax.
Delimit Scope string_scope with string.
Delimit Scope char_scope with char.
Local Open Scope Z_scope.

(** ** Outcomes of a call *)

(** The Python exceptions this file raises.  [InvalidArg] is what
    [pb_assert(PBIO_ERROR_INVALID_ARG)] raises. *)
Inductive exn : Type :=
| ValueError
| TypeError
| OverflowError
| RuntimeError
| InvalidArg.

(** What C leaves undefined, or what stops the program: an access outside the
    object a pointer points into, a dereference of [NULL], a failed [assert]. *)
Inductive trap : Type :=
| OutOfBounds
| NullPointer
| AssertionFailed.

Inductive result (A : Type) : Type :=
| Ok (a : A)
| Raise (e : exn)
| Trap (c : trap).
Arguments Ok {A} a.
Arguments Raise {A} e.
Arguments Trap {A} c.

#[global] Instance result_ret : MRet result := fun _ a => Ok a.
#[global] Instance result_bind : MBind result := fun _ _ k m =>
  match m with
  | Ok a => k a
  | Raise e => Raise e
  | Trap c => Trap c
  end.

(** [assert(b)] *)
Definition c_assert (b : bool) : result unit :=
  if b then Ok tt else Trap AssertionFailed.

(** ** Memory: byte arrays reached through a pointer *)

(** An array is the list of the bytes that belong to the object; reading or
    writing past its end is a trap. *)
Definition load (buf : list byte) (i : nat) : result byte :=
  match buf !! i with
  | Some b => Ok b
  | None => Trap OutOfBounds
  end.

Definition load_bytes (buf : list byte) (i n : nat) : result (list byte) :=
  if (i + n <=? length buf)%nat then Ok (take n (drop i buf)) else Trap OutOfBounds.

Definition store (buf : list byte) (i : nat) (b : byte) : result (list byte) :=
  if (i <? length buf)%nat then Ok (<[i := b]> buf) else Trap OutOfBounds.

(** [memcpy(&buf[i], src, length src)] *)
Definition memcpy (buf : list byte) (i : nat) (src : list byte) : result (list byte) :=
  if (i + length src <=? length buf)%nat
  then Ok (take i buf ++ src ++ drop (i + length src) buf)
  else Trap OutOfBounds.

(** [pbio_get_uint16_le] and [pbio_get_uint32_le] of <pbio/util.h>:
    little-endian reads from a byte array. *)
Definition pbio_get_uint16_le (buf : list byte) (i : nat) : result Z :=
  bs ← load_bytes buf i 2; Ok (le_combine bs).

Definition pbio_get_uint32_le (buf : list byte) (i : nat) : result Z :=
  bs ← load_bytes buf i 4; Ok (le_combine bs).

(** Conversion of an unsigned [w]-bit pattern to the signed C type of that
    width ([int8_t x = u], [int16_t x = u], [int32_t x = u]). *)
Definition to_signed (w : Z) (u : Z) : Z :=
  if u <? 2 ^ (w - 1) then u else u - 2 ^ w.

(** ** Constants of the file *)

Definition OBSERVED_DATA_MAX_SIZE : nat := 31 (* max adv data size *) - 5 (* overhead *).
Definition MAX_CHANNEL_NUMBER : Z := 15.
Definition MFG_SPECIFIC : Z := 0xFF.
Definition LEGO_CID : Z := 0x0397.

Definition INT8_MIN : Z := -128.
Definition INT8_MAX : Z := 127.
Definition INT16_MIN : Z := -32768.
Definition INT16_MAX : Z := 32767.
Definition INT32_MIN : Z := -2147483648.
Definition INT32_MAX : Z := 2147483647.

(** [observed_data_t]; the fields are prefixed because [size] and [data] are
    used as variable names throughout. *)
Record observed_data_t : Type := mk_observed_data {
  od_rssi : Z;          (* int8_t *)
  od_size : Z;          (* uint8_t *)
  od_data : list byte   (* uint8_t data[OBSERVED_DATA_MAX_SIZE] *)
}.

(** [pb_ble_broadcast_data_type_t], with the numeric values sent over the air. *)
Inductive pb_ble_broadcast_data_type_t : Type :=
| PB_BLE_BROADCAST_DATA_TYPE_NONE
| PB_BLE_BROADCAST_DATA_TYPE_TRUE
| PB_BLE_BROADCAST_DATA_TYPE_FALSE
| PB_BLE_BROADCAST_DATA_TYPE_INT
| PB_BLE_BROADCAST_DATA_TYPE_FLOAT
| PB_BLE_BROADCAST_DATA_TYPE_STR
| PB_BLE_BROADCAST_DATA_TYPE_BYTES.

Definition type_code (ty : pb_ble_broadcast_data_type_t) : Z :=
  match ty with
  | PB_BLE_BROADCAST_DATA_TYPE_NONE => 0
  | PB_BLE_BROADCAST_DATA_TYPE_TRUE => 1
  | PB_BLE_BROADCAST_DATA_TYPE_FALSE => 2
  | PB_BLE_BROADCAST_DATA_TYPE_INT => 3
  | PB_BLE_BROADCAST_DATA_TYPE_FLOAT => 4
  | PB_BLE_BROADCAST_DATA_TYPE_STR => 5
  | PB_BLE_BROADCAST_DATA_TYPE_BYTES => 6
  end.

(** The enumerator a 3-bit value names, if any: 7 names none, and the
    [switch] of [pb_module_ble_decode] has no case for it. *)
Definition type_of_code (c : Z) : option pb_ble_broadcast_data_type_t :=
  match c with
  | 0 => Some PB_BLE_BROADCAST_DATA_TYPE_NONE
  | 1 => Some PB_BLE_BROADCAST_DATA_TYPE_TRUE
  | 2 => Some PB_BLE_BROADCAST_DATA_TYPE_FALSE
  | 3 => Some PB_BLE_BROADCAST_DATA_TYPE_INT
  | 4 => Some PB_BLE_BROADCAST_DATA_TYPE_FLOAT
  | 5 => Some PB_BLE_BROADCAST_DATA_TYPE_STR
  | 6 => Some PB_BLE_BROADCAST_DATA_TYPE_BYTES
  | _ => None
  end.

(** ** Python objects and the MicroPython runtime *)

(** The Python objects that reach this file.  [mp_float] carries the bit
    pattern of the single, a number below 2^32; [mp_tuple] is what [observe]
    returns, and stands for the objects the codec cannot encode. *)
#[warnings="-register-all"]
Inductive mp_obj_t : Type :=
| mp_const_none
| mp_const_true
| mp_const_false
| mp_int (z : Z)
| mp_float (bits : Z)
| mp_str (s : list byte)
| mp_bytes (s : list byte)
| mp_tuple (items : list mp_obj_t).

(** [__SIZEOF_POINTER__]: the width of [mp_int_t] in bytes. *)
Inductive target : Type := ILP32 | LP64.

Definition SIZEOF_POINTER (t : target) : Z :=
  match t with ILP32 => 4 | LP64 => 8 end.

Definition mp_int_bits (t : target) : Z := 8 * SIZEOF_POINTER t.

(** The integer fits the machine integer [mp_int_t]. *)
Definition fits_mp_int (t : target) (z : Z) : bool :=
  (- 2 ^ (mp_int_bits t - 1) <=? z) && (z <? 2 ^ (mp_int_bits t - 1)).

(** MicroPython's [mp_obj_get_int_maybe] (py/obj.c, not among the sources of
    this file): [true] and the machine integer for a bool or an int, [false]
    for any other object; an int that does not fit [mp_int_t] raises
    [OverflowError] ("overflow converting long int to machine word"). *)
Definition mp_obj_get_int_maybe (t : target) (arg : mp_obj_t) : result (option Z) :=
  match arg with
  | mp_const_false => Ok (Some 0)
  | mp_const_true => Ok (Some 1)
  | mp_int z => if fits_mp_int t z then Ok (Some z) else Raise OverflowError
  | _ => Ok None
  end.

(** MicroPython's [mp_obj_get_int] (py/obj.c): as above, and [TypeError] for
    an object that is not an integer. *)
Definition mp_obj_get_int (t : target) (arg : mp_obj_t) : result Z :=
  v ← mp_obj_get_int_maybe t arg;
  match v with
  | Some z => Ok z
  | None => Raise TypeError
  end.

(** MicroPython's [mp_obj_get_int_truncated] (py/obj.c): "returns a machine
    integer from a python object; truncates if the value is too big".  An int
    keeps its low [mp_int_bits] bits, read as a signed machine integer; other
    objects go through [mp_obj_get_int]. *)
Definition mp_obj_get_int_truncated (t : target) (arg : mp_obj_t) : result Z :=
  match arg with
  | mp_int z => Ok (to_signed (mp_int_bits t) (z mod 2 ^ mp_int_bits t))
  | _ => mp_obj_get_int t arg
  end.

(** MicroPython's [mp_obj_get_float_maybe] (py/obj.c), for the objects that
    reach it in [pb_module_ble_encode]: bools and ints have returned or raised
    before, so only a float answers [true]. *)
Definition mp_obj_get_float_maybe (arg : mp_obj_t) : option Z :=
  match arg with
  | mp_float bits => Some bits
  | _ => None
  end.

(** MicroPython's [mp_get_buffer(arg, &info, MP_BUFFER_READ)] (py/obj.c): the
    bytes of an object that supports the buffer protocol. *)
Definition mp_get_buffer (arg : mp_obj_t) : option (list byte) :=
  match arg with
  | mp_str s => Some s
  | mp_bytes s => Some s
  | _ => None
  end.

Definition mp_obj_is_str (arg : mp_obj_t) : bool :=
  match arg with
  | mp_str _ => true
  | _ => false
  end.

(** ** The value codec *)

(** [pb_module_ble_append]: [src] carries its [size] as its length. *)
Definition pb_module_ble_append (dst : list byte) (index : nat) (src : list byte)
    (type : pb_ble_broadcast_data_type_t) : result (list byte * nat) :=
  let size := length src in
  let next_index := (index + size + 1)%nat in
  if (OBSERVED_DATA_MAX_SIZE <? next_index)%nat then Raise ValueError
  else
    dst ← store dst index
            (byte.of_Z (Z.lor (Z.shiftl (type_code type) 5) (Z.of_nat size)));
    dst ← memcpy dst (index + 1) src;
    Ok (dst, next_index).

(** [pb_module_ble_encode] *)
Definition pb_module_ble_encode (t : target) (dst : list byte) (index : nat)
    (arg : mp_obj_t) : result (list byte * nat) :=
  match arg with
  | mp_const_none =>
      pb_module_ble_append dst index [] PB_BLE_BROADCAST_DATA_TYPE_NONE
  | mp_const_true =>
      pb_module_ble_append dst index [] PB_BLE_BROADCAST_DATA_TYPE_TRUE
  | mp_const_false =>
      pb_module_ble_append dst index [] PB_BLE_BROADCAST_DATA_TYPE_FALSE
  | _ =>
      got ← mp_obj_get_int_maybe t arg;
      match got with
      | Some int_value =>
          if (INT8_MIN <=? int_value) && (int_value <=? INT8_MAX) then
            pb_module_ble_append dst index (le_split 1 int_value)
              PB_BLE_BROADCAST_DATA_TYPE_INT
          else if (INT16_MIN <=? int_value) && (int_value <=? INT16_MAX) then
            pb_module_ble_append dst index (le_split 2 int_value)
              PB_BLE_BROADCAST_DATA_TYPE_INT
          else
            match t with
            | ILP32 =>
                pb_module_ble_append dst index
                  (le_split (Z.to_nat (SIZEOF_POINTER ILP32)) int_value)
                  PB_BLE_BROADCAST_DATA_TYPE_INT
            | LP64 =>
                if (INT32_MIN <=? int_value) && (int_value <=? INT32_MAX) then
                  pb_module_ble_append dst index (le_split 4 int_value)
                    PB_BLE_BROADCAST_DATA_TYPE_INT
                else Raise OverflowError
            end
      | None =>
          match mp_obj_get_float_maybe arg with
          | Some float_value =>
              pb_module_ble_append dst index (le_split 4 float_value)
                PB_BLE_BROADCAST_DATA_TYPE_FLOAT
          | None =>
              match mp_get_buffer arg with
              | Some buf =>
                  pb_module_ble_append dst index buf
                    (if mp_obj_is_str arg then PB_BLE_BROADCAST_DATA_TYPE_STR
                     else PB_BLE_BROADCAST_DATA_TYPE_BYTES)
              | None => Raise TypeError
              end
          end
      end
  end.

(** [pb_module_ble_decode]: returns the object and the updated [*index].
    The FLOAT case is the one a build with floats compiles (the
    configuration above); [pb_module_ble_decode_for] below has both
    branches. *)
Definition pb_module_ble_decode (data : observed_data_t) (index : nat)
    : result (mp_obj_t * nat) :=
  hdr ← load (od_data data) index;
  let size := Z.land (byte.unsigned hdr) 0x1F in
  let data_type := Z.shiftr (byte.unsigned hdr) 5 in
  let index := S index in
  match type_of_code data_type with
  | Some PB_BLE_BROADCAST_DATA_TYPE_NONE =>
      _ ← c_assert (size =? 0); Ok (mp_const_none, index)
  | Some PB_BLE_BROADCAST_DATA_TYPE_TRUE =>
      _ ← c_assert (size =? 0); Ok (mp_const_true, index)
  | Some PB_BLE_BROADCAST_DATA_TYPE_FALSE =>
      _ ← c_assert (size =? 0); Ok (mp_const_false, index)
  | Some PB_BLE_BROADCAST_DATA_TYPE_INT =>
      if size =? 1 then
        b ← load (od_data data) index;
        Ok (mp_int (to_signed 8 (byte.unsigned b)), (index + 1)%nat)
      else if size =? 2 then
        v ← pbio_get_uint16_le (od_data data) index;
        Ok (mp_int (to_signed 16 v), (index + 2)%nat)
      else if size =? 4 then
        v ← pbio_get_uint32_le (od_data data) index;
        Ok (mp_int (to_signed 32 v), (index + 4)%nat)
      else Raise RuntimeError
  | Some PB_BLE_BROADCAST_DATA_TYPE_FLOAT =>
      u ← pbio_get_uint32_le (od_data data) index;
      Ok (mp_float u, (index + 4)%nat)
  | Some PB_BLE_BROADCAST_DATA_TYPE_STR =>
      str_data ← load_bytes (od_data data) index (Z.to_nat size);
      Ok (mp_str str_data, (index + Z.to_nat size)%nat)
  | Some PB_BLE_BROADCAST_DATA_TYPE_BYTES =>
      bytes_data ← load_bytes (od_data data) index (Z.to_nat size);
      Ok (mp_bytes bytes_data, (index + Z.to_nat size)%nat)
  | None => Raise RuntimeError
  end.

(** [MICROPY_FLOAT_IMPL], as far as the decoder looks at it: the build has no
    floats, or it has them.  ([MICROPY_FLOAT_IMPL_DOUBLE] compiles the decoder
    as [MICROPY_FLOAT_IMPL_FLOAT] does.) *)
Inductive float_impl : Type :=
| MICROPY_FLOAT_IMPL_NONE
| MICROPY_FLOAT_IMPL_FLOAT.

(** [pb_module_ble_decode] with both branches of the
    [#if MICROPY_FLOAT_IMPL != MICROPY_FLOAT_IMPL_NONE] of its FLOAT case:
    without floats the case is a [break], which leaves the [switch] for the
    RuntimeError at the end of the function.  With floats this is
    [pb_module_ble_decode] above. *)
Definition pb_module_ble_decode_for (impl : float_impl) (data : observed_data_t)
    (index : nat) : result (mp_obj_t * nat) :=
  hdr ← load (od_data data) index;
  let size := Z.land (byte.unsigned hdr) 0x1F in
  let data_type := Z.shiftr (byte.unsigned hdr) 5 in
  let index := S index in
  match type_of_code data_type with
  | Some PB_BLE_BROADCAST_DATA_TYPE_NONE =>
      _ ← c_assert (size =? 0); Ok (mp_const_none, index)
  | Some PB_BLE_BROADCAST_DATA_TYPE_TRUE =>
      _ ← c_assert (size =? 0); Ok (mp_const_true, index)
  | Some PB_BLE_BROADCAST_DATA_TYPE_FALSE =>
      _ ← c_assert (size =? 0); Ok (mp_const_false, index)
  | Some PB_BLE_BROADCAST_DATA_TYPE_INT =>
      if size =? 1 then
        b ← load (od_data data) index;
        Ok (mp_int (to_signed 8 (byte.unsigned b)), (index + 1)%nat)
      else if size =? 2 then
        v ← pbio_get_uint16_le (od_data data) index;
        Ok (mp_int (to_signed 16 v), (index + 2)%nat)
      else if size =? 4 then
        v ← pbio_get_uint32_le (od_data data) index;
        Ok (mp_int (to_signed 32 v), (index + 4)%nat)
      else Raise RuntimeError
  | Some PB_BLE_BROADCAST_DATA_TYPE_FLOAT =>
      match impl with
      | MICROPY_FLOAT_IMPL_FLOAT =>
          u ← pbio_get_uint32_le (od_data data) index;
          Ok (mp_float u, (index + 4)%nat)
      | MICROPY_FLOAT_IMPL_NONE => Raise RuntimeError
      end
  | Some PB_BLE_BROADCAST_DATA_TYPE_STR =>
      str_data ← load_bytes (od_data data) index (Z.to_nat size);
      Ok (mp_str str_data, (index + Z.to_nat size)%nat)
  | Some PB_BLE_BROADCAST_DATA_TYPE_BYTES =>
      bytes_data ← load_bytes (od_data data) index (Z.to_nat size);
      Ok (mp_bytes bytes_data, (index + Z.to_nat size)%nat)
  | None => Raise RuntimeError
  end.

(** ** The subsystem: globals, driver requests, a state and error monad *)

(** [pbdrv_bluetooth_ad_type_t] of <pbdrv/bluetooth.h>: the advertising PDU
    types of Bluetooth Low Energy. *)
Inductive pbdrv_bluetooth_ad_type_t : Type :=
| PBDRV_BLUETOOTH_AD_TYPE_ADV_IND
| PBDRV_BLUETOOTH_AD_TYPE_ADV_DIRECT_IND
| PBDRV_BLUETOOTH_AD_TYPE_ADV_SCAN_IND
| PBDRV_BLUETOOTH_AD_TYPE_ADV_NONCONN_IND
| PBDRV_BLUETOOTH_AD_TYPE_SCAN_RSP.

Definition ad_type_eqb (a b : pbdrv_bluetooth_ad_type_t) : bool :=
  match a, b with
  | PBDRV_BLUETOOTH_AD_TYPE_ADV_IND, PBDRV_BLUETOOTH_AD_TYPE_ADV_IND
  | PBDRV_BLUETOOTH_AD_TYPE_ADV_DIRECT_IND, PBDRV_BLUETOOTH_AD_TYPE_ADV_DIRECT_IND
  | PBDRV_BLUETOOTH_AD_TYPE_ADV_SCAN_IND, PBDRV_BLUETOOTH_AD_TYPE_ADV_SCAN_IND
  | PBDRV_BLUETOOTH_AD_TYPE_ADV_NONCONN_IND, PBDRV_BLUETOOTH_AD_TYPE_ADV_NONCONN_IND
  | PBDRV_BLUETOOTH_AD_TYPE_SCAN_RSP, PBDRV_BLUETOOTH_AD_TYPE_SCAN_RSP => true
  | _, _ => false
  end.

(** The Bluetooth driver is outside this file.  What the file does to it is
    recorded as the sequence of requests it issues, oldest first. *)
Inductive driver_call : Type :=
| pbdrv_bluetooth_start_broadcasting (value : list byte)
| pbdrv_bluetooth_stop_broadcasting
| pbdrv_bluetooth_start_observing
| pbdrv_bluetooth_stop_observing.

(** The two file-level globals and the driver.  [observed_data] is the
    pointer into the live object's trailing array: [None] is [NULL], and
    [Some table] holds the slots that were allocated for it. *)
Record ble_world : Type := mk_world {
  observed_data : option (list observed_data_t);
  num_observed_data : Z;     (* uint8_t *)
  driver : list driver_call
}.

(** [pb_obj_BLE_t] without its trailing array, which is reached through
    [observed_data] only. *)
Record pb_obj_BLE_t : Type := mk_BLE {
  broadcast_channel : Z      (* uint8_t *)
}.

Definition M (A : Type) : Type := ble_world -> ble_world * result A.

#[global] Instance M_ret : MRet M := fun _ a w => (w, Ok a).
#[global] Instance M_bind : MBind M := fun _ _ k m w =>
  match m w with
  | (w', Ok a) => k a w'
  | (w', Raise e) => (w', Raise e)
  | (w', Trap c) => (w', Trap c)
  end.

Definition lift {A : Type} (r : result A) : M A := fun w => (w, r).
Definition raise {A : Type} (e : exn) : M A := lift (Raise e).
Definition get_world : M ble_world := fun w => (w, Ok w).
Definition set_globals (p : option (list observed_data_t)) (n : Z) : M unit :=
  fun w => (mk_world p n (driver w), Ok tt).
Definition request (c : driver_call) : M unit :=
  fun w => (mk_world (observed_data w) (num_observed_data w) (driver w ++ [c]), Ok tt).

(** [pb_wait_task(&task, -1)]: the caller resumes when the driver has
    completed the request; the wait itself changes nothing here.  The
    function is not part of this file.  The embedding follows the run in
    which the driver's task completes without an error; where the driver
    reports one, the wait raises it after the request has been made (the
    comment in [pb_module_ble_broadcast] names an OSError on the move hub),
    so what a call returns after its request is stated for that run only. *)
Definition pb_wait_task : M unit := mret tt.

(** [&observed_data[channel]], read. *)
Definition read_slot (channel : nat) : M observed_data_t :=
  w ← get_world;
  match observed_data w with
  | None => lift (Trap NullPointer)
  | Some table =>
      match table !! channel with
      | Some e => mret e
      | None => lift (Trap OutOfBounds)
      end
  end.

(** [observed_data[channel] = e]; the slot must exist, see [read_slot]. *)
Definition write_slot (channel : nat) (e : observed_data_t) : M unit :=
  w ← get_world;
  match observed_data w with
  | None => lift (Trap NullPointer)
  | Some table => set_globals (Some (<[channel := e]> table)) (num_observed_data w)
  end.

(** [handle_observe_event]: the three assignments to the slot are made on a
    copy that is written back. *)
Definition handle_observe_event (event_type : pbdrv_bluetooth_ad_type_t)
    (data : list byte) (length : Z) (rssi : Z) : M unit :=
  if ad_type_eqb event_type PBDRV_BLUETOOTH_AD_TYPE_ADV_NONCONN_IND && (5 <=? length) then
    ad_type ← lift (load data 1);
    if byte.unsigned ad_type =? MFG_SPECIFIC then
      cid ← lift (pbio_get_uint16_le data 2);
      if cid =? LEGO_CID then
        ch ← lift (load data 4);
        let channel := byte.unsigned ch in
        w ← get_world;
        if num_observed_data w <=? channel then
          (* ignore out of range channels *)
          mret tt
        else
          slot ← read_slot (Z.to_nat channel);
          len ← lift (load data 0);
          src ← lift (load_bytes data 5 OBSERVED_DATA_MAX_SIZE);
          new_data ← lift (memcpy (od_data slot) 0 src);
          write_slot (Z.to_nat channel)
            {| od_rssi := rssi;
               od_size := (byte.unsigned len - 4) mod 2 ^ 8;
               od_data := new_data |}
      else mret tt
    else mret tt
  else mret tt.

(** The [for] loop of [pb_module_ble_broadcast] over [args[1..]]. *)
Fixpoint encode_args (t : target) (dst : list byte) (index : nat)
    (args : list mp_obj_t) : result (list byte * nat) :=
  match args with
  | [] => Ok (dst, index)
  | arg :: args' =>
      '(dst, index) ← pb_module_ble_encode t dst index arg;
      encode_args t dst index args'
  end.

(** The payload area [&value.v.data[5]] before the loop fills it.  It is
    not initialised in C; only the bytes the loop wrote are handed over. *)
Definition zero_buffer : list byte := replicate OBSERVED_DATA_MAX_SIZE Byte.x00.

(** [pb_module_ble_broadcast]: [self] is [args[0]], [args] the rest.  The
    five bytes of prefix are the length, the marker, the company identifier
    as [pbio_set_uint16_le] writes it, and the channel.  The driver is handed
    [value.v.size] bytes of [value.v.data]. *)
Definition pb_module_ble_broadcast (t : target) (self : pb_obj_BLE_t)
    (args : list mp_obj_t) : M mp_obj_t :=
  '(d, index) ← lift (encode_args t zero_buffer 0 args);
  let size := (index + 5)%nat in
  let data :=
    [byte.of_Z (Z.of_nat index + 4) (* length *); byte.of_Z MFG_SPECIFIC]
    ++ le_split 2 LEGO_CID ++ [byte.of_Z (broadcast_channel self)] ++ d in
  _ ← request (pbdrv_bluetooth_start_broadcasting (take size data));
  _ ← pb_wait_task;
  mret mp_const_none.

(** The [for] loop of [pb_module_ble_observe].  [n] counts the iterations
    left, [OBSERVED_DATA_MAX_SIZE - i].  Next to the outcome (the decoded
    items and the final [index]) the function returns the cursors at which
    [pb_module_ble_decode] was called, in order: one per decode step. *)
Fixpoint observe_loop (n : nat) (ch_data : observed_data_t) (index : nat)
    : list nat * result (list mp_obj_t * nat) :=
  match n with
  | O => ([], Ok ([], index))
  | S n' =>
      if od_size ch_data <=? Z.of_nat index then ([], Ok ([], index))
      else
        match pb_module_ble_decode ch_data index with
        | Ok (item, index') =>
            let '(steps, r) := observe_loop n' ch_data index' in
            (index :: steps, '(items, last) ← r; Ok (item :: items, last))
        | Raise e => ([index], Raise e)
        | Trap c => ([index], Trap c)
        end
  end.

(** [pb_module_ble_observe] *)
Definition pb_module_ble_observe (t : target) (channel_in : mp_obj_t) : M mp_obj_t :=
  channel ← lift (mp_obj_get_int_truncated t channel_in);
  w ← get_world;
  if (channel <? 0) || (num_observed_data w <=? channel) then raise InvalidArg
  else
    _ ← request pbdrv_bluetooth_start_observing;
    _ ← pb_wait_task;
    ch_data ← read_slot (Z.to_nat channel);
    '(items, _) ← lift (observe_loop OBSERVED_DATA_MAX_SIZE ch_data 0).2;
    mret (mp_tuple [mp_int (od_rssi ch_data); mp_tuple items]).

(** MicroPython's [mp_obj_malloc_var(struct, var_type, var_num, type)]
    (py/obj.h): a fresh object with room for [var_num] trailing elements.
    The elements are taken to be zero-filled. *)
Definition mp_obj_malloc_var (var_num : nat) : list observed_data_t :=
  replicate var_num (mk_observed_data 0 0 zero_buffer).

(** [pb_type_BLE_new] *)
Definition pb_type_BLE_new (t : target)
    (broadcast_channel_in last_observe_channel_in : mp_obj_t) : M pb_obj_BLE_t :=
  w ← get_world;
  _ ← lift (c_assert (bool_decide (observed_data w = None)));
  broadcast_channel ← lift (mp_obj_get_int t broadcast_channel_in);
  if (broadcast_channel <? 0) || (MAX_CHANNEL_NUMBER <? broadcast_channel) then
    raise ValueError
  else
    last_observe_channel ← lift (mp_obj_get_int t last_observe_channel_in);
    if (last_observe_channel <? 0) || (MAX_CHANNEL_NUMBER <? last_observe_channel) then
      raise ValueError
    else
      let self_observed_data := mp_obj_malloc_var (Z.to_nat last_observe_channel) in
      (* globals for driver callback *)
      _ ← set_globals (Some self_observed_data) ((last_observe_channel + 1) mod 2 ^ 8);
      mret {| broadcast_channel := broadcast_channel mod 2 ^ 8 |}.

(** [pb_type_BLE_cleanup] *)
Definition pb_type_BLE_cleanup : M unit :=
  _ ← request pbdrv_bluetooth_stop_broadcasting;
  _ ← request pbdrv_bluetooth_stop_observing;
  set_globals None 0.

(** The world before any instance exists. *)
Definition initial_world : ble_world := mk_world None 0 [].

(** * The drivers: [lib/pbio/drv/battery/battery_adc.c] and
      [lib/pbio/drv/ev3dev_stretch/motor.c] *)

(** [pbio_error_t] of <pbio/error.h>: the codes these files return or pass
    on. *)
Inductive pbio_error_t : Type :=
| PBIO_SUCCESS
| PBIO_ERROR_FAILED
| PBIO_ERROR_INVALID_ARG
| PBIO_ERROR_INVALID_PORT
| PBIO_ERROR_IO
| PBIO_ERROR_NO_DEV
| PBIO_ERROR_NOT_SUPPORTED
| PBIO_ERROR_AGAIN.

(** ** C arithmetic on [int] *)

(** A value of type [int] (32 bits on every platform of the library); [None]
    is what C leaves undefined: signed overflow, division by zero. *)
Definition c_int (z : Z) : option Z :=
  if (INT32_MIN <=? z) && (z <=? INT32_MAX) then Some z else None.

Definition int_add (a b : Z) : option Z := c_int (a + b).
Definition int_mul (a b : Z) : option Z := c_int (a * b).

(** [a / b] truncates towards zero. *)
Definition int_div (a b : Z) : option Z :=
  if b =? 0 then None else c_int (Z.quot a b).

(** Assignment to a [uint16_t]. *)
Definition to_uint16 (z : Z) : Z := z mod 2 ^ 16.

(** ** The battery driver *)

(** The configuration macros of the driver, set per platform in
    <pbdrvconfig.h>, taken as parameters. *)
Record battery_adc_config : Type := mk_battery_adc_config {
  PBDRV_CONFIG_BATTERY_ADC_VOLTAGE_CH : Z;
  PBDRV_CONFIG_BATTERY_ADC_VOLTAGE_RAW_MAX : Z;
  PBDRV_CONFIG_BATTERY_ADC_VOLTAGE_SCALED_MAX : Z;
  PBDRV_CONFIG_BATTERY_ADC_CURRENT_CORRECTION : Z;
  PBDRV_CONFIG_BATTERY_ADC_CURRENT_CH : Z;
  PBDRV_CONFIG_BATTERY_ADC_CURRENT_RAW_OFFSET : Z;
  PBDRV_CONFIG_BATTERY_ADC_CURRENT_RAW_MAX : Z;
  PBDRV_CONFIG_BATTERY_ADC_CURRENT_SCALED_MAX : Z
}.

(** [pbdrv_adc_get_ch(ch, &raw)] of the ADC driver, taken as a parameter: the
    error code and, on success, the raw [uint16_t] sample of the channel. *)
Definition adc_t : Type := Z -> pbio_error_t * Z.

(** [pbdrv_battery_get_current_now]: the error code and the contents of
    [*value] afterwards, given its contents before. *)
Definition pbdrv_battery_get_current_now (cfg : battery_adc_config) (adc : adc_t)
    (value : Z) : option (pbio_error_t * Z) :=
  let '(err, raw) := adc (PBDRV_CONFIG_BATTERY_ADC_CURRENT_CH cfg) in
  match err with
  | PBIO_SUCCESS =>
      sum ← int_add raw (PBDRV_CONFIG_BATTERY_ADC_CURRENT_RAW_OFFSET cfg);
      product ← int_mul sum (PBDRV_CONFIG_BATTERY_ADC_CURRENT_SCALED_MAX cfg);
      quotient ← int_div product (PBDRV_CONFIG_BATTERY_ADC_CURRENT_RAW_MAX cfg);
      Some (PBIO_SUCCESS, to_uint16 quotient)
  | _ => Some (err, value)
  end.

(** [pbdrv_battery_get_voltage_now]; [current] is the local variable the
    current is read into, not initialised in C. *)
Definition pbdrv_battery_get_voltage_now (cfg : battery_adc_config) (adc : adc_t)
    (current : Z) (value : Z) : option (pbio_error_t * Z) :=
  let '(err, raw) := adc (PBDRV_CONFIG_BATTERY_ADC_VOLTAGE_CH cfg) in
  match err with
  | PBIO_SUCCESS =>
      '(err, current) ← pbdrv_battery_get_current_now cfg adc current;
      match err with
      | PBIO_SUCCESS =>
          scaled ← int_mul raw (PBDRV_CONFIG_BATTERY_ADC_VOLTAGE_SCALED_MAX cfg);
          volts ← int_div scaled (PBDRV_CONFIG_BATTERY_ADC_VOLTAGE_RAW_MAX cfg);
          drop ← int_mul current (PBDRV_CONFIG_BATTERY_ADC_CURRENT_CORRECTION cfg);
          correction ← int_div drop 16;
          total ← int_add volts correction;
          Some (PBIO_SUCCESS, to_uint16 total)
      | _ => Some (err, value)
      end
  | _ => Some (err, value)
  end.

(** ** The ev3dev motor driver *)

Definition MAX_PATH_LENGTH : nat := 50.

(** [PBDRV_CONFIG_FIRST_MOTOR_PORT] and [PBDRV_CONFIG_LAST_MOTOR_PORT] of the
    platform configuration, taken as parameters; a [pbio_port_t] is its
    numeric value. *)
Record motor_config : Type := mk_motor_config {
  PBDRV_CONFIG_FIRST_MOTOR_PORT : Z;
  PBDRV_CONFIG_LAST_MOTOR_PORT : Z
}.

Definition PORT_TO_IDX (cfg : motor_config) (p : Z) : Z :=
  p - PBDRV_CONFIG_FIRST_MOTOR_PORT cfg.

(** [motor_file_t]; an open [FILE *] is the path it was opened on, a pointer
    that is [NULL] or whose stream has been closed is [None]. *)
Record motor_file_t : Type := mk_motor_file {
  connected : bool;
  coasting : bool;
  dir_number : Z;
  f_encoder_count : option String.string;
  f_encoder_rate : option String.string;
  f_duty : option String.string
}.

(** What [fscanf(f, "%d", &x)] meets in a file. *)
Inductive scan_result : Type :=
| ScanEOF
| ScanNoMatch
| ScanInt (z : Z).

(** The sysfs tree at the time of a call, as far as the driver can tell:
    whether [fopen(path, "w")] succeeds, whether [fflush] of a stream
    succeeds, what an [fscanf] from the start of a file meets, the names
    [readdir] gives for a directory ([None] when [opendir] fails) and the
    contents of a file opened for reading ([None] when [fopen(path, "r")]
    fails). *)
Record sysfs : Type := mk_sysfs {
  can_open_write : String.string -> bool;
  flush_ok : String.string -> bool;
  scan_int : String.string -> scan_result;
  read_dir : String.string -> option (list String.string);
  read_file : String.string -> option String.string
}.

(** The array [motor_files] and, oldest first, the text the driver has
    handed to [fprintf], with the path of the file. *)
Record motor_world : Type := mk_motor_world {
  motor_files : list motor_file_t;
  written : list (String.string * String.string)
}.

(** [printf]'s ["%d"]. *)
Definition string_of_Z (z : Z) : String.string :=
  DecimalString.NilZero.string_of_int (Z.to_int z).

(** [snprintf(buf, n, ...)] keeps at most [n - 1] characters. *)
Definition snprintf (n : nat) (s : String.string) : String.string :=
  String.substring 0 (n - 1) s.

Definition tacho_motor_path (dir : Z) (filename : String.string) : String.string :=
  snprintf MAX_PATH_LENGTH
    (String.append "/sys/class/tacho-motor/motor"
       (String.append (string_of_Z dir) (String.append "/" filename))).

Definition invalid_port (cfg : motor_config) (port : Z) : bool :=
  (port <? PBDRV_CONFIG_FIRST_MOTOR_PORT cfg) || (PBDRV_CONFIG_LAST_MOTOR_PORT cfg <? port).

Definition log_write (w : motor_world) (path text : String.string) : motor_world :=
  mk_motor_world (motor_files w) (written w ++ [(path, text)]).

(** The functions below return [None] where C leaves the call undefined: an
    index outside [motor_files], a stream that is [NULL]. *)

(** [slow_write] *)
Definition slow_write (cfg : motor_config) (env : sysfs) (port : Z)
    (filename content : String.string) (w : motor_world)
    : option (pbio_error_t * motor_world) :=
  if invalid_port cfg port then Some (PBIO_ERROR_INVALID_PORT, w)
  else
    mf ← motor_files w !! Z.to_nat (PORT_TO_IDX cfg port);
    if negb (connected mf) then Some (PBIO_ERROR_NO_DEV, w)
    else
      let filepath := tacho_motor_path (dir_number mf) filename in
      if can_open_write env filepath
      then Some (PBIO_SUCCESS, log_write w filepath content)
      else Some (PBIO_ERROR_IO, w).

(** [pbdrv_motor_coast] *)
Definition pbdrv_motor_coast (cfg : motor_config) (env : sysfs) (port : Z)
    (w : motor_world) : option (pbio_error_t * motor_world) :=
  if invalid_port cfg port then Some (PBIO_ERROR_INVALID_PORT, w)
  else
    mf ← motor_files w !! Z.to_nat (PORT_TO_IDX cfg port);
    if negb (connected mf) then Some (PBIO_ERROR_NO_DEV, w)
    else
      let mf := mk_motor_file (connected mf) true (dir_number mf)
                  (f_encoder_count mf) (f_encoder_rate mf) (f_duty mf) in
      let w := mk_motor_world
                 (<[Z.to_nat (PORT_TO_IDX cfg port) := mf]> (motor_files w)) (written w) in
      slow_write cfg env port "command"%string "stop"%string w.

(** [pbdrv_motor_set_duty_cycle]; [duty_cycle] is an [int16_t].  The result
    of the [slow_write] of "run-direct" is dropped, as in the source. *)
Definition pbdrv_motor_set_duty_cycle (cfg : motor_config) (env : sysfs) (port : Z)
    (duty_cycle : Z) (w : motor_world) : option (pbio_error_t * motor_world) :=
  if invalid_port cfg port then Some (PBIO_ERROR_INVALID_PORT, w)
  else
    mf ← motor_files w !! Z.to_nat (PORT_TO_IDX cfg port);
    if negb (connected mf) then Some (PBIO_ERROR_NO_DEV, w)
    else
      w ← (if coasting mf then
             '(_, w) ← slow_write cfg env port "command"%string "run-direct"%string w;
             let mf := mk_motor_file (connected mf) false (dir_number mf)
                         (f_encoder_count mf) (f_encoder_rate mf) (f_duty mf) in
             Some (mk_motor_world
                     (<[Z.to_nat (PORT_TO_IDX cfg port) := mf]> (motor_files w))
                     (written w))
           else Some w);
      f ← f_duty mf;
      let w := log_write w f (string_of_Z (Z.quot duty_cycle 100)) in
      if flush_ok env f then Some (PBIO_SUCCESS, w) else Some (PBIO_ERROR_IO, w).

(** [pbdrv_motor_get_encoder_count]: the error code and the contents of
    [*count] afterwards. *)
Definition pbdrv_motor_get_encoder_count (cfg : motor_config) (env : sysfs) (port : Z)
    (count : Z) (w : motor_world) : option (pbio_error_t * Z) :=
  if invalid_port cfg port then Some (PBIO_ERROR_INVALID_PORT, count)
  else
    mf ← motor_files w !! Z.to_nat (PORT_TO_IDX cfg port);
    if negb (connected mf) then Some (PBIO_ERROR_NO_DEV, count)
    else
      f ← f_encoder_count mf;
      match scan_int env f with
      | ScanEOF => Some (PBIO_ERROR_IO, count)
      | ScanNoMatch => Some (PBIO_SUCCESS, count)
      | ScanInt z => Some (PBIO_SUCCESS, z)
      end.

(** [pbdrv_motor_get_encoder_rate]: the result of [fscanf] is not looked
    at. *)
Definition pbdrv_motor_get_encoder_rate (cfg : motor_config) (env : sysfs) (port : Z)
    (rate : Z) (w : motor_world) : option (pbio_error_t * Z) :=
  if invalid_port cfg port then Some (PBIO_ERROR_INVALID_PORT, rate)
  else
    mf ← motor_files w !! Z.to_nat (PORT_TO_IDX cfg port);
    if negb (connected mf) then Some (PBIO_ERROR_NO_DEV, rate)
    else
      f ← f_encoder_rate mf;
      match scan_int env f with
      | ScanInt z => Some (PBIO_SUCCESS, z)
      | _ => Some (PBIO_SUCCESS, rate)
      end.

(** *** Start-up and shutdown *)

(** [sscanf]'s ["%d"]: white space is skipped, then an optional sign and
    decimal digits are read.  [None] when there is no digit to convert, in
    which case the variable is not assigned, or when the number does not fit
    an [int]. *)
Definition is_space (a : Ascii.ascii) : bool :=
  let n := Ascii.nat_of_ascii a in
  (n =? 32)%nat || ((9 <=? n)%nat && (n <=? 13)%nat).

Definition digit_of (a : Ascii.ascii) : option Z :=
  let n := Z.of_nat (Ascii.nat_of_ascii a) in
  if (48 <=? n) && (n <=? 57) then Some (n - 48) else None.

Fixpoint skip_space (s : String.string) : String.string :=
  match s with
  | String.String a s' => if is_space a then skip_space s' else s
  | String.EmptyString => s
  end.

Fixpoint digits (acc : Z) (s : String.string) : Z :=
  match s with
  | String.String a s' =>
      match digit_of a with
      | Some d => digits (acc * 10 + d) s'
      | None => acc
      end
  | String.EmptyString => acc
  end.

Definition scan_d (s : String.string) : option Z :=
  let s := skip_space s in
  let '(negative, s) :=
    match s with
    | String.String "-"%char s' => (true, s')
    | String.String "+"%char s' => (false, s')
    | _ => (false, s)
    end in
  match s with
  | String.String a _ =>
      match digit_of a with
      | Some _ => c_int (if negative : bool then - digits 0 s else digits 0 s)
      | None => None
      end
  | String.EmptyString => None
  end.

(** [sscanf(name, "%*5c%d", &dir_number)] for a name of more than five
    characters. *)
Definition sscanf_5c_d (name : String.string) : option Z :=
  scan_d (String.substring 5 (String.length name - 5) name).

(** [fseek(f, n, SEEK_SET)] and [fgetc(f)] on a file just opened: the
    character as an [unsigned char], or [EOF]. *)
Definition fgetc_at (contents : String.string) (n : nat) : Z :=
  match String.get n contents with
  | Some a => Z.of_nat (Ascii.nat_of_ascii a)
  | None => -1
  end.

(** [fopen(path, "r")] and [fopen(path, "w")], as the stream or [NULL]. *)
Definition fopen_r (env : sysfs) (path : String.string) : option String.string :=
  match read_file env path with
  | Some _ => Some path
  | None => None
  end.

Definition fopen_w (env : sysfs) (path : String.string) : option String.string :=
  if can_open_write env path then Some path else None.

(** A loop that runs a step for each element in turn. *)
Fixpoint for_each {A : Type} (step : A -> motor_world -> option motor_world)
    (l : list A) (w : motor_world) : option motor_world :=
  match l with
  | [] => Some w
  | x :: l => w ← step x w; for_each step l w
  end.

(** The body of the [readdir] loop of [_pbdrv_motor_init], for one name. *)
Definition scan_entry (env : sysfs) (name : String.string) (w : motor_world)
    : option motor_world :=
  if (5 <? String.length name)%nat then
    dir_number ← sscanf_5c_d name;
    addr ← read_file env (tacho_motor_path dir_number "address"%string);
    let port_index := fgetc_at addr 13 - 65 in
    if port_index <? 0 then None
    else
      mf ← motor_files w !! Z.to_nat port_index;
      let mf := mk_motor_file true (coasting mf) dir_number
                  (f_encoder_count mf) (f_encoder_rate mf) (f_duty mf) in
      Some (mk_motor_world (<[Z.to_nat port_index := mf]> (motor_files w)) (written w))
  else Some w.

(** The body of the loop over the ports of [_pbdrv_motor_init].  The results
    of the three writes are dropped, as in the source; the message on the
    standard output is not part of the model. *)
Definition init_port (cfg : motor_config) (env : sysfs) (port : Z) (w : motor_world)
    : option motor_world :=
  let port_index := Z.to_nat (PORT_TO_IDX cfg port) in
  mf ← motor_files w !! port_index;
  if connected mf then
    '(_, w) ← slow_write cfg env port "command"%string "reset"%string w;
    '(_, w) ← slow_write cfg env port "stop_action"%string "coast"%string w;
    '(_, w) ← pbdrv_motor_coast cfg env port w;
    mf ← motor_files w !! port_index;
    let mf := mk_motor_file (connected mf) (coasting mf) (dir_number mf)
                (fopen_r env (tacho_motor_path (dir_number mf) "position"%string))
                (fopen_r env (tacho_motor_path (dir_number mf) "speed"%string))
                (fopen_w env (tacho_motor_path (dir_number mf) "duty_cycle_sp"%string)) in
    Some (mk_motor_world (<[port_index := mf]> (motor_files w)) (written w))
  else Some w.

(** The ports from [PBDRV_CONFIG_FIRST_MOTOR_PORT] to
    [PBDRV_CONFIG_LAST_MOTOR_PORT], in order. *)
Definition motor_ports (cfg : motor_config) : list Z :=
  seqZ (PBDRV_CONFIG_FIRST_MOTOR_PORT cfg)
    (PBDRV_CONFIG_LAST_MOTOR_PORT cfg - PBDRV_CONFIG_FIRST_MOTOR_PORT cfg + 1).

(** [_pbdrv_motor_init] *)
Definition _pbdrv_motor_init (cfg : motor_config) (env : sysfs) (w : motor_world)
    : option motor_world :=
  names ← read_dir env "/sys/class/tacho-motor"%string;
  w ← for_each (scan_entry env) names w;
  for_each (init_port cfg env) (motor_ports cfg) w.

(** The body of the loop of [_pbdrv_motor_deinit]. *)
Definition deinit_port (cfg : motor_config) (env : sysfs) (port : Z) (w : motor_world)
    : option motor_world :=
  let port_index := Z.to_nat (PORT_TO_IDX cfg port) in
  mf ← motor_files w !! port_index;
  if connected mf then
    _ ← f_encoder_count mf;
    _ ← f_encoder_rate mf;
    _ ← f_duty mf;
    let mf := mk_motor_file (connected mf) (coasting mf) (dir_number mf) None None None in
    let w := mk_motor_world (<[port_index := mf]> (motor_files w)) (written w) in
    '(_, w) ← slow_write cfg env port "command"%string "reset"%string w;
    Some w
  else Some w.

(** [_pbdrv_motor_deinit] *)
Definition _pbdrv_motor_deinit (cfg : motor_config) (env : sysfs) (w : motor_world)
    : option motor_world :=
  for_each (deinit_port cfg env) (motor_ports cfg) w.

(** ** Definitions the statements use *)

(** The header byte [type << 5 | size]. *)
Definition header (ty : pb_ble_broadcast_data_type_t) (n : nat) : byte :=
  byte.of_Z (Z.lor (Z.shiftl (type_code ty) 5) (Z.of_nat n)).

(** The buffer after a record was written at [index]. *)
Definition put_record (dst : list byte) (index : nat)
    (ty : pb_ble_broadcast_data_type_t) (src : list byte) : list byte :=
  take index dst ++ header ty (length src) :: src ++ drop (index + length src + 1) dst.

(** [z] is representable in [k] bytes, two's complement. *)
Definition fits_width (k : nat) (z : Z) : Prop :=
  - 2 ^ (Z.of_nat k * 8 - 1) <= z < 2 ^ (Z.of_nat k * 8 - 1).

(** The width the chain of range tests of [pb_module_ble_encode] selects. *)
Definition int_width (z : Z) : nat :=
  if (INT8_MIN <=? z) && (z <=? INT8_MAX) then 1
  else if (INT16_MIN <=? z) && (z <=? INT16_MAX) then 2
  else 4.

(** The values with a record: the three constants, an int of the 32-bit
    signed range, a single, a str, a bytes. *)
Definition encodable (v : mp_obj_t) : bool :=
  match v with
  | mp_int z => (INT32_MIN <=? z) && (z <=? INT32_MAX)
  | mp_float bits => (0 <=? bits) && (bits <? 2 ^ 32)
  | mp_tuple _ => false
  | _ => true
  end.

(** The type code and the payload of the record of an encodable value. *)
Definition record_type (v : mp_obj_t) : pb_ble_broadcast_data_type_t :=
  match v with
  | mp_const_true => PB_BLE_BROADCAST_DATA_TYPE_TRUE
  | mp_const_false => PB_BLE_BROADCAST_DATA_TYPE_FALSE
  | mp_int _ => PB_BLE_BROADCAST_DATA_TYPE_INT
  | mp_float _ => PB_BLE_BROADCAST_DATA_TYPE_FLOAT
  | mp_str _ => PB_BLE_BROADCAST_DATA_TYPE_STR
  | mp_bytes _ => PB_BLE_BROADCAST_DATA_TYPE_BYTES
  | _ => PB_BLE_BROADCAST_DATA_TYPE_NONE
  end.

Definition record_payload (v : mp_obj_t) : list byte :=
  match v with
  | mp_int z => le_split (int_width z) z
  | mp_float bits => le_split 4 bits
  | mp_str s | mp_bytes s => s
  | _ => []
  end.

Definition payload_size (v : mp_obj_t) : nat := length (record_payload v).

(** A Float record whose length field says 2, followed by the four bytes of
    the single 1.0. *)
Definition short_float_record : observed_data_t :=
  {| od_rssi := -40;
     od_size := 5;
     od_data := [Byte.x82; Byte.x00; Byte.x00; Byte.x80; Byte.x3f]
                ++ replicate 21 Byte.x00 |}.

(** The same record as it arrives: an advertisement on channel 0 that carries
    it, in LEGO's manufacturer-specific format. *)
Definition short_float_advertisement : list byte :=
  [Byte.x09; Byte.xff; Byte.x97; Byte.x03; Byte.x00] ++ od_data short_float_record.

(** An Int record whose length field says 3. *)
Definition odd_int_record : observed_data_t :=
  {| od_rssi := -40;
     od_size := 4;
     od_data := [Byte.x63; Byte.x01; Byte.x02; Byte.x03] ++ replicate 22 Byte.x00 |}.

(** An entry whose size field, 255, is beyond the capacity, over a buffer of
    one-byte None records. *)
Definition oversized_entry : observed_data_t :=
  {| od_rssi := -40; od_size := 255; od_data := zero_buffer |}.

(** The advertisement is taken up: non-connectable undirected, at least 5
    bytes long, manufacturer-specific, LEGO's company identifier, and a
    channel below the channel count. *)
Definition taken_up (w : ble_world) (event_type : pbdrv_bluetooth_ad_type_t)
    (length : Z) (b1 b2 b3 b4 : byte) : Prop :=
  event_type = PBDRV_BLUETOOTH_AD_TYPE_ADV_NONCONN_IND /\
  5 <= length /\
  byte.unsigned b1 = MFG_SPECIFIC /\
  le_combine [b2; b3] = LEGO_CID /\
  byte.unsigned b4 < num_observed_data w.

(** The data of a slot after an update as the specification words it:
    [byte[0] - 4] bytes, at most the capacity, copied from [raw[5..]] over
    the start of the buffer. *)
Definition spec_copied_data (raw old : list byte) : list byte :=
  match raw with
  | b0 :: _ =>
      let n := Z.to_nat (Z.min ((byte.unsigned b0 - 4) mod 2 ^ 8)
                               (Z.of_nat OBSERVED_DATA_MAX_SIZE)) in
      take n (drop 5 raw) ++ drop n old
  | [] => old
  end.

(** An advertisement of 8 bytes on channel 1, carrying True and the int 5,
    in a driver buffer whose remaining bytes are 0xAA. *)
Definition stale_advertisement : list byte :=
  [Byte.x07; Byte.xff; Byte.x97; Byte.x03; Byte.x01; Byte.x20; Byte.x61; Byte.x05]
  ++ replicate 23 Byte.xaa.

(** Bytes a record takes: the header and the payload. *)
Definition encoded_size (v : mp_obj_t) : nat := payload_size v + 1.

(** Bytes the records of a sequence of values take together. *)
Definition total_encoded_size (args : list mp_obj_t) : nat :=
  sum_list_with encoded_size args.

(** The bytes of the record of a value, and of a sequence of values. *)
Definition record_bytes (v : mp_obj_t) : list byte :=
  header (record_type v) (payload_size v) :: record_payload v.

Definition records (args : list mp_obj_t) : list byte :=
  concat (map record_bytes args).

(** The advertising data [pb_module_ble_broadcast] assembles for values that
    are encoded without error: the prefix and the records. *)
Definition advertising_data (channel : Z) (args : list mp_obj_t) : list byte :=
  [byte.of_Z (Z.of_nat (total_encoded_size args) + 4); Byte.xff; Byte.x97; Byte.x03;
   byte.of_Z channel] ++ records args.

(** The table as a successful [pb_type_BLE_new] leaves it and as the callback
    keeps it: every slot has its full buffer, and the channel count is one
    more than the number of slots, so that every channel below the count has
    a slot but the highest. *)
Definition table_constructed (w : ble_world) : Prop :=
  exists table,
    observed_data w = Some table /\
    num_observed_data w = Z.of_nat (length table) + 1 /\
    Forall (fun slot => length (od_data slot) = OBSERVED_DATA_MAX_SIZE) table.

(** A 12-bit ADC scaled to 7300 mA, as on a hub. *)
Definition sample_battery_config : battery_adc_config :=
  {| PBDRV_CONFIG_BATTERY_ADC_VOLTAGE_CH := 11;
     PBDRV_CONFIG_BATTERY_ADC_VOLTAGE_RAW_MAX := 4096;
     PBDRV_CONFIG_BATTERY_ADC_VOLTAGE_SCALED_MAX := 9900;
     PBDRV_CONFIG_BATTERY_ADC_CURRENT_CORRECTION := 3;
     PBDRV_CONFIG_BATTERY_ADC_CURRENT_CH := 10;
     PBDRV_CONFIG_BATTERY_ADC_CURRENT_RAW_OFFSET := 0;
     PBDRV_CONFIG_BATTERY_ADC_CURRENT_RAW_MAX := 4096;
     PBDRV_CONFIG_BATTERY_ADC_CURRENT_SCALED_MAX := 7300 |}.

Definition sample_adc (volts amps : Z) : adc_t :=
  fun ch => if ch =? 11 then (PBIO_SUCCESS, volts)
            else if ch =? 10 then (PBIO_SUCCESS, amps)
            else (PBIO_ERROR_INVALID_ARG, 0).

(** The calls of the motor driver that write. *)
Inductive motor_call : Type :=
| call_slow_write (filename content : String.string)
| call_coast
| call_set_duty_cycle (duty_cycle : Z).

Definition perform (cfg : motor_config) (env : sysfs) (port : Z) (c : motor_call)
    (w : motor_world) : option (pbio_error_t * motor_world) :=
  match c with
  | call_slow_write filename content => slow_write cfg env port filename content w
  | call_coast => pbdrv_motor_coast cfg env port w
  | call_set_duty_cycle duty_cycle => pbdrv_motor_set_duty_cycle cfg env port duty_cycle w
  end.

(** The entry of a port in [motor_files]. *)
Definition motor_file (cfg : motor_config) (port : Z) (w : motor_world)
    : option motor_file_t :=
  motor_files w !! Z.to_nat (PORT_TO_IDX cfg port).

(** A world whose entry of a port has its [coasting] flag set to [b]. *)
Definition with_coasting (b : bool) (mf : motor_file_t) : motor_file_t :=
  mk_motor_file (connected mf) b (dir_number mf)
    (f_encoder_count mf) (f_encoder_rate mf) (f_duty mf).

Definition set_coasting (cfg : motor_config) (port : Z) (b : bool) (w : motor_world)
    : motor_world :=
  mk_motor_world
    (alter (with_coasting b) (Z.to_nat (PORT_TO_IDX cfg port)) (motor_files w))
    (written w).

(** What does not change while the driver runs: where a motor is, and the
    streams opened for it. *)
Definition same_motor (mf mf' : motor_file_t) : Prop :=
  connected mf' = connected mf /\ dir_number mf' = dir_number mf /\
  f_encoder_count mf' = f_encoder_count mf /\
  f_encoder_rate mf' = f_encoder_rate mf /\ f_duty mf' = f_duty mf.

(** [motor_files] as declared, one entry per port, with the three streams
    of every connected motor open. *)
Definition motor_ready (cfg : motor_config) (w : motor_world) : Prop :=
  Z.of_nat (length (motor_files w))
    = PBDRV_CONFIG_LAST_MOTOR_PORT cfg - PBDRV_CONFIG_FIRST_MOTOR_PORT cfg + 1 /\
  Forall (fun mf => connected mf = true ->
                    is_Some (f_encoder_count mf) /\ is_Some (f_encoder_rate mf) /\
                    is_Some (f_duty mf)) (motor_files w).

(** A sequence of calls, each with the port it names and the state of sysfs
    it meets; the error codes in order and the world at the end. *)
Fixpoint run (cfg : motor_config) (calls : list (sysfs * Z * motor_call))
    (w : motor_world) : option (list pbio_error_t * motor_world) :=
  match calls with
  | [] => Some ([], w)
  | (env, port, c) :: calls =>
      '(err, w) ← perform cfg env port c w;
      '(errs, w) ← run cfg calls w;
      Some (err :: errs, w)
  end.

(** Ports A to D of an EV3, a medium motor found as [motor3] on port B. *)
Definition ev3_ports : motor_config :=
  {| PBDRV_CONFIG_FIRST_MOTOR_PORT := 65; PBDRV_CONFIG_LAST_MOTOR_PORT := 68 |}.

Definition no_motor : motor_file_t := mk_motor_file false false 0 None None None.

Definition motor3 : motor_file_t :=
  mk_motor_file true false 3
    (Some "/sys/class/tacho-motor/motor3/position"%string)
    (Some "/sys/class/tacho-motor/motor3/speed"%string)
    (Some "/sys/class/tacho-motor/motor3/duty_cycle_sp"%string).

Definition ev3_world : motor_world :=
  mk_motor_world [no_motor; motor3; no_motor; no_motor] [].

(** A sysfs tree in which every file opens and flushes, and [position] and
    [speed] of [motor3] read 360 and 0. *)
Definition ev3_sysfs : sysfs :=
  {| can_open_write := fun _ => true;
     flush_ok := fun _ => true;
     scan_int := fun path =>
       if String.eqb path "/sys/class/tacho-motor/motor3/position"%string
       then ScanInt 360 else ScanInt 0;
     read_dir := fun _ => Some ["."; ".."; "motor3"]%string;
     read_file := fun path =>
       if String.eqb path "/sys/class/tacho-motor/motor3/address"%string
       then Some "ev3-ports:outB"%string else Some "0"%string |}.

(** The same tree with the [command] file of [motor3] not writable. *)
Definition ev3_sysfs_no_command : sysfs :=
  {| can_open_write := fun _ => false;
     flush_ok := fun _ => true;
     scan_int := fun _ => ScanEOF;
     read_dir := fun _ => None;
     read_file := fun _ => None |}.

(** What the scan of the motor directory makes of a name: the index in
    [motor_files] and the number of the directory, when the name is longer
    than five characters, a number follows the first five, the address file
    opens and its fourteenth character is at or after the letter A. *)
Definition detected (env : sysfs) (name : String.string) : option (nat * Z) :=
  if (5 <? String.length name)%nat then
    dir_number ← sscanf_5c_d name;
    addr ← read_file env (tacho_motor_path dir_number "address"%string);
    if fgetc_at addr 13 - 65 <? 0 then None
    else Some (Z.to_nat (fgetc_at addr 13 - 65), dir_number)
  else None.

(** A name the scan can deal with, for an array of [n] entries: a short
    one, or one that is detected on a port of the array. *)
Definition entry_ok (env : sysfs) (n : nat) (name : String.string) : Prop :=
  (String.length name <= 5)%nat \/
  exists k d, detected env name = Some (k, d) /\ (k < n)%nat.

(** The directory number found for index [k], the last one in the order of
    the names. *)
Fixpoint last_detected (env : sysfs) (names : list String.string) (k : nat)
    : option Z :=
  match names with
  | [] => None
  | name :: names =>
      match last_detected env names k with
      | Some d => Some d
      | None =>
          match detected env name with
          | Some (k', d) => if (k' =? k)%nat then Some d else None
          | None => None
          end
      end
  end.

(** An entry after the scan found directory [d] for it, or none. *)
Definition found (d : option Z) (mf : motor_file_t) : motor_file_t :=
  match d with
  | Some d => mk_motor_file true (coasting mf) d
                (f_encoder_count mf) (f_encoder_rate mf) (f_duty mf)
  | None => mf
  end.

(** An entry after start-up: a connected motor is coasting and has its
    streams opened, as far as they open. *)
Definition started (env : sysfs) (mf : motor_file_t) : motor_file_t :=
  if connected mf then
    mk_motor_file (connected mf) true (dir_number mf)
      (fopen_r env (tacho_motor_path (dir_number mf) "position"%string))
      (fopen_r env (tacho_motor_path (dir_number mf) "speed"%string))
      (fopen_w env (tacho_motor_path (dir_number mf) "duty_cycle_sp"%string))
  else mf.

(** An entry after shutdown: the streams of a connected motor are closed. *)
Definition closed (mf : motor_file_t) : motor_file_t :=
  if connected mf then
    mk_motor_file (connected mf) (coasting mf) (dir_number mf) None None None
  else mf.

(** What is written when [content] is written to [path], if it opens. *)
Definition try_write (env : sysfs) (path content : String.string)
    : list (String.string * String.string) :=
  if can_open_write env path then [(path, content)] else [].

(** What start-up and shutdown write for an entry. *)
Definition init_writes (env : sysfs) (mf : motor_file_t)
    : list (String.string * String.string) :=
  if connected mf then
    try_write env (tacho_motor_path (dir_number mf) "command"%string) "reset"%string
    ++ try_write env (tacho_motor_path (dir_number mf) "stop_action"%string) "coast"%string
    ++ try_write env (tacho_motor_path (dir_number mf) "command"%string) "stop"%string
  else [].

Definition deinit_writes (env : sysfs) (mf : motor_file_t)
    : list (String.string * String.string) :=
  if connected mf then
    try_write env (tacho_motor_path (dir_number mf) "command"%string) "reset"%string
  else [].

(** [motor_files] before start-up, as the initialiser leaves it. *)
Definition ev3_world_at_boot : motor_world :=
  mk_motor_world [no_motor; no_motor; no_motor; no_motor] [].

(** * Properties *)

(** ** Memory *)

Section Memory.
Implicit Types (buf src : list byte) (i n : nat).

Lemma load_Some buf i b : buf !! i = Some b -> load buf i = Ok b.
Proof. unfold load. now intros ->. Qed.

Lemma load_bytes_ok buf i n :
  (i + n <= length buf)%nat -> load_bytes buf i n = Ok (take n (drop i buf)).
Proof.
  intros H. unfold load_bytes.
  destruct (Nat.leb_spec (i + n) (length buf)); [reflexivity | lia].
Qed.

Lemma store_ok buf i b :
  (i < length buf)%nat -> store buf i b = Ok (<[i := b]> buf).
Proof.
  intros H. unfold store.
  destruct (Nat.ltb_spec i (length buf)); [reflexivity | lia].
Qed.

Lemma memcpy_ok buf i src :
  (i + length src <= length buf)%nat ->
  memcpy buf i src = Ok (take i buf ++ src ++ drop (i + length src) buf).
Proof.
  intros H. unfold memcpy.
  destruct (Nat.leb_spec (i + length src) (length buf)); [reflexivity | lia].
Qed.

(** Copying over a whole array leaves nothing of it. *)
Lemma memcpy_whole buf src :
  length src = length buf -> memcpy buf 0 src = Ok src.
Proof.
  intros H. rewrite memcpy_ok by (simpl; lia). simpl.
  rewrite drop_ge by lia. now rewrite app_nil_r.
Qed.
End Memory.

(** ** Signed and unsigned readings *)

Lemma to_signed_wrap (k : nat) (z : Z) :
  (0 < k)%nat ->
  - 2 ^ (Z.of_nat k * 8 - 1) <= z < 2 ^ (Z.of_nat k * 8 - 1) ->
  to_signed (Z.of_nat k * 8) (z mod 2 ^ (Z.of_nat k * 8)) = z.
Proof.
  intros Hk Hz. unfold to_signed.
  set (w := Z.of_nat k * 8) in *.
  assert (Hw : 2 ^ w = 2 * 2 ^ (w - 1)).
  { rewrite <- Z.pow_succ_r by lia. f_equal. lia. }
  assert (Hp : 0 < 2 ^ (w - 1)) by (apply Z.pow_pos_nonneg; lia).
  destruct (Z.ltb_spec (z mod 2 ^ w) (2 ^ (w - 1))) as [Hlt | Hge].
  - destruct (Z.neg_nonneg_cases z) as [Hneg | Hpos].
    + rewrite <- (Z.mod_add z 1) in Hlt by lia.
      rewrite Z.mod_small in Hlt by lia. lia.
    + apply Z.mod_small. lia.
  - destruct (Z.neg_nonneg_cases z) as [Hneg | Hpos].
    + rewrite <- (Z.mod_add z 1) by lia.
      rewrite Z.mod_small by lia. lia.
    + rewrite Z.mod_small in Hge by lia. lia.
Qed.

(** ** Stepping through the monads *)

Ltac mstep := cbn [mbind result_bind mret result_ret].

(** The same for the monad of the subsystem. *)
Ltac wstep :=
  repeat (progress unfold read_slot, write_slot, pb_wait_task, request,
            set_globals, get_world, raise, lift, mbind, M_bind, mret, M_ret);
  cbn beta iota delta [result_bind result_ret observed_data num_observed_data
                       driver fst snd].

Lemma type_of_code_code ty : type_of_code (type_code ty) = Some ty.
Proof. now destruct ty. Qed.

(** A length below 32 and the type code come back out of the header. *)
Lemma header_fields ty n :
  (n < 32)%nat ->
  Z.land (byte.unsigned (header ty n)) 0x1F = Z.of_nat n /\
  Z.shiftr (byte.unsigned (header ty n)) 5 = type_code ty.
Proof.
  intros Hn.
  do 32 (destruct n as [| n]; [destruct ty; vm_compute; split; reflexivity |]).
  lia.
Qed.

Lemma length_put_record dst index ty src :
  (index + length src + 1 <= length dst)%nat ->
  length (put_record dst index ty src) = length dst.
Proof.
  intros H. unfold put_record.
  rewrite length_app, length_take; simpl.
  rewrite length_app, length_drop. lia.
Qed.

Lemma append_ok dst index src ty :
  (index + length src + 1 <= OBSERVED_DATA_MAX_SIZE)%nat ->
  length dst = OBSERVED_DATA_MAX_SIZE ->
  pb_module_ble_append dst index src ty =
    Ok (put_record dst index ty src, (index + length src + 1)%nat).
Proof.
  intros Hfit Hlen. unfold pb_module_ble_append.
  destruct (Nat.ltb_spec OBSERVED_DATA_MAX_SIZE (index + length src + 1)); [lia |].
  rewrite store_ok by lia. mstep.
  rewrite memcpy_ok by (rewrite length_insert; lia). mstep.
  do 2 f_equal. fold (header ty (length src)). unfold put_record.
  rewrite insert_take_drop by lia.
  assert (Hi : length (take index dst) = index) by (rewrite length_take; lia).
  replace (index + 1)%nat with (length (take index dst) + 1)%nat at 1 by lia.
  rewrite take_app_add'; [| reflexivity]. simpl. rewrite take_0.
  rewrite <- app_assoc. simpl. do 3 f_equal.
  replace (index + 1 + length src)%nat
    with (length (take index dst) + S (length src))%nat by lia.
  rewrite drop_app_add'; [| reflexivity]. simpl.
  rewrite drop_drop. f_equal. lia.
Qed.

Lemma append_overflow dst index src ty :
  (OBSERVED_DATA_MAX_SIZE < index + length src + 1)%nat ->
  pb_module_ble_append dst index src ty = Raise ValueError.
Proof.
  intros H. unfold pb_module_ble_append.
  destruct (Nat.ltb_spec OBSERVED_DATA_MAX_SIZE (index + length src + 1)); [reflexivity | lia].
Qed.

Section ReadBack.
Variables (dst : list byte) (index : nat)
          (ty : pb_ble_broadcast_data_type_t) (src : list byte).
Hypothesis Hindex : (index <= length dst)%nat.

Lemma load_put_record_header :
  load (put_record dst index ty src) index = Ok (header ty (length src)).
Proof.
  apply load_Some. unfold put_record.
  rewrite lookup_app_r by (rewrite length_take; lia).
  rewrite length_take. now replace (index - index `min` length dst)%nat with 0%nat by lia.
Qed.

Lemma load_bytes_put_record_payload :
  load_bytes (put_record dst index ty src) (S index) (length src) = Ok src.
Proof.
  unfold put_record. rewrite load_bytes_ok.
  - f_equal.
    replace (S index) with (length (take index dst) + 1)%nat
      by (rewrite length_take; lia).
    rewrite drop_app_add'; [| reflexivity]. simpl. rewrite drop_0.
    apply take_app_length.
  - rewrite length_app, length_take. simpl. rewrite length_app. lia.
Qed.

Lemma load_put_record_payload b src' :
  src = b :: src' -> load (put_record dst index ty src) (S index) = Ok b.
Proof.
  intros ->. apply load_Some. unfold put_record.
  rewrite lookup_app_r by (rewrite length_take; lia).
  rewrite length_take.
  now replace (S index - index `min` length dst)%nat with 1%nat by lia.
Qed.
End ReadBack.

(** ** What [pb_module_ble_encode] writes for each kind of value *)

Lemma int_width_cases z :
  INT32_MIN <= z <= INT32_MAX ->
  (int_width z = 1%nat \/ int_width z = 2%nat \/ int_width z = 4%nat) /\
  fits_width (int_width z) z /\
  (forall k, (k = 1 \/ k = 2 \/ k = 4)%nat -> fits_width k z -> (int_width z <= k)%nat).
Proof.
  unfold int_width, fits_width, INT8_MIN, INT8_MAX, INT16_MIN, INT16_MAX,
    INT32_MIN, INT32_MAX.
  intros Hz.
  destruct (Z.leb_spec (-128) z), (Z.leb_spec z 127); simpl;
    [| destruct (Z.leb_spec (-32768) z), (Z.leb_spec z 32767); simpl ..].
  all: (split; [auto |]; split; [simpl; lia |]).
  all: intros k [-> | [-> | ->]]; simpl; lia.
Qed.

Lemma fits_mp_int_int32 t z :
  INT32_MIN <= z <= INT32_MAX -> fits_mp_int t z = true.
Proof.
  unfold INT32_MIN, INT32_MAX, fits_mp_int. intros Hz.
  apply andb_true_iff.
  destruct t; unfold mp_int_bits, SIZEOF_POINTER;
    (split; [apply Z.leb_le | apply Z.ltb_lt]); lia.
Qed.

(** For an encodable value the chain of tests ends in one call of
    [pb_module_ble_append], on either target. *)
Lemma encode_encodable t dst index v :
  encodable v = true ->
  pb_module_ble_encode t dst index v =
    pb_module_ble_append dst index (record_payload v) (record_type v).
Proof.
  destruct v as [| | | z | bits | s | s | items]; simpl; try reflexivity;
    try discriminate.
  intros Hz. apply andb_true_iff in Hz as [Hlo Hhi].
  rewrite fits_mp_int_int32 by lia. mstep. unfold int_width.
  destruct ((INT8_MIN <=? z) && (z <=? INT8_MAX)); [reflexivity |].
  destruct ((INT16_MIN <=? z) && (z <=? INT16_MAX)); [reflexivity |].
  rewrite Hlo, Hhi. now destruct t.
Qed.

(** Outside the 32-bit signed range no target encodes: on [ILP32] the
    conversion to [mp_int_t] raises, on [LP64] either the conversion or the
    range test of the [#else] branch does. *)
Lemma encode_int_overflow t dst index z :
  z < INT32_MIN \/ INT32_MAX < z ->
  pb_module_ble_encode t dst index (mp_int z) = Raise OverflowError.
Proof.
  unfold INT32_MIN, INT32_MAX. intros Hz. simpl.
  destruct (fits_mp_int t z) eqn:Hfit; [| reflexivity]. mstep.
  apply andb_true_iff in Hfit as [Hlo Hhi].
  apply Z.leb_le in Hlo. apply Z.ltb_lt in Hhi.
  unfold INT8_MIN, INT8_MAX, INT16_MIN, INT16_MAX, INT32_MIN, INT32_MAX.
  destruct (Z.leb_spec (-128) z), (Z.leb_spec z 127); simpl; try lia;
    destruct (Z.leb_spec (-32768) z), (Z.leb_spec z 32767); simpl; try lia.
  all: destruct t; unfold mp_int_bits, SIZEOF_POINTER in Hlo, Hhi; try lia.
  all: destruct (Z.leb_spec (-2147483648) z), (Z.leb_spec z 2147483647); simpl;
    try reflexivity; lia.
Qed.

Lemma length_record_payload_int z : length (record_payload (mp_int z)) = int_width z.
Proof. apply length_le_split. Qed.

(** Decoding a record that was just written gives the value back. *)
Lemma decode_put_record dst index v rssi size :
  encodable v = true ->
  (index + payload_size v + 1 <= OBSERVED_DATA_MAX_SIZE)%nat ->
  length dst = OBSERVED_DATA_MAX_SIZE ->
  pb_module_ble_decode
    (mk_observed_data rssi size
       (put_record dst index (record_type v) (record_payload v))) index
  = Ok (v, (index + payload_size v + 1)%nat).
Proof.
  unfold payload_size. intros Henc Hfit Hlen.
  assert (Hidx : (index <= length dst)%nat) by lia.
  assert (H32 : (length (record_payload v) < 32)%nat)
    by (unfold OBSERVED_DATA_MAX_SIZE in Hfit; simpl in Hfit; lia).
  destruct (header_fields (record_type v) _ H32) as [Hsize Htype].
  unfold pb_module_ble_decode. cbn [od_data].
  rewrite load_put_record_header by exact Hidx. mstep.
  rewrite Hsize, Htype, type_of_code_code.
  destruct v as [| | | z | bits | s | s | items]; try discriminate;
    cbn [record_type record_payload] in *.
  - simpl. do 2 f_equal. lia.
  - simpl. do 2 f_equal. lia.
  - simpl. do 2 f_equal. lia.
  - apply andb_true_iff in Henc as [Hlo Hhi].
    destruct (int_width_cases z) as ([Hw | [Hw | Hw]] & Hf & _); [lia | | |];
      rewrite length_le_split in *; rewrite Hw in *; unfold fits_width in Hf;
      cbn [Z.of_nat Z.eqb Pos.eqb Pos.of_succ_nat Pos.succ].
    + rewrite (load_put_record_payload _ _ _ _ Hidx (byte.of_Z z) []) by reflexivity.
      mstep. rewrite byte.unsigned_of_Z. unfold byte.wrap.
      rewrite (to_signed_wrap 1) by (simpl; lia). do 2 f_equal. lia.
    + unfold pbio_get_uint16_le.
      pose proof (load_bytes_put_record_payload dst index
                    PB_BLE_BROADCAST_DATA_TYPE_INT (le_split 2 z) Hidx) as Hld.
      rewrite length_le_split in Hld. rewrite Hld. mstep.
      rewrite le_combine_split, (to_signed_wrap 2) by (simpl; lia).
      do 2 f_equal. lia.
    + unfold pbio_get_uint32_le.
      pose proof (load_bytes_put_record_payload dst index
                    PB_BLE_BROADCAST_DATA_TYPE_INT (le_split 4 z) Hidx) as Hld.
      rewrite length_le_split in Hld. rewrite Hld. mstep.
      rewrite le_combine_split, (to_signed_wrap 4) by (simpl; lia).
      do 2 f_equal. lia.
  - apply andb_true_iff in Henc as [Hlo Hhi].
    unfold pbio_get_uint32_le.
    pose proof (load_bytes_put_record_payload dst index
                  PB_BLE_BROADCAST_DATA_TYPE_FLOAT (le_split 4 bits) Hidx) as Hld.
    rewrite length_le_split in Hld. rewrite Hld. mstep.
    rewrite le_combine_split, Z.mod_small by (simpl; lia).
    rewrite length_le_split. do 2 f_equal. lia.
  - rewrite Nat2Z.id, load_bytes_put_record_payload by exact Hidx. mstep.
    do 2 f_equal. lia.
  - rewrite Nat2Z.id, load_bytes_put_record_payload by exact Hidx. mstep.
    do 2 f_equal. lia.
Qed.

Lemma encode_fits t dst index v :
  encodable v = true ->
  length dst = OBSERVED_DATA_MAX_SIZE ->
  (index + payload_size v + 1 <= OBSERVED_DATA_MAX_SIZE)%nat ->
  pb_module_ble_encode t dst index v =
    Ok (put_record dst index (record_type v) (record_payload v),
        (index + payload_size v + 1)%nat).
Proof.
  intros Henc Hlen Hfit. rewrite encode_encodable by exact Henc.
  now apply append_ok.
Qed.

Lemma encode_no_room t dst index v :
  encodable v = true ->
  (OBSERVED_DATA_MAX_SIZE < index + payload_size v + 1)%nat ->
  pb_module_ble_encode t dst index v = Raise ValueError.
Proof.
  intros Henc Hfit. rewrite encode_encodable by exact Henc.
  now apply append_overflow.
Qed.

(** C2: round trip.  A value of one of the encodable kinds (None, True,
    False, an int of the 32-bit signed range, a single-precision float, a
    str, a bytes) whose record fits the payload area at [index] is encoded,
    the record is one header byte whose length field is the payload length
    followed by the payload, nothing else of the buffer changes, and
    decoding at [index] returns the same value and moves the cursor to the
    index encode returned: [index] + 1 + payload length. *)
Theorem encode_decode_roundtrip t dst index v rssi size :
  encodable v = true ->
  length dst = OBSERVED_DATA_MAX_SIZE ->
  (index + payload_size v + 1 <= OBSERVED_DATA_MAX_SIZE)%nat ->
  exists dst' hdr,
    pb_module_ble_encode t dst index v = Ok (dst', (index + 1 + payload_size v)%nat) /\
    dst' !! index = Some hdr /\
    Z.land (byte.unsigned hdr) 0x1F = Z.of_nat (payload_size v) /\
    take index dst' = take index dst /\
    drop (index + 1 + payload_size v) dst' = drop (index + 1 + payload_size v) dst /\
    pb_module_ble_decode (mk_observed_data rssi size dst') index
      = Ok (v, (index + 1 + payload_size v)%nat).
Proof.
  intros Henc Hlen Hfit.
  exists (put_record dst index (record_type v) (record_payload v)).
  exists (header (record_type v) (payload_size v)).
  replace (index + 1 + payload_size v)%nat with (index + payload_size v + 1)%nat by lia.
  assert (Hi : length (take index dst) = index) by (rewrite length_take; lia).
  split; [now apply encode_fits |].
  split.
  { unfold put_record, payload_size.
    rewrite lookup_app_r by lia. rewrite Hi, Nat.sub_diag. reflexivity. }
  split.
  { apply header_fields. unfold OBSERVED_DATA_MAX_SIZE in Hfit. simpl in Hfit. lia. }
  split.
  { unfold put_record. rewrite take_app_le by lia. rewrite take_take.
    f_equal. lia. }
  split.
  { unfold put_record, payload_size.
    replace (index + length (record_payload v) + 1)%nat
      with (length (take index dst) + S (length (record_payload v)))%nat at 1 by lia.
    rewrite drop_app_add'; [| reflexivity]. simpl.
    now rewrite drop_app_length. }
  now apply decode_put_record.
Qed.

Lemma encode_decode_roundtrip_witness :
  exists dst' hdr,
    pb_module_ble_encode ILP32 zero_buffer 3 (mp_int (-32769))
      = Ok (dst', (3 + 1 + payload_size (mp_int (-32769)))%nat) /\
    dst' !! 3%nat = Some hdr /\
    Z.land (byte.unsigned hdr) 0x1F = Z.of_nat (payload_size (mp_int (-32769))) /\
    take 3 dst' = take 3 zero_buffer /\
    drop (3 + 1 + payload_size (mp_int (-32769))) dst'
      = drop (3 + 1 + payload_size (mp_int (-32769))) zero_buffer /\
    pb_module_ble_decode (mk_observed_data (-40) 8 dst') 3
      = Ok (mp_int (-32769), (3 + 1 + payload_size (mp_int (-32769)))%nat).
Proof.
  apply (encode_decode_roundtrip ILP32 zero_buffer 3 (mp_int (-32769)) (-40) 8);
    [reflexivity | reflexivity | cbv; lia].
Defined.

(** C5: width selection.  An int of the 32-bit signed range is written with
    the Int tag in the smallest of 1, 2 and 4 bytes that holds it in two's
    complement, little-endian, when the record fits the payload area (and
    the call fails ValueError when it does not fit); 127 takes 1 byte, 128
    and 32767 take 2, 32768 takes 4.  An int outside the 32-bit signed range,
    such as 2**31, fails OverflowError whatever the room. *)
Theorem encode_int_width t dst index z :
  length dst = OBSERVED_DATA_MAX_SIZE ->
  (INT32_MIN <= z <= INT32_MAX ->
   exists k,
     (k = 1 \/ k = 2 \/ k = 4)%nat /\
     fits_width k z /\
     (forall k', (k' = 1 \/ k' = 2 \/ k' = 4)%nat -> fits_width k' z -> (k <= k')%nat) /\
     to_signed (Z.of_nat k * 8) (le_combine (le_split k z)) = z /\
     pb_module_ble_encode t dst index (mp_int z) =
       if (index + k + 1 <=? OBSERVED_DATA_MAX_SIZE)%nat
       then Ok (take index dst
                  ++ header PB_BLE_BROADCAST_DATA_TYPE_INT k :: le_split k z
                  ++ drop (index + k + 1) dst,
                (index + k + 1)%nat)
       else Raise ValueError) /\
  (z < INT32_MIN \/ INT32_MAX < z ->
   pb_module_ble_encode t dst index (mp_int z) = Raise OverflowError) /\
  pb_module_ble_encode t zero_buffer 0 (mp_int 127)
    = Ok (Byte.x61 :: Byte.x7f :: drop 2 zero_buffer, 2%nat) /\
  pb_module_ble_encode t zero_buffer 0 (mp_int 128)
    = Ok (Byte.x62 :: Byte.x80 :: Byte.x00 :: drop 3 zero_buffer, 3%nat) /\
  pb_module_ble_encode t zero_buffer 0 (mp_int 32767)
    = Ok (Byte.x62 :: Byte.xff :: Byte.x7f :: drop 3 zero_buffer, 3%nat) /\
  pb_module_ble_encode t zero_buffer 0 (mp_int 32768)
    = Ok (Byte.x64 :: Byte.x00 :: Byte.x80 :: Byte.x00 :: Byte.x00
            :: drop 5 zero_buffer, 5%nat) /\
  pb_module_ble_encode t zero_buffer 0 (mp_int (2 ^ 31)) = Raise OverflowError.
Proof.
  intros Hlen. split; [| split].
  - intros Hz. exists (int_width z).
    destruct (int_width_cases z Hz) as (Hk & Hf & Hmin).
    split; [exact Hk |]. split; [exact Hf |]. split; [exact Hmin |].
    split.
    { rewrite le_combine_split. apply to_signed_wrap; [lia | exact Hf]. }
    assert (Henc : encodable (mp_int z) = true).
    { simpl. apply andb_true_iff. split; apply Z.leb_le; lia. }
    pose proof (length_record_payload_int z) as Hps.
    destruct (Nat.leb_spec (index + int_width z + 1) OBSERVED_DATA_MAX_SIZE).
    + rewrite encode_fits; unfold payload_size; rewrite ?Hps; try assumption.
      unfold put_record. cbn [record_payload record_type]. now rewrite length_le_split.
    + apply encode_no_room; [exact Henc |]. unfold payload_size. now rewrite Hps.
  - apply encode_int_overflow.
  - repeat split; destruct t; vm_compute; reflexivity.
Qed.

Lemma encode_int_width_witness :
  (exists k,
     (k = 1 \/ k = 2 \/ k = 4)%nat /\
     fits_width k (-129) /\
     (forall k', (k' = 1 \/ k' = 2 \/ k' = 4)%nat -> fits_width k' (-129) -> (k <= k')%nat) /\
     to_signed (Z.of_nat k * 8) (le_combine (le_split k (-129))) = -129 /\
     pb_module_ble_encode LP64 zero_buffer 7 (mp_int (-129)) =
       if (7 + k + 1 <=? OBSERVED_DATA_MAX_SIZE)%nat
       then Ok (take 7 zero_buffer
                  ++ header PB_BLE_BROADCAST_DATA_TYPE_INT k :: le_split k (-129)
                  ++ drop (7 + k + 1) zero_buffer,
                (7 + k + 1)%nat)
       else Raise ValueError) /\
  pb_module_ble_encode ILP32 zero_buffer 7 (mp_int (2 ^ 40)) = Raise OverflowError.
Proof.
  split.
  - destruct (encode_int_width LP64 zero_buffer 7 (-129) eq_refl) as [Hin _].
    apply Hin. unfold INT32_MIN, INT32_MAX. lia.
  - destruct (encode_int_width ILP32 zero_buffer 7 (2 ^ 40) eq_refl) as (_ & Hout & _).
    apply Hout. unfold INT32_MAX. right. lia.
Defined.

(** ** Records [pb_module_ble_decode] rejects, and one it does not *)

(** With floats, the decoder with the configuration as a parameter is the
    decoder above. *)
Lemma decode_for_float data index :
  pb_module_ble_decode_for MICROPY_FLOAT_IMPL_FLOAT data index
  = pb_module_ble_decode data index.
Proof. reflexivity. Qed.

(** What the decoder refuses, in every configuration: a record whose tag is
    7, and an Int record whose length is not 1, 2 or 4; without floats, every
    Float record.  With floats a Float record is decoded from the four bytes
    after its header, and its length field is not looked at. *)
Lemma decode_for_rejects impl data index hdr :
  od_data data !! index = Some hdr ->
  (Z.shiftr (byte.unsigned hdr) 5 = 7 \/
   (Z.shiftr (byte.unsigned hdr) 5 = type_code PB_BLE_BROADCAST_DATA_TYPE_INT /\
    Z.land (byte.unsigned hdr) 0x1F <> 1 /\
    Z.land (byte.unsigned hdr) 0x1F <> 2 /\
    Z.land (byte.unsigned hdr) 0x1F <> 4) ->
   pb_module_ble_decode_for impl data index = Raise RuntimeError) /\
  (Z.shiftr (byte.unsigned hdr) 5 = type_code PB_BLE_BROADCAST_DATA_TYPE_FLOAT ->
   pb_module_ble_decode_for MICROPY_FLOAT_IMPL_NONE data index = Raise RuntimeError /\
   forall bs,
     load_bytes (od_data data) (S index) 4 = Ok bs ->
     pb_module_ble_decode_for MICROPY_FLOAT_IMPL_FLOAT data index
       = Ok (mp_float (le_combine bs), (index + 5)%nat)).
Proof.
  intros Hhdr. unfold pb_module_ble_decode_for.
  rewrite (load_Some _ _ _ Hhdr). mstep. split.
  - intros [-> | (-> & H1 & H2 & H4)]; [reflexivity |]. simpl.
    apply Z.eqb_neq in H1, H2, H4. now rewrite H1, H2, H4.
  - intros ->. split; [reflexivity |].
    intros bs Hbs. simpl. unfold pbio_get_uint32_le. rewrite Hbs. mstep.
    do 2 f_equal. lia.
Qed.

(** C4: the claim holds for the tag 7 and for Int records, and in a build
    without floats; in a build with floats the code breaks it for Float
    records.  The record below has tag 4 (Float) and length 2.  Built with
    floats, the decoder returns the float 1.0 from the four bytes after the
    header, with the cursor moved over them, where the claim (and the
    decoder's own documentation: RuntimeError if the data was invalid) has a
    corrupt-data error; the Int case next to it refuses a length that is not
    1, 2 or 4, and so does the Float case of a build without floats.  The
    record is one the code can receive: an advertisement that carries it is
    taken up by the callback, and observe then returns the float. *)
Theorem decode_float_length_unchecked :
  od_data short_float_record !! 0%nat = Some Byte.x82 /\
  Z.shiftr (byte.unsigned Byte.x82) 5 = type_code PB_BLE_BROADCAST_DATA_TYPE_FLOAT /\
  Z.land (byte.unsigned Byte.x82) 0x1F = 2 /\
  pb_module_ble_decode_for MICROPY_FLOAT_IMPL_FLOAT short_float_record 0
    = Ok (mp_float 0x3F800000, 5%nat) /\
  pb_module_ble_decode short_float_record 0 = Ok (mp_float 0x3F800000, 5%nat) /\
  pb_module_ble_decode_for MICROPY_FLOAT_IMPL_NONE short_float_record 0
    = Raise RuntimeError /\
  (forall impl, pb_module_ble_decode_for impl odd_int_record 0 = Raise RuntimeError) /\
  let w := (pb_type_BLE_new ILP32 (mp_int 0) (mp_int 2) initial_world).1 in
  let received :=
    (handle_observe_event PBDRV_BLUETOOTH_AD_TYPE_ADV_NONCONN_IND
       short_float_advertisement 31 (-40) w).1 in
  (pb_module_ble_observe ILP32 (mp_int 0) received).2
    = Ok (mp_tuple [mp_int (-40); mp_tuple [mp_float 0x3F800000]]).
Proof.
  split; [reflexivity |]. split; [reflexivity |]. split; [reflexivity |].
  split; [reflexivity |]. split; [reflexivity |]. split; [reflexivity |].
  split; [intros []; reflexivity |].
  vm_compute. reflexivity.
Qed.

(** ** The read loop of [pb_module_ble_observe] *)

Lemma observe_loop_steps n ch_data index :
  (length (observe_loop n ch_data index).1 <= n)%nat /\
  Forall (fun cursor => Z.of_nat cursor < od_size ch_data) (observe_loop n ch_data index).1 /\
  (forall items last,
     (observe_loop n ch_data index).2 = Ok (items, last) ->
     length items = length (observe_loop n ch_data index).1 /\
     ((length items < n)%nat -> od_size ch_data <= Z.of_nat last)).
Proof.
  revert index. induction n as [| n IH]; intros index; simpl.
  - split; [lia |]. split; [constructor |].
    intros items last [= <- <-]. simpl. split; [reflexivity | lia].
  - destruct (Z.leb_spec (od_size ch_data) (Z.of_nat index)) as [Hstop | Hgo]; simpl.
    + split; [lia |]. split; [constructor |].
      intros items last [= <- <-]. simpl. split; [reflexivity | lia].
    + destruct (pb_module_ble_decode ch_data index) as [[item index'] | e | c]; simpl.
      * specialize (IH index').
        destruct (observe_loop n ch_data index') as [steps r]; simpl in *.
        destruct IH as (Hlen & Hall & Hok).
        split; [lia |]. split; [now constructor |].
        intros items last Hr.
        destruct r as [[items' last'] | |]; simpl in Hr; try discriminate.
        injection Hr as <- <-.
        destruct (Hok items' last' eq_refl) as [Hl Hend].
        simpl. split; [lia |]. intros Hlt. apply Hend. lia.
      * split; [lia |]. split; [repeat constructor; lia |]. discriminate.
      * split; [lia |]. split; [repeat constructor; lia |]. discriminate.
Qed.

(** C7: the read is bounded.  For every stored entry, whatever its size
    field and its bytes, the loop of observe makes at most 26 decode steps;
    every step is made at a cursor below the stored size, so decoding stops
    as soon as the cursor has reached it; when the loop ends normally after
    fewer than 26 steps the cursor has reached the size; and a call of
    observe that returns never returns more than 26 items. *)
Theorem observe_read_bounded :
  (forall ch_data,
     (length (observe_loop OBSERVED_DATA_MAX_SIZE ch_data 0).1 <= 26)%nat /\
     Forall (fun cursor => Z.of_nat cursor < od_size ch_data)
       (observe_loop OBSERVED_DATA_MAX_SIZE ch_data 0).1 /\
     (forall items last,
        (observe_loop OBSERVED_DATA_MAX_SIZE ch_data 0).2 = Ok (items, last) ->
        length items = length (observe_loop OBSERVED_DATA_MAX_SIZE ch_data 0).1 /\
        ((length items < 26)%nat -> od_size ch_data <= Z.of_nat last))) /\
  (forall t channel_in w w' rssi items,
     pb_module_ble_observe t channel_in w = (w', Ok (mp_tuple [rssi; mp_tuple items])) ->
     (length items <= 26)%nat).
Proof.
  split; [intros ch_data; apply observe_loop_steps |].
  intros t channel_in w w' rssi items.
  unfold pb_module_ble_observe. wstep.
  destruct (mp_obj_get_int_truncated t channel_in) as [channel | |]; try discriminate.
  destruct ((channel <? 0) || (num_observed_data w <=? channel)); wstep;
    [discriminate |].
  destruct (observed_data w) as [table |]; wstep; [| discriminate].
  destruct (table !! Z.to_nat channel) as [ch_data |]; wstep; [| discriminate].
  destruct (observe_loop_steps OBSERVED_DATA_MAX_SIZE ch_data 0) as (Hlen & _ & Hok).
  destruct (observe_loop OBSERVED_DATA_MAX_SIZE ch_data 0) as [steps r].
  cbn [fst snd] in *.
  destruct r as [[items' last] | |]; wstep; try discriminate.
  intros [= _ _ <-].
  destruct (Hok items' last eq_refl) as [-> _]. exact Hlen.
Qed.

Lemma observe_read_bounded_witness :
  (length (observe_loop OBSERVED_DATA_MAX_SIZE oversized_entry 0).1 <= 26)%nat /\
  (length (replicate 26 mp_const_none) <= 26)%nat.
Proof.
  split.
  - apply (proj1 observe_read_bounded oversized_entry).
  - apply (proj2 observe_read_bounded ILP32 (mp_int 0)
             (mk_world (Some [oversized_entry]) 1 [])
             (mk_world (Some [oversized_entry]) 1 [pbdrv_bluetooth_start_observing])
             (mp_int (-40)) (replicate 26 mp_const_none)).
    vm_compute. reflexivity.
Defined.

(** ** Construction *)

Lemma mp_obj_get_int_fits t z :
  fits_mp_int t z = true -> mp_obj_get_int t (mp_int z) = Ok z.
Proof. intros H. unfold mp_obj_get_int. simpl. now rewrite H. Qed.

Lemma fits_mp_int_channel t z : -2 ^ 31 <= z < 2 ^ 31 -> fits_mp_int t z = true.
Proof.
  intros Hz. apply fits_mp_int_int32. unfold INT32_MIN, INT32_MAX. lia.
Qed.

(** A valid construction: what the globals are afterwards. *)
Lemma pb_type_BLE_new_ok t w b m :
  observed_data w = None ->
  0 <= b <= MAX_CHANNEL_NUMBER ->
  0 <= m <= MAX_CHANNEL_NUMBER ->
  pb_type_BLE_new t (mp_int b) (mp_int m) w =
    (mk_world (Some (mp_obj_malloc_var (Z.to_nat m))) (m + 1) (driver w),
     Ok (mk_BLE b)).
Proof.
  unfold MAX_CHANNEL_NUMBER. intros Hnull Hb Hm.
  unfold pb_type_BLE_new. wstep. rewrite Hnull.
  rewrite bool_decide_eq_true_2 by reflexivity. unfold c_assert. wstep.
  rewrite !mp_obj_get_int_fits by (apply fits_mp_int_channel; lia). wstep.
  unfold MAX_CHANNEL_NUMBER.
  destruct (Z.ltb_spec b 0), (Z.ltb_spec 15 b); try lia.
  destruct (Z.ltb_spec m 0), (Z.ltb_spec 15 m); try lia.
  cbn [orb]. wstep.
  rewrite !Z.mod_small by lia. reflexivity.
Qed.

(** C1 does not hold of the code: the table gets [max_observe_channel]
    slots, one fewer than the channel count it records.  After
    [construct(0, 2)] the count is 3 and the table has 2 slots; channel 2
    passes the range test of observe and of the advertisement callback, and
    both then reach past the end of the table. *)
Theorem construct_table_one_slot_short :
  let r := pb_type_BLE_new ILP32 (mp_int 0) (mp_int 2) initial_world in
  r.2 = Ok (mk_BLE 0) /\
  num_observed_data r.1 = 3 /\
  length <$> observed_data r.1 = Some 2%nat /\
  (pb_module_ble_observe ILP32 (mp_int 2) r.1).2 = Trap OutOfBounds /\
  (handle_observe_event PBDRV_BLUETOOTH_AD_TYPE_ADV_NONCONN_IND
     ([Byte.x07; Byte.xff; Byte.x97; Byte.x03; Byte.x02; Byte.x20; Byte.x61; Byte.x05]
        ++ replicate 23 Byte.x00) 8 (-40) r.1).2 = Trap OutOfBounds.
Proof. vm_compute. repeat split; reflexivity. Qed.

(** The same for every valid pair of channels. *)
Lemma construct_slots t w b m :
  observed_data w = None ->
  0 <= b <= MAX_CHANNEL_NUMBER ->
  0 <= m <= MAX_CHANNEL_NUMBER ->
  let w' := (pb_type_BLE_new t (mp_int b) (mp_int m) w).1 in
  num_observed_data w' = m + 1 /\
  length <$> observed_data w' = Some (Z.to_nat m).
Proof.
  intros Hnull Hb Hm. rewrite pb_type_BLE_new_ok by assumption.
  cbn [fst num_observed_data observed_data]. split; [reflexivity |].
  unfold mp_obj_malloc_var. simpl. now rewrite length_replicate.
Qed.

(** One hub broadcasts True and 5 on channel 2; a hub constructed for the
    channels 0 to 3 receives the advertisement at -40 dBm and observes
    channel 2. *)
Example broadcast_then_observe :
  let sender := pb_module_ble_broadcast ILP32 (mk_BLE 2)
                  [mp_const_true; mp_int 5] initial_world in
  let raw := [Byte.x07; Byte.xff; Byte.x97; Byte.x03; Byte.x02;
              Byte.x20; Byte.x61; Byte.x05] in
  driver sender.1 = [pbdrv_bluetooth_start_broadcasting raw] /\
  ((_ ← pb_type_BLE_new ILP32 (mp_int 0) (mp_int 3);
    _ ← handle_observe_event PBDRV_BLUETOOTH_AD_TYPE_ADV_NONCONN_IND
          (raw ++ replicate 23 Byte.x00) 8 (-40);
    pb_module_ble_observe ILP32 (mp_int 2)) initial_world).2
  = Ok (mp_tuple [mp_int (-40); mp_tuple [mp_const_true; mp_int 5]]).
Proof. vm_compute. split; reflexivity. Qed.

(** ** The advertisement callback *)

Lemma ad_type_eqb_eq a b : ad_type_eqb a b = true <-> a = b.
Proof. destruct a, b; simpl; split; congruence. Qed.

Section Advertisement.
Variables (b0 b1 b2 b3 b4 : byte) (payload tail : list byte).
Hypothesis Hpayload : length payload = OBSERVED_DATA_MAX_SIZE.

(** The bytes the driver hands over: five bytes of prefix and the 26 bytes
    after them, followed by whatever else its buffer holds. *)
Let data : list byte := b0 :: b1 :: b2 :: b3 :: b4 :: payload ++ tail.

Lemma load_bytes_advertisement_payload :
  load_bytes data 5 OBSERVED_DATA_MAX_SIZE = Ok payload.
Proof.
  rewrite load_bytes_ok.
  - subst data. cbn [drop]. now rewrite drop_0, <- Hpayload, take_app_length.
  - subst data. simpl. rewrite length_app. unfold OBSERVED_DATA_MAX_SIZE in *. simpl in *. lia.
Qed.

Lemma load_advertisement_prefix :
  load data 0 = Ok b0 /\ load data 1 = Ok b1 /\ load data 4 = Ok b4 /\
  pbio_get_uint16_le data 2 = Ok (le_combine [b2; b3]).
Proof. repeat split; reflexivity. Qed.

Lemma handle_observe_event_dropped w event_type length rssi :
  ~ taken_up w event_type length b1 b2 b3 b4 ->
  handle_observe_event event_type data length rssi w = (w, Ok tt).
Proof.
  intros Hno. unfold handle_observe_event.
  destruct load_advertisement_prefix as (_ & -> & -> & ->).
  destruct (ad_type_eqb event_type PBDRV_BLUETOOTH_AD_TYPE_ADV_NONCONN_IND) eqn:Hev;
    [| reflexivity].
  destruct (Z.leb_spec 5 length) as [Hlen | Hlen]; [| reflexivity].
  cbn [andb]. wstep.
  destruct (Z.eqb_spec (byte.unsigned b1) MFG_SPECIFIC) as [Hmfg | Hmfg];
    [| reflexivity].
  destruct (Z.eqb_spec (le_combine [b2; b3]) LEGO_CID) as [Hcid | Hcid];
    [| reflexivity].
  destruct (Z.leb_spec (num_observed_data w) (byte.unsigned b4)) as [Hch | Hch];
    [reflexivity |].
  exfalso. apply Hno. apply ad_type_eqb_eq in Hev. now repeat split.
Qed.

Lemma handle_observe_event_stored w event_type length rssi table old :
  taken_up w event_type length b1 b2 b3 b4 ->
  observed_data w = Some table ->
  table !! Z.to_nat (byte.unsigned b4) = Some old ->
  List.length (od_data old) = OBSERVED_DATA_MAX_SIZE ->
  handle_observe_event event_type data length rssi w =
    (mk_world
       (Some (<[Z.to_nat (byte.unsigned b4) :=
                 {| od_rssi := rssi;
                    od_size := (byte.unsigned b0 - 4) mod 2 ^ 8;
                    od_data := payload |}]> table))
       (num_observed_data w) (driver w),
     Ok tt).
Proof.
  intros (Hev & Hlen & Hmfg & Hcid & Hch) Htable Hold Hsize.
  unfold handle_observe_event.
  destruct load_advertisement_prefix as (-> & -> & -> & ->).
  rewrite load_bytes_advertisement_payload.
  apply ad_type_eqb_eq in Hev. rewrite Hev.
  destruct (Z.leb_spec 5 length); [| lia].
  cbn [andb]. wstep.
  rewrite Hmfg, Z.eqb_refl, Hcid, Z.eqb_refl.
  destruct (Z.leb_spec (num_observed_data w) (byte.unsigned b4)); [lia |].
  rewrite Htable, Hold.
  rewrite memcpy_whole by congruence. wstep.
  now rewrite Htable.
Qed.

End Advertisement.

(** The same in one statement, for every world and every advertisement. *)
Lemma handle_observe_event_cases w event_type rssi length
    b0 b1 b2 b3 b4 payload tail :
  List.length payload = OBSERVED_DATA_MAX_SIZE ->
  let data := b0 :: b1 :: b2 :: b3 :: b4 :: payload ++ tail in
  let channel := Z.to_nat (byte.unsigned b4) in
  (~ taken_up w event_type length b1 b2 b3 b4 ->
   handle_observe_event event_type data length rssi w = (w, Ok tt)) /\
  (taken_up w event_type length b1 b2 b3 b4 ->
   forall table old,
     observed_data w = Some table ->
     table !! channel = Some old ->
     List.length (od_data old) = OBSERVED_DATA_MAX_SIZE ->
     handle_observe_event event_type data length rssi w =
       (mk_world
          (Some (<[channel := {| od_rssi := rssi;
                                 od_size := (byte.unsigned b0 - 4) mod 2 ^ 8;
                                 od_data := payload |}]> table))
          (num_observed_data w) (driver w),
        Ok tt)).
Proof.
  intros Hpayload data channel. split.
  - now apply handle_observe_event_dropped.
  - intros Htaken table old Htable Hold Hsize.
    now apply handle_observe_event_stored with (old := old).
Qed.

(** C3, as stated, fails in what is copied: the callback copies 26 bytes
    whatever [byte[0]] says, so the bytes after the payload land in the slot
    too, where the specification's copy of [byte[0] - 4 = 3] bytes would
    leave the slot's old bytes. *)
Lemma handle_observe_event_copies_whole_buffer :
  let w := (pb_type_BLE_new ILP32 (mp_int 0) (mp_int 2) initial_world).1 in
  let r := handle_observe_event PBDRV_BLUETOOTH_AD_TYPE_ADV_NONCONN_IND
             stale_advertisement 8 (-40) w in
  observed_data w = Some (replicate 2 (mk_observed_data 0 0 zero_buffer)) /\
  r.2 = Ok tt /\
  observed_data r.1 ≫= (.!! 1%nat)
    = Some {| od_rssi := -40; od_size := 3;
              od_data := [Byte.x20; Byte.x61; Byte.x05] ++ replicate 23 Byte.xaa |} /\
  spec_copied_data stale_advertisement zero_buffer
    = [Byte.x20; Byte.x61; Byte.x05] ++ replicate 23 Byte.x00 /\
  (observed_data r.1 ≫= (.!! 1%nat)) ≫= (Some ∘ od_data)
    <> Some (spec_copied_data stale_advertisement zero_buffer).
Proof. vm_compute. repeat split; try reflexivity. discriminate. Qed.

(** C3, amended.  An advertisement leaves the table as it is unless it is
    non-connectable undirected, at least 5 bytes long, manufacturer-specific
    (byte[1] = 0xFF), carries LEGO's company identifier in bytes[2..3],
    little-endian, and has a channel byte[4] below the channel count.  When
    it is taken up and the channel has a slot in the table, exactly that slot
    is overwritten: rssi becomes the reported rssi, size becomes
    (byte[0] - 4) mod 256, not clamped, and data becomes the 26 bytes
    raw[5..31), whatever byte[0] holds.  Every other slot is unchanged, and
    nothing of the slot's old contents remains. *)
Theorem handle_observe_event_update w event_type rssi length
    b0 b1 b2 b3 b4 payload tail :
  List.length payload = OBSERVED_DATA_MAX_SIZE ->
  let data := b0 :: b1 :: b2 :: b3 :: b4 :: payload ++ tail in
  let channel := Z.to_nat (byte.unsigned b4) in
  let stored := {| od_rssi := rssi;
                   od_size := (byte.unsigned b0 - 4) mod 2 ^ 8;
                   od_data := payload |} in
  (~ taken_up w event_type length b1 b2 b3 b4 ->
   handle_observe_event event_type data length rssi w = (w, Ok tt)) /\
  (taken_up w event_type length b1 b2 b3 b4 ->
   forall table old,
     observed_data w = Some table ->
     table !! channel = Some old ->
     List.length (od_data old) = OBSERVED_DATA_MAX_SIZE ->
     handle_observe_event event_type data length rssi w =
       (mk_world (Some (<[channel := stored]> table)) (num_observed_data w) (driver w),
        Ok tt) /\
     <[channel := stored]> table !! channel = Some stored /\
     (forall other, other <> channel ->
        <[channel := stored]> table !! other = table !! other) /\
     List.length (<[channel := stored]> table) = List.length table).
Proof.
  intros Hpayload data channel stored.
  destruct (handle_observe_event_cases w event_type rssi length
              b0 b1 b2 b3 b4 payload tail Hpayload) as [Hdrop Hstore].
  split; [exact Hdrop |].
  intros Htaken table old Htable Hold Hsize.
  split; [now apply Hstore with (old := old) |].
  split.
  { apply list_lookup_insert_eq. now apply lookup_lt_Some with old. }
  split.
  { intros other Hother. now apply list_lookup_insert_ne. }
  apply length_insert.
Qed.

Lemma handle_observe_event_update_witness :
  let w := (pb_type_BLE_new ILP32 (mp_int 0) (mp_int 2) initial_world).1 in
  handle_observe_event PBDRV_BLUETOOTH_AD_TYPE_ADV_SCAN_IND
    stale_advertisement 8 (-40) w = (w, Ok tt) /\
  handle_observe_event PBDRV_BLUETOOTH_AD_TYPE_ADV_NONCONN_IND
    stale_advertisement 8 (-40) w =
    (mk_world
       (Some (<[1%nat := {| od_rssi := -40; od_size := 3;
                            od_data := [Byte.x20; Byte.x61; Byte.x05]
                                       ++ replicate 23 Byte.xaa |}]>
                (replicate 2 (mk_observed_data 0 0 zero_buffer))))
       3 [],
     Ok tt).
Proof.
  intros w.
  pose proof (handle_observe_event_update w PBDRV_BLUETOOTH_AD_TYPE_ADV_SCAN_IND
                (-40) 8 Byte.x07 Byte.xff Byte.x97 Byte.x03 Byte.x01
                ([Byte.x20; Byte.x61; Byte.x05] ++ replicate 23 Byte.xaa) []
                eq_refl) as [Hdrop _].
  pose proof (handle_observe_event_update w PBDRV_BLUETOOTH_AD_TYPE_ADV_NONCONN_IND
                (-40) 8 Byte.x07 Byte.xff Byte.x97 Byte.x03 Byte.x01
                ([Byte.x20; Byte.x61; Byte.x05] ++ replicate 23 Byte.xaa) []
                eq_refl) as [_ Hstore].
  split.
  - apply Hdrop. intros [Hev _]. discriminate Hev.
  - refine (proj1 (Hstore _ (replicate 2 (mk_observed_data 0 0 zero_buffer))
                     (mk_observed_data 0 0 zero_buffer) eq_refl eq_refl eq_refl)).
    repeat split; vm_compute; congruence.
Defined.

(** ** The payload budget of [pb_module_ble_broadcast] *)

Lemma encode_args_within t args :
  forall dst index,
    Forall (fun v => encodable v = true) args ->
    length dst = OBSERVED_DATA_MAX_SIZE ->
    (index + total_encoded_size args <= OBSERVED_DATA_MAX_SIZE)%nat ->
    forall rest,
    exists dst',
      length dst' = OBSERVED_DATA_MAX_SIZE /\
      encode_args t dst index (args ++ rest)
        = encode_args t dst' (index + total_encoded_size args) rest.
Proof.
  induction args as [| v args IH]; intros dst index Henc Hlen Hfit rest.
  - exists dst. split; [exact Hlen |]. simpl. f_equal.
    unfold total_encoded_size. simpl. lia.
  - inversion Henc as [| ? ? Hv Hargs]; subst.
    unfold total_encoded_size in Hfit. simpl in Hfit. unfold encoded_size at 1 in Hfit.
    fold (total_encoded_size args) in Hfit.
    simpl. rewrite encode_fits by (try assumption; lia). mstep.
    destruct (IH (put_record dst index (record_type v) (record_payload v))
                (index + payload_size v + 1)%nat Hargs) with (rest := rest)
      as (dst' & Hlen' & Heq).
    + rewrite length_put_record; [exact Hlen |]. unfold payload_size in Hfit. lia.
    + lia.
    + exists dst'. split; [exact Hlen' |]. rewrite Heq. f_equal.
      unfold total_encoded_size. simpl. unfold encoded_size at 2. lia.
Qed.

(** The loop stops with ValueError at the first record that does not fit;
    the arguments after it are not looked at. *)
Lemma encode_args_first_overflow t pre v post :
  Forall (fun v => encodable v = true) pre ->
  encodable v = true ->
  (total_encoded_size pre <= OBSERVED_DATA_MAX_SIZE)%nat ->
  (OBSERVED_DATA_MAX_SIZE < total_encoded_size pre + encoded_size v)%nat ->
  encode_args t zero_buffer 0 (pre ++ v :: post) = Raise ValueError.
Proof.
  intros Hpre Hv Hfit Hover.
  destruct (encode_args_within t pre zero_buffer 0 Hpre eq_refl) with (rest := v :: post)
    as (dst' & Hlen' & ->); [simpl; lia |].
  simpl. rewrite encode_no_room; [reflexivity | exact Hv |].
  unfold encoded_size in Hover. lia.
Qed.

(** A sequence of encodable values whose records do not all fit has a first
    record that does not fit. *)
Lemma first_overflow args :
  Forall (fun v => encodable v = true) args ->
  (OBSERVED_DATA_MAX_SIZE < total_encoded_size args)%nat ->
  exists pre v post,
    args = pre ++ v :: post /\
    (total_encoded_size pre <= OBSERVED_DATA_MAX_SIZE)%nat /\
    (OBSERVED_DATA_MAX_SIZE < total_encoded_size pre + encoded_size v)%nat.
Proof.
  induction args as [| v args IH] using rev_ind; intros Henc Hover.
  - unfold total_encoded_size, OBSERVED_DATA_MAX_SIZE in Hover. simpl in Hover. lia.
  - apply Forall_app in Henc as [Hargs Hv].
    assert (Hsum : total_encoded_size (args ++ [v])
                   = (total_encoded_size args + encoded_size v)%nat).
    { unfold total_encoded_size. rewrite sum_list_with_app. simpl. lia. }
    destruct (Nat.le_gt_cases (total_encoded_size args) OBSERVED_DATA_MAX_SIZE)
      as [Hfit | Hbig].
    + exists args, v, []. repeat split; [exact Hfit | lia].
    + destruct (IH Hargs Hbig) as (pre & u & post & -> & Hpre & Hu).
      exists pre, u, (post ++ [v]). rewrite <- app_assoc. now repeat split.
Qed.

(** C6: the budget.  A broadcast of encodable values whose records take more
    than 26 bytes in total fails ValueError and leaves the world, the
    driver's requests among it, as it was; the failure is raised at the first
    record that would pass the budget, whatever comes after it. *)
Theorem broadcast_over_budget :
  (forall t self args w,
     Forall (fun v => encodable v = true) args ->
     (OBSERVED_DATA_MAX_SIZE < total_encoded_size args)%nat ->
     pb_module_ble_broadcast t self args w = (w, Raise ValueError)) /\
  (forall t self pre v post w,
     Forall (fun v => encodable v = true) pre ->
     encodable v = true ->
     (total_encoded_size pre <= OBSERVED_DATA_MAX_SIZE)%nat ->
     (OBSERVED_DATA_MAX_SIZE < total_encoded_size pre + encoded_size v)%nat ->
     pb_module_ble_broadcast t self (pre ++ v :: post) w = (w, Raise ValueError)).
Proof.
  assert (Hfirst : forall t self pre v post w,
     Forall (fun v => encodable v = true) pre ->
     encodable v = true ->
     (total_encoded_size pre <= OBSERVED_DATA_MAX_SIZE)%nat ->
     (OBSERVED_DATA_MAX_SIZE < total_encoded_size pre + encoded_size v)%nat ->
     pb_module_ble_broadcast t self (pre ++ v :: post) w = (w, Raise ValueError)).
  { intros t self pre v post w Hpre Hv Hfit Hover.
    unfold pb_module_ble_broadcast.
    rewrite encode_args_first_overflow by assumption. reflexivity. }
  split; [| exact Hfirst].
  intros t self args w Henc Hover.
  destruct (first_overflow args Henc Hover) as (pre & v & post & -> & Hfit & Hv).
  apply Forall_app in Henc as [Hpre Hrest].
  inversion Hrest; subst. now apply Hfirst.
Qed.

(** Five ints of four bytes fit (25 bytes), a sixth record does not; the
    tuple after it is never reached. *)
Lemma broadcast_over_budget_witness :
  pb_module_ble_broadcast LP64 (mk_BLE 3)
    (replicate 5 (mp_int 100000) ++ [mp_str [Byte.x41]]) initial_world
    = (initial_world, Raise ValueError) /\
  pb_module_ble_broadcast ILP32 (mk_BLE 3)
    (replicate 5 (mp_int 100000) ++ mp_int 7 :: [mp_const_none; mp_tuple []])
    initial_world
    = (initial_world, Raise ValueError).
Proof.
  split.
  - apply (proj1 broadcast_over_budget LP64 (mk_BLE 3)
             (replicate 5 (mp_int 100000) ++ [mp_str [Byte.x41]]) initial_world).
    + repeat constructor.
    + vm_compute. lia.
  - apply (proj2 broadcast_over_budget ILP32 (mk_BLE 3)
             (replicate 5 (mp_int 100000)) (mp_int 7)
             [mp_const_none; mp_tuple []] initial_world).
    + repeat constructor.
    + reflexivity.
    + vm_compute. lia.
    + vm_compute. lia.
Defined.

(** ** Channel arguments of [pb_module_ble_observe] and [pb_type_BLE_new] *)

(** An int that fits the machine integer is not changed by the truncating
    conversion. *)
Lemma mp_obj_get_int_truncated_fits t z :
  fits_mp_int t z = true -> mp_obj_get_int_truncated t (mp_int z) = Ok z.
Proof.
  unfold fits_mp_int. intros H. apply andb_true_iff in H as [Hlo Hhi].
  apply Z.leb_le in Hlo. apply Z.ltb_lt in Hhi.
  unfold mp_obj_get_int_truncated. f_equal.
  destruct t; unfold mp_int_bits, SIZEOF_POINTER in *.
  - apply (to_signed_wrap 4); [lia | exact (conj Hlo Hhi)].
  - apply (to_signed_wrap 8); [lia | exact (conj Hlo Hhi)].
Qed.

Lemma observe_out_of_range t w z :
  fits_mp_int t z = true ->
  z < 0 \/ num_observed_data w <= z ->
  pb_module_ble_observe t (mp_int z) w = (w, Raise InvalidArg).
Proof.
  intros Hfit Hz. unfold pb_module_ble_observe.
  rewrite mp_obj_get_int_truncated_fits by exact Hfit. wstep.
  destruct (Z.ltb_spec z 0), (Z.leb_spec (num_observed_data w) z);
    try reflexivity; lia.
Qed.

(** C8, as stated, fails for channels beyond the machine integer.  observe
    converts its argument with the truncating conversion: on a 32-bit target
    the channel 2**32, far above the channel count 3, is read as channel 0,
    passes the range test and is answered from the table, and so is 2**64 on
    a 64-bit target.  construct converts with the checking conversion, which
    refuses such a channel with OverflowError, not ValueError. *)
Lemma observe_large_channel_truncated :
  let w32 := (pb_type_BLE_new ILP32 (mp_int 0) (mp_int 2) initial_world).1 in
  let w64 := (pb_type_BLE_new LP64 (mp_int 0) (mp_int 2) initial_world).1 in
  num_observed_data w32 = 3 /\
  num_observed_data w32 <= 2 ^ 32 /\
  pb_module_ble_observe ILP32 (mp_int (2 ^ 32)) w32
    = (mk_world (observed_data w32) 3 [pbdrv_bluetooth_start_observing],
       Ok (mp_tuple [mp_int 0; mp_tuple []])) /\
  (pb_module_ble_observe ILP32 (mp_int (2 ^ 32)) w32).2 <> Raise InvalidArg /\
  pb_module_ble_observe LP64 (mp_int (2 ^ 64)) w64
    = (mk_world (observed_data w64) 3 [pbdrv_bluetooth_start_observing],
       Ok (mp_tuple [mp_int 0; mp_tuple []])) /\
  pb_type_BLE_new ILP32 (mp_int (2 ^ 32)) (mp_int 2) initial_world
    = (initial_world, Raise OverflowError).
Proof. vm_compute. repeat split; try reflexivity; discriminate. Qed.

(** C8, amended.  For channel arguments that fit the machine integer:
    observe with a channel equal to the channel count, or larger, fails
    InvalidArg and leaves the world untouched; construct, called while no
    instance is live, with a broadcast channel or a highest observe channel
    outside 0..15 fails ValueError and leaves the globals as they were. *)
Theorem channel_out_of_range t w :
  (forall z,
     fits_mp_int t z = true ->
     num_observed_data w <= z ->
     pb_module_ble_observe t (mp_int z) w = (w, Raise InvalidArg)) /\
  (forall b last_observe_channel_in,
     observed_data w = None ->
     fits_mp_int t b = true ->
     b < 0 \/ MAX_CHANNEL_NUMBER < b ->
     pb_type_BLE_new t (mp_int b) last_observe_channel_in w = (w, Raise ValueError)) /\
  (forall b m,
     observed_data w = None ->
     0 <= b <= MAX_CHANNEL_NUMBER ->
     fits_mp_int t m = true ->
     m < 0 \/ MAX_CHANNEL_NUMBER < m ->
     pb_type_BLE_new t (mp_int b) (mp_int m) w = (w, Raise ValueError)).
Proof.
  split; [| split].
  - intros z Hfit Hz. apply observe_out_of_range; [exact Hfit | now right].
  - intros b m_in Hnull Hfit Hb.
    unfold pb_type_BLE_new. wstep. rewrite Hnull.
    rewrite bool_decide_eq_true_2 by reflexivity. unfold c_assert. wstep.
    rewrite mp_obj_get_int_fits by exact Hfit. wstep.
    destruct (Z.ltb_spec b 0), (Z.ltb_spec MAX_CHANNEL_NUMBER b);
      try reflexivity; lia.
  - intros b m Hnull Hb Hfit Hm.
    unfold pb_type_BLE_new. wstep. rewrite Hnull.
    rewrite bool_decide_eq_true_2 by reflexivity. unfold c_assert. wstep.
    rewrite mp_obj_get_int_fits
      by (apply fits_mp_int_channel; unfold MAX_CHANNEL_NUMBER in Hb; lia).
    wstep.
    destruct (Z.ltb_spec b 0), (Z.ltb_spec MAX_CHANNEL_NUMBER b); try lia.
    cbn [orb]. rewrite mp_obj_get_int_fits by exact Hfit. wstep.
    destruct (Z.ltb_spec m 0), (Z.ltb_spec MAX_CHANNEL_NUMBER m);
      try reflexivity; lia.
Qed.

Lemma channel_out_of_range_witness :
  let w := (pb_type_BLE_new ILP32 (mp_int 0) (mp_int 2) initial_world).1 in
  pb_module_ble_observe ILP32 (mp_int 3) w = (w, Raise InvalidArg) /\
  pb_type_BLE_new ILP32 (mp_int 16) (mp_int 2) initial_world
    = (initial_world, Raise ValueError) /\
  pb_type_BLE_new ILP32 (mp_int 0) (mp_int (-1)) initial_world
    = (initial_world, Raise ValueError).
Proof.
  intros w. split; [| split].
  - apply (proj1 (channel_out_of_range ILP32 w) 3); [reflexivity |].
    vm_compute. discriminate.
  - apply (proj1 (proj2 (channel_out_of_range ILP32 initial_world)) 16 (mp_int 2));
      [reflexivity | reflexivity |].
    right. reflexivity.
  - apply (proj2 (proj2 (channel_out_of_range ILP32 initial_world)) 0 (-1));
      [reflexivity | | reflexivity |].
    + split; discriminate.
    + left. reflexivity.
Defined.

(** Negative channels that fit the machine integer are refused by the test
    [channel < 0] of observe, in every world, a constructed one included:
    InvalidArg, before any driver request and any access to the table. *)
Lemma observe_negative_channel t w z :
  z < 0 ->
  fits_mp_int t z = true ->
  pb_module_ble_observe t (mp_int z) w = (w, Raise InvalidArg).
Proof.
  intros Hneg Hfit. apply observe_out_of_range; [exact Hfit | now left].
Qed.

(** C10: the claim says every negative channel is refused, never truncated
    into range; the code breaks it for negative channels beyond the machine
    integer.  observe converts its argument with the truncating conversion
    before its range test: on a 32-bit target the channel -2**32 is truncated
    to channel 0, passes the test [channel < 0 || channel >= num_observed_data]
    and is answered from slot 0, after a start-observing request; so is
    -2**64 on a 64-bit target.  That rejection was meant shows in the code
    itself: the same test refuses -1 with InvalidArg, and the constructor,
    which converts with the checking conversion, refuses the channel
    -2**32. *)
Theorem observe_negative_channel_truncated :
  let w32 := (pb_type_BLE_new ILP32 (mp_int 0) (mp_int 2) initial_world).1 in
  let w64 := (pb_type_BLE_new LP64 (mp_int 0) (mp_int 2) initial_world).1 in
  - 2 ^ 32 < 0 /\
  pb_module_ble_observe ILP32 (mp_int (- 2 ^ 32)) w32
    = (mk_world (observed_data w32) 3 [pbdrv_bluetooth_start_observing],
       Ok (mp_tuple [mp_int 0; mp_tuple []])) /\
  (pb_module_ble_observe ILP32 (mp_int (- 2 ^ 32)) w32).2 <> Raise InvalidArg /\
  pb_module_ble_observe ILP32 (mp_int (- 2 ^ 32)) w32
    = pb_module_ble_observe ILP32 (mp_int 0) w32 /\
  pb_module_ble_observe LP64 (mp_int (- 2 ^ 64)) w64
    = (mk_world (observed_data w64) 3 [pbdrv_bluetooth_start_observing],
       Ok (mp_tuple [mp_int 0; mp_tuple []])) /\
  pb_module_ble_observe ILP32 (mp_int (-1)) w32 = (w32, Raise InvalidArg) /\
  pb_type_BLE_new ILP32 (mp_int 0) (mp_int (- 2 ^ 32)) initial_world
    = (initial_world, Raise OverflowError).
Proof. vm_compute. repeat split; try reflexivity; discriminate. Qed.

(** ** Teardown *)

(** C9: teardown.  [pb_type_BLE_cleanup] asks the driver to stop
    broadcasting and to stop observing, drops the pointer to the table and
    sets the channel count to 0.  In the world it leaves, whatever the driver
    has been asked since, observe fails for every argument without a driver
    request and without a table access: with InvalidArg for every int and
    bool, whatever its size or sign, and with TypeError for an argument that
    is no integer. *)
Theorem cleanup_then_observe_fails :
  (forall w,
     pb_type_BLE_cleanup w =
       (mk_world None 0
          (driver w ++ [pbdrv_bluetooth_stop_broadcasting;
                        pbdrv_bluetooth_stop_observing]),
        Ok tt)) /\
  (forall t requests z,
     pb_module_ble_observe t (mp_int z) (mk_world None 0 requests)
       = (mk_world None 0 requests, Raise InvalidArg)) /\
  (forall t requests channel_in,
     pb_module_ble_observe t channel_in (mk_world None 0 requests)
       = (mk_world None 0 requests, Raise InvalidArg) \/
     pb_module_ble_observe t channel_in (mk_world None 0 requests)
       = (mk_world None 0 requests, Raise TypeError)).
Proof.
  assert (Hint : forall t requests z,
     pb_module_ble_observe t (mp_int z) (mk_world None 0 requests)
       = (mk_world None 0 requests, Raise InvalidArg)).
  { intros t requests z. unfold pb_module_ble_observe.
    cbn [mp_obj_get_int_truncated]. wstep.
    set (channel := to_signed _ _).
    destruct (Z.ltb_spec channel 0), (Z.leb_spec 0 channel); try reflexivity; lia. }
  split.
  { intros w. unfold pb_type_BLE_cleanup. wstep. now rewrite <- app_assoc. }
  split; [exact Hint |].
  intros t requests channel_in.
  destruct channel_in; try (right; reflexivity); try (left; reflexivity).
  left. apply Hint.
Qed.

(** * Further properties of the broadcast and observe code *)

(** ** What [pb_module_ble_encode] and the loop over the arguments keep *)

Lemma append_frame dst index src ty dst' next :
  pb_module_ble_append dst index src ty = Ok (dst', next) ->
  next = (index + length src + 1)%nat /\
  (next <= OBSERVED_DATA_MAX_SIZE)%nat /\
  (next <= length dst)%nat /\
  dst' = put_record dst index ty src.
Proof.
  unfold pb_module_ble_append.
  destruct (Nat.ltb_spec OBSERVED_DATA_MAX_SIZE (index + length src + 1)) as [| Hfit];
    [discriminate |].
  unfold store. destruct (Nat.ltb_spec index (length dst)) as [Hi |]; [| discriminate].
  mstep. unfold memcpy. rewrite length_insert.
  destruct (Nat.leb_spec (index + 1 + length src) (length dst)) as [Hn |]; [| discriminate].
  mstep. intros [= <- <-].
  split; [reflexivity |]. split; [exact Hfit |]. split; [lia |].
  fold (header ty (length src)). unfold put_record.
  rewrite insert_take_drop by lia.
  assert (Hlen : length (take index dst) = index) by (rewrite length_take; lia).
  replace (index + 1)%nat with (length (take index dst) + 1)%nat at 1 by lia.
  rewrite take_app_add'; [| reflexivity]. simpl. rewrite take_0.
  rewrite <- app_assoc. simpl. do 3 f_equal.
  replace (index + 1 + length src)%nat
    with (length (take index dst) + S (length src))%nat by lia.
  rewrite drop_app_add'; [| reflexivity]. simpl.
  rewrite drop_drop. f_equal. lia.
Qed.

(** Every successful call of [pb_module_ble_encode] ends in one
    [pb_module_ble_append]. *)
Lemma encode_ok_append t dst index arg dst' next :
  pb_module_ble_encode t dst index arg = Ok (dst', next) ->
  exists src ty, pb_module_ble_append dst index src ty = Ok (dst', next).
Proof.
  destruct arg as [| | | z | bits | s | s | items]; simpl; eauto.
  - destruct (fits_mp_int t z); mstep; [| discriminate].
    destruct ((INT8_MIN <=? z) && (z <=? INT8_MAX)); eauto.
    destruct ((INT16_MIN <=? z) && (z <=? INT16_MAX)); eauto.
    destruct t; eauto.
    destruct ((INT32_MIN <=? z) && (z <=? INT32_MAX)); eauto. discriminate.
  - discriminate.
Qed.

(** X1: a successful encode stays in its place.  Whatever the value, the
    target and the buffer, when [pb_module_ble_encode] returns, the new index
    is beyond the old one and at most 26, the buffer has kept its length, and
    the bytes before the old index and from the new index on are untouched. *)
Theorem encode_frame t dst index arg dst' next :
  pb_module_ble_encode t dst index arg = Ok (dst', next) ->
  (index < next <= OBSERVED_DATA_MAX_SIZE)%nat /\
  length dst' = length dst /\
  take index dst' = take index dst /\
  drop next dst' = drop next dst.
Proof.
  intros Henc. destruct (encode_ok_append _ _ _ _ _ _ Henc) as (src & ty & Happ).
  destruct (append_frame _ _ _ _ _ _ Happ) as (-> & Hmax & Hlen & ->).
  assert (Hi : length (take index dst) = index) by (rewrite length_take; lia).
  split; [lia |]. split; [apply length_put_record; lia |].
  unfold put_record. split.
  - rewrite take_app_le by lia. rewrite take_take. f_equal. lia.
  - replace (index + length src + 1)%nat
      with (length (take index dst) + S (length src))%nat at 1 by lia.
    rewrite drop_app_add'; [| reflexivity]. simpl. now rewrite drop_app_length.
Qed.

Lemma encode_frame_witness :
  (3 < 6 <= OBSERVED_DATA_MAX_SIZE)%nat /\
  length (put_record zero_buffer 3 PB_BLE_BROADCAST_DATA_TYPE_STR [Byte.x68; Byte.x69])
    = length zero_buffer /\
  take 3 (put_record zero_buffer 3 PB_BLE_BROADCAST_DATA_TYPE_STR [Byte.x68; Byte.x69])
    = take 3 zero_buffer /\
  drop 6 (put_record zero_buffer 3 PB_BLE_BROADCAST_DATA_TYPE_STR [Byte.x68; Byte.x69])
    = drop 6 zero_buffer.
Proof.
  apply (encode_frame LP64 zero_buffer 3 (mp_str [Byte.x68; Byte.x69])).
  reflexivity.
Defined.

(** In a buffer of 26 bytes the encoder has no access out of bounds. *)
Lemma append_in_bounds dst index src ty :
  length dst = OBSERVED_DATA_MAX_SIZE ->
  pb_module_ble_append dst index src ty = Raise ValueError \/
  exists dst' next, pb_module_ble_append dst index src ty = Ok (dst', next).
Proof.
  intros Hlen.
  destruct (Nat.le_gt_cases (index + length src + 1) OBSERVED_DATA_MAX_SIZE).
  - right. rewrite append_ok by assumption. eauto.
  - left. now apply append_overflow.
Qed.

Lemma encode_in_bounds t dst index arg :
  length dst = OBSERVED_DATA_MAX_SIZE ->
  (exists e, pb_module_ble_encode t dst index arg = Raise e /\
             (e = ValueError \/ e = TypeError \/ e = OverflowError)) \/
  exists dst' next, pb_module_ble_encode t dst index arg = Ok (dst', next).
Proof.
  intros Hlen.
  assert (Happ : forall src ty,
    (exists e, pb_module_ble_append dst index src ty = Raise e /\
               (e = ValueError \/ e = TypeError \/ e = OverflowError)) \/
    exists dst' next, pb_module_ble_append dst index src ty = Ok (dst', next)).
  { intros src ty. destruct (append_in_bounds dst index src ty Hlen) as [-> | H];
      [left; eauto | now right]. }
  destruct arg as [| | | z | bits | s | s | items]; simpl; try apply Happ.
  - destruct (fits_mp_int t z); mstep; [| left; eauto].
    destruct ((INT8_MIN <=? z) && (z <=? INT8_MAX)); [apply Happ |].
    destruct ((INT16_MIN <=? z) && (z <=? INT16_MAX)); [apply Happ |].
    destruct t; [apply Happ |].
    destruct ((INT32_MIN <=? z) && (z <=? INT32_MAX)); [apply Happ | left; eauto].
  - left. eauto.
Qed.

Lemma encode_args_in_bounds t args :
  forall dst index,
    length dst = OBSERVED_DATA_MAX_SIZE ->
    (exists e, encode_args t dst index args = Raise e /\
               (e = ValueError \/ e = TypeError \/ e = OverflowError)) \/
    exists dst' next,
      encode_args t dst index args = Ok (dst', next) /\
      length dst' = OBSERVED_DATA_MAX_SIZE /\
      (index <= next <= index `max` OBSERVED_DATA_MAX_SIZE)%nat.
Proof.
  induction args as [| arg args IH]; intros dst index Hlen; simpl.
  - right. exists dst, index. repeat split; [assumption | lia | lia].
  - destruct (encode_in_bounds t dst index arg Hlen)
      as [(e & -> & He) | (dst1 & i1 & Henc)]; [left; eauto |].
    rewrite Henc. mstep.
    destruct (encode_frame _ _ _ _ _ _ Henc) as (Hi & Hl & _).
    destruct (IH dst1 i1) as [(e & -> & He) | (dst' & next & -> & Hlen' & Hnext)];
      [congruence | left; eauto |].
    right. exists dst', next. repeat split; [assumption | lia | lia].
Qed.

(** X2: a broadcast hands the driver one request, or is refused before any.
    For every argument list, [pb_module_ble_broadcast] either hands the
    driver exactly one start-broadcasting request, of 5 to 31 bytes, and
    leaves the table and the channel count alone, or raises ValueError,
    TypeError or OverflowError from the encoding before any request and
    leaves the world, the driver included, as it was.  It never reaches
    outside its buffer.  What the call returns once the request is made is
    up to the wait for the driver's task and is not part of the statement. *)
Theorem broadcast_request_or_refusal t self args w :
  (exists value,
     (pb_module_ble_broadcast t self args w).1 =
       mk_world (observed_data w) (num_observed_data w)
         (driver w ++ [pbdrv_bluetooth_start_broadcasting value]) /\
     (5 <= length value <= 31)%nat /\
     forall e, encode_args t zero_buffer 0 args <> Raise e) \/
  (exists e,
     pb_module_ble_broadcast t self args w = (w, Raise e) /\
     encode_args t zero_buffer 0 args = Raise e /\
     (e = ValueError \/ e = TypeError \/ e = OverflowError)).
Proof.
  unfold pb_module_ble_broadcast.
  destruct (encode_args_in_bounds t args zero_buffer 0 eq_refl)
    as [(e & -> & He) | (d & index & -> & Hlen & Hindex)].
  - right. exists e. split; [reflexivity |]. split; [reflexivity | exact He].
  - left. wstep. eexists. split; [reflexivity |]. split; [| discriminate].
    rewrite length_take. cbn [length app]. rewrite length_app. cbn [length].
    rewrite length_le_split, Hlen. unfold OBSERVED_DATA_MAX_SIZE in *. simpl in *. lia.
Qed.


Lemma length_record_bytes v : length (record_bytes v) = encoded_size v.
Proof. unfold record_bytes, encoded_size, payload_size. simpl. lia. Qed.

Lemma length_records args : length (records args) = total_encoded_size args.
Proof.
  induction args as [| v args IH]; [reflexivity |].
  change (records (v :: args)) with (record_bytes v ++ records args).
  change (total_encoded_size (v :: args))
    with (encoded_size v + total_encoded_size args)%nat.
  now rewrite length_app, length_record_bytes, IH.
Qed.

Lemma put_record_bytes dst index v :
  put_record dst index (record_type v) (record_payload v)
  = take index dst ++ record_bytes v ++ drop (index + encoded_size v) dst.
Proof.
  unfold put_record, record_bytes, encoded_size, payload_size. simpl.
  do 4 f_equal. lia.
Qed.

(** The loop over the arguments lays the records one after the other. *)
Lemma encode_args_records t args :
  forall dst index,
    Forall (fun v => encodable v = true) args ->
    length dst = OBSERVED_DATA_MAX_SIZE ->
    (index + total_encoded_size args <= OBSERVED_DATA_MAX_SIZE)%nat ->
    encode_args t dst index args =
      Ok (take index dst ++ records args ++ drop (index + total_encoded_size args) dst,
          (index + total_encoded_size args)%nat).
Proof.
  induction args as [| v args IH]; intros dst index Henc Hlen Hfit.
  - unfold total_encoded_size, records. simpl.
    rewrite Nat.add_0_r, take_drop. reflexivity.
  - inversion Henc as [| ? ? Hv Hargs]; subst.
    change (total_encoded_size (v :: args))
      with (encoded_size v + total_encoded_size args)%nat in *.
    change (records (v :: args)) with (record_bytes v ++ records args).
    change (encode_args t dst index (v :: args))
      with ('(dst, index) ← pb_module_ble_encode t dst index v;
            encode_args t dst index args).
    unfold encoded_size in *.
    rewrite encode_fits by (try assumption; lia). mstep.
    rewrite IH;
      [| assumption | rewrite length_put_record; unfold payload_size in *; lia | lia].
    rewrite put_record_bytes. unfold encoded_size.
    set (P := take index dst ++ record_bytes v).
    assert (HP : length P = (index + payload_size v + 1)%nat).
    { unfold P. rewrite length_app, length_take, length_record_bytes.
      unfold encoded_size. lia. }
    rewrite (app_assoc (take index dst)). fold P.
    rewrite take_app_length' by (symmetry; exact HP).
    replace (index + payload_size v + 1 + total_encoded_size args)%nat
      with (length P + total_encoded_size args)%nat by lia.
    rewrite drop_app_add'; [| reflexivity]. rewrite drop_drop.
    fold P in HP. rewrite HP. unfold P. rewrite <- !app_assoc.
    do 2 f_equal; [| lia]. do 4 f_equal. lia.
Qed.

(** X3: the advertising data.  When every value is encodable and the records
    take at most 26 bytes together, [pb_module_ble_broadcast] issues one
    start-broadcasting request and nothing else; its data are the length
    byte (records + 4, the number of bytes that follow it), 0xFF, the company
    identifier 0x0397 little-endian, the channel of the instance, and the
    records of the values in argument order. *)
Theorem broadcast_advertising_data t self args w :
  Forall (fun v => encodable v = true) args ->
  (total_encoded_size args <= OBSERVED_DATA_MAX_SIZE)%nat ->
  pb_module_ble_broadcast t self args w =
    (mk_world (observed_data w) (num_observed_data w)
       (driver w ++ [pbdrv_bluetooth_start_broadcasting
                       (advertising_data (broadcast_channel self) args)]),
     Ok mp_const_none) /\
  length (advertising_data (broadcast_channel self) args)
    = (total_encoded_size args + 5)%nat /\
  hd_error (advertising_data (broadcast_channel self) args)
    = Some (byte.of_Z (Z.of_nat (length (advertising_data (broadcast_channel self) args)) - 1)).
Proof.
  intros Henc Hfit. split; [| split].
  - unfold pb_module_ble_broadcast.
    rewrite encode_args_records by (try assumption; try reflexivity; simpl; lia).
    wstep. do 4 f_equal. unfold advertising_data. simpl.
    replace (total_encoded_size args + 5)%nat
      with (S (S (S (S (S (total_encoded_size args)))))) by lia.
    cbn [firstn]. change (byte.of_Z MFG_SPECIFIC) with Byte.xff.
    change (byte.of_Z LEGO_CID) with Byte.x97.
    change (byte.of_Z (LEGO_CID ≫ 8)) with Byte.x03.
    do 5 f_equal.
    rewrite take_app_length'; [reflexivity |].
    rewrite length_records. lia.
  - unfold advertising_data. rewrite length_app, length_records. simpl. lia.
  - unfold advertising_data. rewrite length_app, length_records. simpl.
    do 2 f_equal. lia.
Qed.

Lemma broadcast_advertising_data_witness :
  pb_module_ble_broadcast ILP32 (mk_BLE 2) [mp_const_true; mp_int 5] initial_world =
    (mk_world None 0
       [pbdrv_bluetooth_start_broadcasting
          (advertising_data 2 [mp_const_true; mp_int 5])],
     Ok mp_const_none).
Proof.
  apply (broadcast_advertising_data ILP32 (mk_BLE 2) [mp_const_true; mp_int 5] initial_world).
  - repeat constructor.
  - vm_compute. lia.
Defined.

(** ** What [pb_module_ble_decode] returns *)







(** ** From a broadcast to an observation *)

Lemma put_record_same pre post v :
  put_record (pre ++ record_bytes v ++ post) (length pre)
    (record_type v) (record_payload v)
  = pre ++ record_bytes v ++ post.
Proof.
  rewrite put_record_bytes, take_app_length. do 2 f_equal.
  rewrite drop_app_add'; [| reflexivity].
  rewrite <- length_record_bytes. apply drop_app_length.
Qed.

Lemma length_args_le_total args : (length args <= total_encoded_size args)%nat.
Proof.
  induction args as [| v args IH]; [simpl; lia |].
  change (total_encoded_size (v :: args))
    with (encoded_size v + total_encoded_size args)%nat.
  unfold encoded_size. simpl. lia.
Qed.

(** The read loop over a buffer that holds the records of [args] from the
    cursor on, with the size at their end, returns [args]. *)
Lemma observe_loop_records rssi args :
  forall n pre post,
    Forall (fun v => encodable v = true) args ->
    length (pre ++ records args ++ post) = OBSERVED_DATA_MAX_SIZE ->
    (length args <= n)%nat ->
    (observe_loop n
       (mk_observed_data rssi (Z.of_nat (length pre + total_encoded_size args))
          (pre ++ records args ++ post))
       (length pre)).2
    = Ok (args, (length pre + total_encoded_size args)%nat).
Proof.
  induction args as [| v args IH]; intros n pre post Henc Hlen Hn.
  - change (total_encoded_size []) with 0%nat. rewrite Nat.add_0_r.
    destruct n as [| n]; [reflexivity |].
    cbn [observe_loop od_size].
    destruct (Z.leb_spec (Z.of_nat (length pre)) (Z.of_nat (length pre))); [reflexivity | lia].
  - inversion Henc as [| ? ? Hv Hargs]; subst.
    destruct n as [| n]; [simpl in Hn; lia |].
    change (total_encoded_size (v :: args))
      with (encoded_size v + total_encoded_size args)%nat in *.
    change (records (v :: args)) with (record_bytes v ++ records args) in *.
    rewrite <- (app_assoc (record_bytes v)) in *.
    pose proof (length_record_bytes v) as Hrec.
    assert (Hroom : (length pre + payload_size v + 1 <= OBSERVED_DATA_MAX_SIZE)%nat).
    { rewrite !length_app in Hlen. unfold encoded_size in Hrec. lia. }
    cbn [observe_loop od_size].
    destruct (Z.leb_spec (Z.of_nat (length pre + (encoded_size v + total_encoded_size args)))
                (Z.of_nat (length pre))) as [Hstop |]; [unfold encoded_size in Hstop; lia |].
    rewrite <- (put_record_same pre (records args ++ post) v) at 1.
    rewrite decode_put_record; [| exact Hv | exact Hroom | exact Hlen].
    specialize (IH n (pre ++ record_bytes v) post Hargs).
    rewrite <- !app_assoc in IH.
    rewrite (length_app pre (record_bytes v)), Hrec in IH. unfold encoded_size in *.
    replace (length pre + (payload_size v + 1) + total_encoded_size args)%nat
      with (length pre + (payload_size v + 1 + total_encoded_size args))%nat in IH by lia.
    replace (length pre + payload_size v + 1)%nat
      with (length pre + (payload_size v + 1))%nat by lia.
    destruct (observe_loop n _ _) as [steps r]. cbn [snd] in *.
    rewrite IH; [reflexivity | exact Hlen | simpl in Hn; lia].
Qed.

(** X5: what is broadcast is what is observed.  A hub broadcasts encodable
    values whose records fit the 26 bytes on its channel [c].  The advertising
    data reach the callback of a receiver as a non-connectable undirected
    advertisement, in a buffer of at least 31 bytes, with any rssi; the
    receiver has a slot of full capacity for channel [c], below its channel
    count.  Then observe on channel [c] returns that rssi and exactly the
    values, in order, after one start-observing request; the pointer sizes
    of sender and receiver need not agree. *)
Theorem broadcast_observe_roundtrip ts tr self args sender tail rssi w table old :
  Forall (fun v => encodable v = true) args ->
  (total_encoded_size args <= OBSERVED_DATA_MAX_SIZE)%nat ->
  (OBSERVED_DATA_MAX_SIZE <= total_encoded_size args + length tail)%nat ->
  0 <= broadcast_channel self < num_observed_data w ->
  num_observed_data w <= 256 ->
  observed_data w = Some table ->
  table !! Z.to_nat (broadcast_channel self) = Some old ->
  length (od_data old) = OBSERVED_DATA_MAX_SIZE ->
  let adv := advertising_data (broadcast_channel self) args in
  let received :=
    handle_observe_event PBDRV_BLUETOOTH_AD_TYPE_ADV_NONCONN_IND
      (adv ++ tail) (Z.of_nat (length adv)) rssi w in
  driver (pb_module_ble_broadcast ts self args sender).1
    = driver sender ++ [pbdrv_bluetooth_start_broadcasting adv] /\
  received.2 = Ok tt /\
  pb_module_ble_observe tr (mp_int (broadcast_channel self)) received.1 =
    (mk_world (observed_data received.1) (num_observed_data w)
       (driver w ++ [pbdrv_bluetooth_start_observing]),
     Ok (mp_tuple [mp_int rssi; mp_tuple args])).
Proof.
  intros Henc Hfit Htail Hc Hnum Htable Hold Hcap adv received.
  set (c := broadcast_channel self) in *.
  set (total := total_encoded_size args) in *.
  split.
  { destruct (broadcast_advertising_data ts self args sender Henc Hfit) as [-> _].
    reflexivity. }
  set (payload := take OBSERVED_DATA_MAX_SIZE (records args ++ tail)).
  set (rest := drop OBSERVED_DATA_MAX_SIZE (records args ++ tail)).
  assert (Hpayload : length payload = OBSERVED_DATA_MAX_SIZE).
  { unfold payload. rewrite length_take, length_app, length_records. fold total. lia. }
  assert (Hb0 : byte.unsigned (byte.of_Z (Z.of_nat total + 4)) = Z.of_nat total + 4).
  { rewrite byte.unsigned_of_Z. unfold byte.wrap. apply Z.mod_small.
    unfold OBSERVED_DATA_MAX_SIZE in Hfit. simpl in Hfit. lia. }
  assert (Hb4 : byte.unsigned (byte.of_Z c) = c).
  { rewrite byte.unsigned_of_Z. unfold byte.wrap. apply Z.mod_small. lia. }
  assert (Hadv : adv ++ tail =
                 byte.of_Z (Z.of_nat total + 4) :: Byte.xff :: Byte.x97 :: Byte.x03
                   :: byte.of_Z c :: payload ++ rest).
  { unfold adv, advertising_data, payload, rest. fold total c.
    rewrite take_drop. reflexivity. }
  assert (Hstored :
    received =
      (mk_world
         (Some (<[Z.to_nat c := {| od_rssi := rssi; od_size := Z.of_nat total;
                                    od_data := payload |}]> table))
         (num_observed_data w) (driver w),
       Ok tt)).
  { unfold received. rewrite Hadv.
    rewrite (handle_observe_event_stored _ _ _ _ _ payload rest Hpayload
               w _ _ rssi table old); rewrite ?Hb4; try assumption.
    - rewrite Hb0. do 4 f_equal. f_equal.
      replace (Z.of_nat total + 4 - 4) with (Z.of_nat total) by lia.
      apply Z.mod_small. unfold OBSERVED_DATA_MAX_SIZE in Hfit. simpl in Hfit. lia.
    - unfold taken_up. rewrite Hb4. repeat split; try reflexivity; try lia.
      unfold adv, advertising_data. rewrite length_app. simpl. lia. }
  rewrite Hstored. cbn [fst snd]. split; [reflexivity |].
  unfold pb_module_ble_observe.
  rewrite mp_obj_get_int_truncated_fits by (apply fits_mp_int_channel; lia).
  wstep.
  destruct (Z.ltb_spec c 0), (Z.leb_spec (num_observed_data w) c); try lia.
  cbn [orb]. wstep.
  rewrite list_lookup_insert_eq by (now apply lookup_lt_Some with old).
  assert (Hbuf : payload = [] ++ records args ++ take (OBSERVED_DATA_MAX_SIZE - total) tail).
  { unfold payload. simpl. rewrite take_app, length_records. fold total.
    rewrite take_ge by (rewrite length_records; fold total; lia). reflexivity. }
  pose proof (observe_loop_records rssi args OBSERVED_DATA_MAX_SIZE []
                (take (OBSERVED_DATA_MAX_SIZE - total) tail) Henc) as Hloop.
  rewrite <- Hbuf in Hloop. cbn [length Nat.add] in Hloop. fold total in Hloop.
  rewrite Hloop; [reflexivity | exact Hpayload |].
  pose proof (length_args_le_total args) as Hcount. fold total in Hcount. lia.
Qed.

Lemma broadcast_observe_roundtrip_witness :
  let w := mk_world (Some (replicate 4 (mk_observed_data 0 0 zero_buffer))) 4 [] in
  let args := [mp_str [Byte.x68; Byte.x69]; mp_int (-70000); mp_const_none] in
  let adv := advertising_data 2 args in
  let received :=
    handle_observe_event PBDRV_BLUETOOTH_AD_TYPE_ADV_NONCONN_IND
      (adv ++ replicate 17 Byte.xaa) (Z.of_nat (length adv)) (-55) w in
  driver (pb_module_ble_broadcast ILP32 (mk_BLE 2) args initial_world).1
    = driver initial_world ++ [pbdrv_bluetooth_start_broadcasting adv] /\
  received.2 = Ok tt /\
  pb_module_ble_observe LP64 (mp_int 2) received.1 =
    (mk_world (observed_data received.1) 4 [pbdrv_bluetooth_start_observing],
     Ok (mp_tuple [mp_int (-55); mp_tuple args])).
Proof.
  intros w args.
  apply (broadcast_observe_roundtrip ILP32 LP64 (mk_BLE 2) args initial_world
           (replicate 17 Byte.xaa) (-55) w
           (replicate 4 (mk_observed_data 0 0 zero_buffer))
           (mk_observed_data 0 0 zero_buffer)).
  - repeat constructor.
  - vm_compute. lia.
  - vm_compute. lia.
  - simpl. lia.
  - simpl. lia.
  - reflexivity.
  - reflexivity.
  - reflexivity.
Defined.

(** ** More on the advertisement callback *)

(** X6: the callback is silent.  Whatever it is handed, in whatever world,
    [handle_observe_event] raises no exception; it issues no driver request,
    leaves the channel count alone, and the table keeps its number of
    slots. *)
Theorem handle_observe_event_silent event_type data length rssi w :
  let r := handle_observe_event event_type data length rssi w in
  (forall e, r.2 <> Raise e) /\
  driver r.1 = driver w /\
  num_observed_data r.1 = num_observed_data w /\
  List.length <$> observed_data r.1 = List.length <$> observed_data w.
Proof.
  unfold handle_observe_event.
  destruct (ad_type_eqb event_type PBDRV_BLUETOOTH_AD_TYPE_ADV_NONCONN_IND && (5 <=? length));
    [| now repeat split].
  unfold pbio_get_uint16_le, load, load_bytes, memcpy. wstep.
  destruct (data !! 1%nat); wstep; [| now repeat split].
  destruct (_ =? MFG_SPECIFIC); [| now repeat split].
  destruct (_ <=? _)%nat; wstep; [| now repeat split].
  destruct (_ =? LEGO_CID); [| now repeat split].
  destruct (data !! 4%nat); wstep; [| now repeat split].
  destruct (num_observed_data w <=? _); [now repeat split |].
  destruct (observed_data w) as [table |] eqn:Htable; wstep;
    [| repeat split; rewrite ?Htable; easy].
  destruct (table !! _); wstep; [| repeat split; rewrite ?Htable; easy].
  destruct (data !! 0%nat); wstep; [| repeat split; rewrite ?Htable; easy].
  destruct (_ <=? _)%nat; wstep; [| repeat split; rewrite ?Htable; easy].
  destruct (_ <=? _)%nat; wstep; [| repeat split; rewrite ?Htable; easy].
  rewrite Htable. wstep. repeat split; try discriminate.
  simpl. now rewrite length_insert.
Qed.


(** A successful construction leaves the table in this shape. *)
Lemma pb_type_BLE_new_table_constructed t broadcast_channel_in last_observe_channel_in
    w w' self :
  pb_type_BLE_new t broadcast_channel_in last_observe_channel_in w = (w', Ok self) ->
  table_constructed w'.
Proof.
  unfold pb_type_BLE_new. wstep.
  destruct (bool_decide (observed_data w = None)); unfold c_assert; wstep;
    [| discriminate].
  destruct (mp_obj_get_int t broadcast_channel_in) as [b | |]; wstep; try discriminate.
  destruct ((b <? 0) || (MAX_CHANNEL_NUMBER <? b)); wstep; [discriminate |].
  destruct (mp_obj_get_int t last_observe_channel_in) as [m | |]; wstep; try discriminate.
  destruct ((m <? 0) || (MAX_CHANNEL_NUMBER <? m)) eqn:Hm; wstep; [discriminate |].
  intros [= <- _].
  apply orb_false_iff in Hm as [Hm0 Hm15].
  apply Z.ltb_ge in Hm0. apply Z.ltb_ge in Hm15. unfold MAX_CHANNEL_NUMBER in Hm15.
  exists (mp_obj_malloc_var (Z.to_nat m)). split; [reflexivity |].
  cbn [num_observed_data]. unfold mp_obj_malloc_var. rewrite length_replicate.
  split; [rewrite Z.mod_small by lia; lia |].
  apply Forall_replicate. reflexivity.
Qed.










(** X10: after teardown the callback drops everything.  In the world
    [pb_type_BLE_cleanup] leaves (no table, channel count 0), a late
    advertisement of any kind in a buffer of at least 5 bytes changes nothing
    and reaches for no table: the table pointer is not dereferenced. *)
Theorem handle_observe_event_after_cleanup event_type data length rssi w :
  (5 <= List.length data)%nat ->
  let torn_down := (pb_type_BLE_cleanup w).1 in
  handle_observe_event event_type data length rssi torn_down = (torn_down, Ok tt).
Proof.
  intros Hdata torn_down.
  destruct data as [| b0 [| b1 [| b2 [| b3 [| b4 rest]]]]]; simpl in Hdata; try lia.
  unfold handle_observe_event.
  destruct (ad_type_eqb event_type PBDRV_BLUETOOTH_AD_TYPE_ADV_NONCONN_IND && (5 <=? length));
    [| reflexivity].
  change (load (b0 :: b1 :: b2 :: b3 :: b4 :: rest) 1) with (@Ok byte b1).
  change (load (b0 :: b1 :: b2 :: b3 :: b4 :: rest) 4) with (@Ok byte b4).
  change (pbio_get_uint16_le (b0 :: b1 :: b2 :: b3 :: b4 :: rest) 2)
    with (Ok (le_combine [b2; b3])).
  wstep.
  destruct (byte.unsigned b1 =? MFG_SPECIFIC); [| reflexivity].
  destruct (le_combine [b2; b3] =? LEGO_CID); [| reflexivity].
  unfold torn_down, pb_type_BLE_cleanup. wstep.
  pose proof (byte.unsigned_range b4).
  destruct (Z.leb_spec 0 (byte.unsigned b4)); [reflexivity | lia].
Qed.

Lemma handle_observe_event_after_cleanup_witness :
  let torn_down :=
    (pb_type_BLE_cleanup
       (pb_type_BLE_new ILP32 (mp_int 0) (mp_int 3) initial_world).1).1 in
  handle_observe_event PBDRV_BLUETOOTH_AD_TYPE_ADV_NONCONN_IND
    stale_advertisement 8 (-40) torn_down = (torn_down, Ok tt).
Proof.
  apply (handle_observe_event_after_cleanup PBDRV_BLUETOOTH_AD_TYPE_ADV_NONCONN_IND
           stale_advertisement 8 (-40)
           (pb_type_BLE_new ILP32 (mp_int 0) (mp_int 3) initial_world).1).
  vm_compute. lia.
Defined.

(** ** More on [pb_module_ble_observe] and the life cycle *)

(** X11: observe only reads.  Whatever the argument and the outcome,
    [pb_module_ble_observe] leaves the table and the channel count as they
    were; the driver is asked to start observing once when the channel passed
    the range test, and not at all when the call was refused. *)
Theorem observe_reads_only t channel_in w :
  let r := pb_module_ble_observe t channel_in w in
  observed_data r.1 = observed_data w /\
  num_observed_data r.1 = num_observed_data w /\
  ((driver r.1 = driver w /\ exists e, r.2 = Raise e) \/
   (driver r.1 = driver w ++ [pbdrv_bluetooth_start_observing] /\
    r.2 <> Raise InvalidArg /\ r.2 <> Raise TypeError)).
Proof.
  unfold pb_module_ble_observe. wstep.
  assert (Hconv : (exists channel, mp_obj_get_int_truncated t channel_in = Ok channel) \/
                  (exists e, mp_obj_get_int_truncated t channel_in = Raise e)).
  { destruct channel_in; simpl; eauto. }
  destruct Hconv as [[channel ->] | [e ->]]; [| repeat split; left; eauto].
  destruct ((channel <? 0) || (num_observed_data w <=? channel)); wstep;
    [repeat split; left; eauto |].
  destruct (observed_data w) as [table |] eqn:Htable; wstep;
    [| repeat split; rewrite ?Htable; try reflexivity; right; repeat split; discriminate].
  destruct (table !! Z.to_nat channel) as [ch_data |]; wstep;
    [| repeat split; rewrite ?Htable; try reflexivity; right; repeat split; discriminate].
  pose proof (observe_loop_steps OBSERVED_DATA_MAX_SIZE ch_data 0) as (_ & Hall & _).
  destruct (observe_loop OBSERVED_DATA_MAX_SIZE ch_data 0) as [steps r] eqn:Hloop.
  cbn [fst snd] in *.
  assert (Hr : r <> Raise InvalidArg /\ r <> Raise TypeError).
  { clear Hall. revert steps r Hloop.
    generalize 0%nat. generalize OBSERVED_DATA_MAX_SIZE.
    induction n as [| n IH]; intros index steps r; simpl.
    - intros [= _ <-]. split; discriminate.
    - destruct (od_size ch_data <=? Z.of_nat index); [intros [= _ <-]; split; discriminate |].
      destruct (pb_module_ble_decode ch_data index) as [[item index'] | e | c] eqn:Hdec.
      + destruct (observe_loop n ch_data index') as [steps' r'] eqn:Hrec.
        intros [= _ <-]. destruct (IH index' steps' r' Hrec) as [H1 H2].
        destruct r' as [[? ?] | |]; simpl; split; congruence.
      + intros [= _ <-].
        assert (e = RuntimeError).
        { revert Hdec. unfold pb_module_ble_decode, pbio_get_uint16_le,
            pbio_get_uint32_le, load, load_bytes, c_assert.
          repeat (match goal with
                  | |- context [match ?x with _ => _ end] => destruct x
                  end; mstep; try discriminate);
          congruence. }
        subst. split; discriminate.
      + intros [= _ <-]. split; discriminate. }
  destruct r as [[items last] | e | c]; wstep;
    repeat split; rewrite ?Htable; try reflexivity; right; repeat split;
    try discriminate; try (destruct Hr; congruence).
Qed.

(** X12: an empty slot reads as no values.  For a channel in range whose slot
    has size 0, whatever its buffer holds, observe asks the driver to start
    observing and returns the slot's rssi with the empty tuple: no byte is
    decoded. *)
Theorem observe_empty_slot t w z table slot :
  fits_mp_int t z = true ->
  0 <= z < num_observed_data w ->
  observed_data w = Some table ->
  table !! Z.to_nat z = Some slot ->
  od_size slot = 0 ->
  pb_module_ble_observe t (mp_int z) w =
    (mk_world (observed_data w) (num_observed_data w)
       (driver w ++ [pbdrv_bluetooth_start_observing]),
     Ok (mp_tuple [mp_int (od_rssi slot); mp_tuple []])) /\
  (observe_loop OBSERVED_DATA_MAX_SIZE slot 0).1 = [].
Proof.
  intros Hfit Hz Htable Hslot Hsize.
  assert (Hloop : observe_loop OBSERVED_DATA_MAX_SIZE slot 0 = ([], Ok ([], 0%nat))).
  { unfold OBSERVED_DATA_MAX_SIZE. cbn [Nat.sub observe_loop]. now rewrite Hsize. }
  split; [| now rewrite Hloop].
  unfold pb_module_ble_observe.
  rewrite mp_obj_get_int_truncated_fits by exact Hfit. wstep.
  destruct (Z.ltb_spec z 0), (Z.leb_spec (num_observed_data w) z); try lia.
  cbn [orb]. wstep. rewrite Htable. wstep. rewrite Hslot. wstep.
  rewrite Hloop. wstep. reflexivity.
Qed.

Lemma observe_empty_slot_witness :
  let w := (pb_type_BLE_new LP64 (mp_int 0) (mp_int 3) initial_world).1 in
  pb_module_ble_observe LP64 (mp_int 1) w =
    (mk_world (observed_data w) (num_observed_data w)
       (driver w ++ [pbdrv_bluetooth_start_observing]),
     Ok (mp_tuple [mp_int 0; mp_tuple []])).
Proof.
  intros w.
  apply (observe_empty_slot LP64 w 1 (replicate 3 (mk_observed_data 0 0 zero_buffer))
           (mk_observed_data 0 0 zero_buffer)); try reflexivity.
  split; [discriminate | reflexivity].
Defined.

(** X13: one instance at a time.  While an instance is live, a second call of
    [pb_type_BLE_new] fails its assertion before it looks at its arguments
    and changes nothing; after [pb_type_BLE_cleanup] a construction with
    valid channels succeeds again, in any world, with the new channel
    count. *)
Theorem construct_once t w b_in m_in b m :
  (forall table,
     observed_data w = Some table ->
     pb_type_BLE_new t b_in m_in w = (w, Trap AssertionFailed)) /\
  (0 <= b <= MAX_CHANNEL_NUMBER ->
   0 <= m <= MAX_CHANNEL_NUMBER ->
   let again := pb_type_BLE_new t (mp_int b) (mp_int m) (pb_type_BLE_cleanup w).1 in
   again.2 = Ok (mk_BLE b) /\
   num_observed_data again.1 = m + 1 /\
   driver again.1 = driver w ++ [pbdrv_bluetooth_stop_broadcasting;
                                 pbdrv_bluetooth_stop_observing]).
Proof.
  split.
  - intros table Htable. unfold pb_type_BLE_new. wstep. rewrite Htable.
    rewrite bool_decide_eq_false_2 by discriminate. reflexivity.
  - intros Hb Hm again. unfold again.
    rewrite pb_type_BLE_new_ok by (try assumption; reflexivity).
    cbn [fst snd num_observed_data driver]. repeat split.
    unfold pb_type_BLE_cleanup. wstep. now rewrite <- app_assoc.
Qed.

Lemma construct_once_witness :
  let w := (pb_type_BLE_new ILP32 (mp_int 0) (mp_int 3) initial_world).1 in
  pb_type_BLE_new ILP32 (mp_int 1) (mp_int 1) w = (w, Trap AssertionFailed) /\
  (pb_type_BLE_new ILP32 (mp_int 1) (mp_int 1) (pb_type_BLE_cleanup w).1).2
    = Ok (mk_BLE 1).
Proof.
  intros w. split.
  - apply (proj1 (construct_once ILP32 w (mp_int 1) (mp_int 1) 1 1)
             (replicate 3 (mk_observed_data 0 0 zero_buffer))).
    reflexivity.
  - apply (proj2 (construct_once ILP32 w (mp_int 1) (mp_int 1) 1 1));
      split; discriminate.
Defined.

(** * Properties of the battery driver *)

Lemma c_int_in_range z : INT32_MIN <= z <= INT32_MAX -> c_int z = Some z.
Proof.
  intros Hz. unfold c_int.
  destruct (Z.leb_spec INT32_MIN z), (Z.leb_spec z INT32_MAX); try lia. reflexivity.
Qed.

Lemma int_div_nonneg a b :
  0 <= a <= INT32_MAX -> 0 < b -> int_div a b = Some (a / b).
Proof.
  intros Ha Hb. unfold int_div.
  destruct (Z.eqb_spec b 0); [lia |].
  rewrite Z.quot_div_nonneg by lia.
  apply c_int_in_range. unfold INT32_MIN.
  split; [pose proof (Z.div_pos a b); lia |].
  pose proof (Z.div_le_upper_bound a b a). nia.
Qed.

(** The current for a raw sample, when nothing wraps. *)
Lemma current_now_value cfg adc value raw :
  adc (PBDRV_CONFIG_BATTERY_ADC_CURRENT_CH cfg) = (PBIO_SUCCESS, raw) ->
  0 < PBDRV_CONFIG_BATTERY_ADC_CURRENT_RAW_MAX cfg ->
  0 < PBDRV_CONFIG_BATTERY_ADC_CURRENT_SCALED_MAX cfg < 2 ^ 16 ->
  PBDRV_CONFIG_BATTERY_ADC_CURRENT_RAW_MAX cfg
    * PBDRV_CONFIG_BATTERY_ADC_CURRENT_SCALED_MAX cfg <= INT32_MAX ->
  0 <= raw + PBDRV_CONFIG_BATTERY_ADC_CURRENT_RAW_OFFSET cfg
    <= PBDRV_CONFIG_BATTERY_ADC_CURRENT_RAW_MAX cfg ->
  pbdrv_battery_get_current_now cfg adc value =
    Some (PBIO_SUCCESS,
          (raw + PBDRV_CONFIG_BATTERY_ADC_CURRENT_RAW_OFFSET cfg)
            * PBDRV_CONFIG_BATTERY_ADC_CURRENT_SCALED_MAX cfg
            / PBDRV_CONFIG_BATTERY_ADC_CURRENT_RAW_MAX cfg) /\
  0 <= (raw + PBDRV_CONFIG_BATTERY_ADC_CURRENT_RAW_OFFSET cfg)
         * PBDRV_CONFIG_BATTERY_ADC_CURRENT_SCALED_MAX cfg
         / PBDRV_CONFIG_BATTERY_ADC_CURRENT_RAW_MAX cfg
    <= PBDRV_CONFIG_BATTERY_ADC_CURRENT_SCALED_MAX cfg.
Proof.
  intros Hadc Hmax Hscaled Hfits Hraw.
  set (off := PBDRV_CONFIG_BATTERY_ADC_CURRENT_RAW_OFFSET cfg) in *.
  set (S := PBDRV_CONFIG_BATTERY_ADC_CURRENT_SCALED_MAX cfg) in *.
  set (R := PBDRV_CONFIG_BATTERY_ADC_CURRENT_RAW_MAX cfg) in *.
  assert (Hprod : 0 <= (raw + off) * S <= R * S) by nia.
  assert (Hq : 0 <= (raw + off) * S / R <= S).
  { split; [apply Z.div_pos; lia |].
    apply Z.div_le_upper_bound; lia. }
  split; [| exact Hq].
  unfold pbdrv_battery_get_current_now. rewrite Hadc. fold off S R.
  unfold int_add, int_mul.
  rewrite c_int_in_range by (unfold INT32_MIN, INT32_MAX in *; nia). cbn [mbind option_bind].
  rewrite c_int_in_range by (unfold INT32_MIN, INT32_MAX in *; nia). cbn [mbind option_bind].
  rewrite int_div_nonneg by lia. cbn [mbind option_bind].
  unfold to_uint16. rewrite Z.mod_small by lia. reflexivity.
Qed.

(** X14: the current stays within its scale.  With a configuration in which
    the largest product fits an [int] (RAW_MAX * SCALED_MAX at most INT_MAX,
    SCALED_MAX below 2^16), a successful sample whose offset value lies
    between 0 and RAW_MAX is reported as a current between 0 and SCALED_MAX,
    namely (raw + OFFSET) * SCALED_MAX / RAW_MAX rounded down, without wrap;
    and a larger sample never gives a smaller current. *)
Theorem battery_current_in_scale cfg adc1 adc2 value raw1 raw2 :
  0 < PBDRV_CONFIG_BATTERY_ADC_CURRENT_RAW_MAX cfg ->
  0 < PBDRV_CONFIG_BATTERY_ADC_CURRENT_SCALED_MAX cfg < 2 ^ 16 ->
  PBDRV_CONFIG_BATTERY_ADC_CURRENT_RAW_MAX cfg
    * PBDRV_CONFIG_BATTERY_ADC_CURRENT_SCALED_MAX cfg <= INT32_MAX ->
  adc1 (PBDRV_CONFIG_BATTERY_ADC_CURRENT_CH cfg) = (PBIO_SUCCESS, raw1) ->
  adc2 (PBDRV_CONFIG_BATTERY_ADC_CURRENT_CH cfg) = (PBIO_SUCCESS, raw2) ->
  0 <= raw1 + PBDRV_CONFIG_BATTERY_ADC_CURRENT_RAW_OFFSET cfg ->
  raw1 <= raw2 ->
  raw2 + PBDRV_CONFIG_BATTERY_ADC_CURRENT_RAW_OFFSET cfg
    <= PBDRV_CONFIG_BATTERY_ADC_CURRENT_RAW_MAX cfg ->
  exists c1 c2,
    pbdrv_battery_get_current_now cfg adc1 value = Some (PBIO_SUCCESS, c1) /\
    pbdrv_battery_get_current_now cfg adc2 value = Some (PBIO_SUCCESS, c2) /\
    c1 = (raw1 + PBDRV_CONFIG_BATTERY_ADC_CURRENT_RAW_OFFSET cfg)
           * PBDRV_CONFIG_BATTERY_ADC_CURRENT_SCALED_MAX cfg
           / PBDRV_CONFIG_BATTERY_ADC_CURRENT_RAW_MAX cfg /\
    0 <= c1 <= c2 /\
    c2 <= PBDRV_CONFIG_BATTERY_ADC_CURRENT_SCALED_MAX cfg.
Proof.
  intros Hmax Hscaled Hfits Hadc1 Hadc2 Hlow Hle Hhigh.
  destruct (current_now_value cfg adc1 value raw1 Hadc1 Hmax Hscaled Hfits ltac:(lia))
    as [Hc1 Hr1].
  destruct (current_now_value cfg adc2 value raw2 Hadc2 Hmax Hscaled Hfits ltac:(lia))
    as [Hc2 Hr2].
  eexists. eexists. split; [exact Hc1 |]. split; [exact Hc2 |].
  split; [reflexivity |]. split; [| lia]. split; [lia |].
  apply Z.div_le_mono; [lia | nia].
Qed.

Lemma battery_current_in_scale_witness :
  exists c1 c2,
    pbdrv_battery_get_current_now sample_battery_config (sample_adc 3000 100) 0
      = Some (PBIO_SUCCESS, c1) /\
    pbdrv_battery_get_current_now sample_battery_config (sample_adc 3000 4000) 0
      = Some (PBIO_SUCCESS, c2) /\
    c1 = (100 + 0) * 7300 / 4096 /\
    0 <= c1 <= c2 /\
    c2 <= 7300.
Proof.
  apply (battery_current_in_scale sample_battery_config
           (sample_adc 3000 100) (sample_adc 3000 4000) 0 100 4000);
    try reflexivity; simpl; unfold INT32_MAX; lia.
Defined.

(** X15: errors of the ADC pass through.  [pbdrv_battery_get_current_now]
    returns the error of the current channel; [pbdrv_battery_get_voltage_now]
    returns the error of the voltage channel, which it reads first, and
    otherwise the error of the current channel.  In each of these cases the
    caller's value is left as it was, and no arithmetic is done. *)
Theorem battery_errors_pass_through cfg adc current value err_v raw_v err_c raw_c :
  adc (PBDRV_CONFIG_BATTERY_ADC_VOLTAGE_CH cfg) = (err_v, raw_v) ->
  adc (PBDRV_CONFIG_BATTERY_ADC_CURRENT_CH cfg) = (err_c, raw_c) ->
  (err_c <> PBIO_SUCCESS ->
   pbdrv_battery_get_current_now cfg adc value = Some (err_c, value)) /\
  (err_v <> PBIO_SUCCESS ->
   pbdrv_battery_get_voltage_now cfg adc current value = Some (err_v, value)) /\
  (err_v = PBIO_SUCCESS -> err_c <> PBIO_SUCCESS ->
   pbdrv_battery_get_voltage_now cfg adc current value = Some (err_c, value)).
Proof.
  intros Hv Hc.
  assert (Hcur : forall v, err_c <> PBIO_SUCCESS ->
            pbdrv_battery_get_current_now cfg adc v = Some (err_c, v)).
  { intros v Herr. unfold pbdrv_battery_get_current_now.
    rewrite Hc. destruct err_c; congruence. }
  split; [apply Hcur |]. split.
  - intros Herr. unfold pbdrv_battery_get_voltage_now.
    rewrite Hv. destruct err_v; congruence.
  - intros -> Herr. unfold pbdrv_battery_get_voltage_now.
    rewrite Hv, (Hcur current Herr). cbn [mbind option_bind].
    destruct err_c; congruence.
Qed.

Lemma battery_errors_pass_through_witness :
  pbdrv_battery_get_voltage_now sample_battery_config
    (fun ch => if ch =? 11 then (PBIO_SUCCESS, 3000) else (PBIO_ERROR_AGAIN, 0)) 7 42
  = Some (PBIO_ERROR_AGAIN, 42).
Proof.
  apply (battery_errors_pass_through sample_battery_config
           (fun ch => if ch =? 11 then (PBIO_SUCCESS, 3000) else (PBIO_ERROR_AGAIN, 0))
           7 42 PBIO_SUCCESS 3000 PBIO_ERROR_AGAIN 0 eq_refl eq_refl);
    [reflexivity | discriminate].
Defined.

(** X16: the voltage is the scaled sample plus the correction for the current.
    With a configuration in which nothing overflows and the largest result
    fits 16 bits, successful samples in range give
    raw * V_SCALED_MAX / V_RAW_MAX + current * CORRECTION / 16, where current
    is what [pbdrv_battery_get_current_now] reports; the result is never
    below the scaled sample and exceeds it by at most
    C_SCALED_MAX * CORRECTION / 16. *)
Theorem battery_voltage_corrected cfg adc current value raw_v raw_c :
  0 < PBDRV_CONFIG_BATTERY_ADC_CURRENT_RAW_MAX cfg ->
  0 < PBDRV_CONFIG_BATTERY_ADC_CURRENT_SCALED_MAX cfg < 2 ^ 16 ->
  PBDRV_CONFIG_BATTERY_ADC_CURRENT_RAW_MAX cfg
    * PBDRV_CONFIG_BATTERY_ADC_CURRENT_SCALED_MAX cfg <= INT32_MAX ->
  0 < PBDRV_CONFIG_BATTERY_ADC_VOLTAGE_RAW_MAX cfg ->
  0 <= PBDRV_CONFIG_BATTERY_ADC_VOLTAGE_SCALED_MAX cfg ->
  PBDRV_CONFIG_BATTERY_ADC_VOLTAGE_RAW_MAX cfg
    * PBDRV_CONFIG_BATTERY_ADC_VOLTAGE_SCALED_MAX cfg <= INT32_MAX ->
  0 <= PBDRV_CONFIG_BATTERY_ADC_CURRENT_CORRECTION cfg ->
  PBDRV_CONFIG_BATTERY_ADC_VOLTAGE_SCALED_MAX cfg
    + PBDRV_CONFIG_BATTERY_ADC_CURRENT_SCALED_MAX cfg
      * PBDRV_CONFIG_BATTERY_ADC_CURRENT_CORRECTION cfg / 16 < 2 ^ 16 ->
  adc (PBDRV_CONFIG_BATTERY_ADC_VOLTAGE_CH cfg) = (PBIO_SUCCESS, raw_v) ->
  adc (PBDRV_CONFIG_BATTERY_ADC_CURRENT_CH cfg) = (PBIO_SUCCESS, raw_c) ->
  0 <= raw_v <= PBDRV_CONFIG_BATTERY_ADC_VOLTAGE_RAW_MAX cfg ->
  0 <= raw_c + PBDRV_CONFIG_BATTERY_ADC_CURRENT_RAW_OFFSET cfg
    <= PBDRV_CONFIG_BATTERY_ADC_CURRENT_RAW_MAX cfg ->
  exists amps,
    pbdrv_battery_get_current_now cfg adc current = Some (PBIO_SUCCESS, amps) /\
    let scaled := raw_v * PBDRV_CONFIG_BATTERY_ADC_VOLTAGE_SCALED_MAX cfg
                  / PBDRV_CONFIG_BATTERY_ADC_VOLTAGE_RAW_MAX cfg in
    pbdrv_battery_get_voltage_now cfg adc current value =
      Some (PBIO_SUCCESS,
            scaled + amps * PBDRV_CONFIG_BATTERY_ADC_CURRENT_CORRECTION cfg / 16) /\
    scaled <= scaled + amps * PBDRV_CONFIG_BATTERY_ADC_CURRENT_CORRECTION cfg / 16
           <= scaled + PBDRV_CONFIG_BATTERY_ADC_CURRENT_SCALED_MAX cfg
                       * PBDRV_CONFIG_BATTERY_ADC_CURRENT_CORRECTION cfg / 16.
Proof.
  intros HcR HcS Hcfit HvR HvS Hvfit Hcc Hbound Hv Hc Hrv Hrc.
  destruct (current_now_value cfg adc current raw_c Hc HcR HcS Hcfit Hrc) as [Hcur Hamps].
  set (amps := _ / PBDRV_CONFIG_BATTERY_ADC_CURRENT_RAW_MAX cfg) in *.
  set (CC := PBDRV_CONFIG_BATTERY_ADC_CURRENT_CORRECTION cfg) in *.
  set (CS := PBDRV_CONFIG_BATTERY_ADC_CURRENT_SCALED_MAX cfg) in *.
  set (VS := PBDRV_CONFIG_BATTERY_ADC_VOLTAGE_SCALED_MAX cfg) in *.
  set (VR := PBDRV_CONFIG_BATTERY_ADC_VOLTAGE_RAW_MAX cfg) in *.
  exists amps. split; [exact Hcur |]. intros scaled.
  assert (Hscaled : 0 <= scaled <= VS).
  { unfold scaled. split; [apply Z.div_pos; nia |].
    apply Z.div_le_upper_bound; nia. }
  assert (Hdrop : 0 <= amps * CC / 16 <= CS * CC / 16).
  { split; [apply Z.div_pos; nia |]. apply Z.div_le_mono; nia. }
  split; [| lia].
  unfold pbdrv_battery_get_voltage_now. rewrite Hv, Hcur. cbn [mbind option_bind].
  fold VS VR CC. unfold int_mul, int_add.
  assert (Hint : 2 ^ 16 * 2 ^ 4 <= INT32_MAX) by (unfold INT32_MAX; lia).
  assert (Hcsc : CS * CC / 16 < 2 ^ 16) by lia.
  assert (Hcscc : amps * CC <= CS * CC) by nia.
  assert (Hcs16 : CS * CC < 2 ^ 16 * 16).
  { destruct (Z.lt_ge_cases (CS * CC) (2 ^ 16 * 16)) as [| Hge]; [assumption |].
    apply (Z.div_le_mono _ _ 16) in Hge; [| lia].
    rewrite Z.div_mul in Hge by lia. lia. }
  rewrite c_int_in_range by (unfold INT32_MIN, INT32_MAX in *; nia). cbn [mbind option_bind].
  rewrite int_div_nonneg by (unfold INT32_MAX in *; nia). cbn [mbind option_bind].
  rewrite c_int_in_range by (unfold INT32_MIN, INT32_MAX in *; nia). cbn [mbind option_bind].
  rewrite int_div_nonneg by (unfold INT32_MAX in *; nia). cbn [mbind option_bind].
  fold scaled.
  rewrite c_int_in_range by (unfold INT32_MIN, INT32_MAX in *; lia). cbn [mbind option_bind].
  unfold to_uint16. rewrite Z.mod_small by lia. reflexivity.
Qed.

Lemma battery_voltage_corrected_witness :
  exists amps,
    pbdrv_battery_get_current_now sample_battery_config (sample_adc 3000 800) 0
      = Some (PBIO_SUCCESS, amps) /\
    let scaled := 3000 * 9900 / 4096 in
    pbdrv_battery_get_voltage_now sample_battery_config (sample_adc 3000 800) 0 0
      = Some (PBIO_SUCCESS, scaled + amps * 3 / 16) /\
    scaled <= scaled + amps * 3 / 16 <= scaled + 7300 * 3 / 16.
Proof.
  apply (battery_voltage_corrected sample_battery_config (sample_adc 3000 800) 0 0 3000 800);
    try reflexivity; simpl; unfold INT32_MAX; lia.
Defined.

(** * Properties of the ev3dev motor driver *)

Lemma alter_lookup_insert {A} (f : A -> A) (l : list A) (i : nat) (x : A) :
  l !! i = Some x -> alter f i l = <[i := f x]> l.
Proof.
  revert i. induction l as [| y l IH]; intros [| i] H; try discriminate.
  - cbn in H. injection H as ->. reflexivity.
  - cbn in *. f_equal. apply IH, H.
Qed.

Lemma valid_port_index cfg port :
  invalid_port cfg port = false ->
  0 <= PORT_TO_IDX cfg port
    <= PBDRV_CONFIG_LAST_MOTOR_PORT cfg - PBDRV_CONFIG_FIRST_MOTOR_PORT cfg.
Proof.
  unfold invalid_port, PORT_TO_IDX. intros H.
  apply orb_false_iff in H as [H1 H2].
  apply Z.ltb_ge in H1. apply Z.ltb_ge in H2. lia.
Qed.

(** What [slow_write] does for a connected motor. *)
Lemma slow_write_connected cfg env port filename content w mf :
  invalid_port cfg port = false ->
  motor_file cfg port w = Some mf ->
  connected mf = true ->
  slow_write cfg env port filename content w =
    Some (if can_open_write env (tacho_motor_path (dir_number mf) filename)
          then (PBIO_SUCCESS,
                log_write w (tacho_motor_path (dir_number mf) filename) content)
          else (PBIO_ERROR_IO, w)).
Proof.
  unfold slow_write, motor_file. intros -> -> Hc. cbn [mbind option_bind].
  rewrite Hc. cbn [negb]. destruct (can_open_write env _); reflexivity.
Qed.

Lemma motor_file_set_coasting cfg port b w mf :
  motor_file cfg port w = Some mf ->
  motor_file cfg port (set_coasting cfg port b w) = Some (with_coasting b mf).
Proof.
  unfold motor_file, set_coasting. cbn [motor_files]. intros H.
  rewrite list_lookup_alter_eq, H. reflexivity.
Qed.

(** What [pbdrv_motor_coast] does for a connected motor. *)
Lemma coast_connected cfg env port w mf :
  invalid_port cfg port = false ->
  motor_file cfg port w = Some mf ->
  connected mf = true ->
  pbdrv_motor_coast cfg env port w =
    Some (if can_open_write env (tacho_motor_path (dir_number mf) "command")
          then (PBIO_SUCCESS,
                log_write (set_coasting cfg port true w)
                  (tacho_motor_path (dir_number mf) "command") "stop")
          else (PBIO_ERROR_IO, set_coasting cfg port true w))%string.
Proof.
  intros Hinv Hmf Hc. unfold pbdrv_motor_coast. rewrite Hinv.
  unfold motor_file in Hmf. rewrite Hmf. cbn [mbind option_bind].
  replace (negb (connected mf)) with false by (rewrite Hc; reflexivity).
  change (mk_motor_file (connected mf) true (dir_number mf) (f_encoder_count mf)
            (f_encoder_rate mf) (f_duty mf)) with (with_coasting true mf).
  rewrite <- (alter_lookup_insert (with_coasting true) _ _ _ Hmf).
  change (mk_motor_world _ (written w)) with (set_coasting cfg port true w).
  apply (slow_write_connected cfg env port _ _ _ (with_coasting true mf) Hinv).
  - apply motor_file_set_coasting. exact Hmf.
  - exact Hc.
Qed.

(** What [pbdrv_motor_set_duty_cycle] does for a connected motor. *)
Lemma set_duty_cycle_connected cfg env port duty_cycle w mf f :
  invalid_port cfg port = false ->
  motor_file cfg port w = Some mf ->
  connected mf = true ->
  f_duty mf = Some f ->
  pbdrv_motor_set_duty_cycle cfg env port duty_cycle w =
    Some (if flush_ok env f then PBIO_SUCCESS else PBIO_ERROR_IO,
          log_write
            (if coasting mf
             then set_coasting cfg port false
                    (if can_open_write env (tacho_motor_path (dir_number mf) "command")
                     then log_write w (tacho_motor_path (dir_number mf) "command")
                            "run-direct"
                     else w)
             else w)
            f (string_of_Z (Z.quot duty_cycle 100)))%string.
Proof.
  intros Hinv Hmf Hc Hf. unfold pbdrv_motor_set_duty_cycle. rewrite Hinv.
  pose proof Hmf as Hmf'. unfold motor_file in Hmf'. rewrite Hmf'.
  cbn [mbind option_bind]. replace (negb (connected mf)) with false by (rewrite Hc; reflexivity).
  destruct (coasting mf) eqn:Hcoast.
  - rewrite (slow_write_connected cfg env port _ _ w mf Hinv Hmf Hc).
    change (mk_motor_file (connected mf) false (dir_number mf) (f_encoder_count mf)
              (f_encoder_rate mf) (f_duty mf)) with (with_coasting false mf).
    cbn [mbind option_bind]. rewrite Hf.
    destruct (can_open_write env _); cbn [mbind option_bind log_write motor_files written];
      unfold set_coasting; cbn [motor_files written log_write];
      rewrite (alter_lookup_insert (with_coasting false) _ _ _ Hmf');
      destruct (flush_ok env f); reflexivity.
  - cbn [mbind option_bind]. rewrite Hf. cbn [mbind option_bind].
    destruct (flush_ok env f); reflexivity.
Qed.

(** The three ways a call that writes can go. *)
Lemma perform_cases cfg env port c w err w' :
  perform cfg env port c w = Some (err, w') ->
  (invalid_port cfg port = true /\ err = PBIO_ERROR_INVALID_PORT /\ w' = w) \/
  (invalid_port cfg port = false /\
   exists mf, motor_file cfg port w = Some mf /\ connected mf = false /\
              err = PBIO_ERROR_NO_DEV /\ w' = w) \/
  (invalid_port cfg port = false /\
   exists mf, motor_file cfg port w = Some mf /\ connected mf = true /\
              (err = PBIO_SUCCESS \/ err = PBIO_ERROR_IO) /\
              (motor_files w' = motor_files w \/
               exists b, motor_files w' =
                           alter (with_coasting b) (Z.to_nat (PORT_TO_IDX cfg port))
                             (motor_files w)) /\
              exists k, written w' = written w ++ k).
Proof.
  intros H.
  destruct (invalid_port cfg port) eqn:Hinv.
  { left. destruct c; cbn [perform] in H;
      unfold slow_write, pbdrv_motor_coast, pbdrv_motor_set_duty_cycle in H;
      rewrite Hinv in H; injection H as <- <-; auto. }
  right.
  destruct (motor_file cfg port w) as [mf |] eqn:Hmf.
  2: { exfalso. unfold motor_file in Hmf. destruct c; cbn [perform] in H;
         unfold slow_write, pbdrv_motor_coast, pbdrv_motor_set_duty_cycle in H;
         rewrite Hinv, Hmf in H; discriminate. }
  destruct (connected mf) eqn:Hc.
  2: { left. split; [reflexivity |]. exists mf. unfold motor_file in Hmf.
       destruct c; cbn [perform] in H;
         unfold slow_write, pbdrv_motor_coast, pbdrv_motor_set_duty_cycle in H;
         rewrite Hinv, Hmf in H; cbn [mbind option_bind] in H; rewrite Hc in H;
         injection H as <- <-; auto. }
  right. split; [reflexivity |]. exists mf. split; [reflexivity |]. split; [exact Hc |].
  destruct c as [filename content | | duty_cycle]; cbn [perform] in H.
  - rewrite (slow_write_connected _ _ _ _ _ _ _ Hinv Hmf Hc) in H.
    destruct (can_open_write env _); injection H as <- <-.
    + split; [auto |]. split; [left; reflexivity |]. eexists. reflexivity.
    + split; [auto |]. split; [left; reflexivity |]. exists []. symmetry. apply app_nil_r.
  - rewrite (coast_connected _ _ _ _ _ Hinv Hmf Hc) in H.
    destruct (can_open_write env _); injection H as <- <-.
    + split; [auto |]. split; [right; exists true; reflexivity |]. eexists. reflexivity.
    + split; [auto |]. split; [right; exists true; reflexivity |].
      exists []. symmetry. apply app_nil_r.
  - destruct (f_duty mf) as [f |] eqn:Hf.
    2: { exfalso. unfold pbdrv_motor_set_duty_cycle in H.
         pose proof Hmf as Hmf'. unfold motor_file in Hmf'.
         rewrite Hinv, Hmf' in H. cbn [mbind option_bind] in H.
         rewrite Hc in H. cbn [negb] in H.
         destruct (coasting mf).
         - rewrite (slow_write_connected _ _ _ _ _ _ _ Hinv Hmf Hc) in H.
           cbn [mbind option_bind] in H.
           destruct (can_open_write env _); cbn [mbind option_bind] in H;
             rewrite Hf in H; discriminate.
         - cbn [mbind option_bind] in H. rewrite Hf in H. discriminate. }
    rewrite (set_duty_cycle_connected _ _ _ _ _ _ _ Hinv Hmf Hc Hf) in H.
    injection H as <- <-.
    split; [destruct (flush_ok env f); auto |].
    destruct (coasting mf).
    + split; [right; exists false; destruct (can_open_write env _); reflexivity |].
      destruct (can_open_write env _); cbn [log_write set_coasting written].
      * rewrite <- app_assoc. eexists. reflexivity.
      * eexists. reflexivity.
    + split; [left; reflexivity |]. eexists. reflexivity.
Qed.

(** X17: the error codes of the calls that write.  [slow_write],
    [pbdrv_motor_coast] and [pbdrv_motor_set_duty_cycle] report
    PBIO_ERROR_INVALID_PORT exactly for a port outside the configured range
    and PBIO_ERROR_NO_DEV exactly for a port in range with no motor found on
    it; in both cases nothing is written and no flag changes.  The only other
    results are PBIO_SUCCESS and PBIO_ERROR_IO. *)
Theorem motor_call_error_codes cfg env port c w err w' :
  perform cfg env port c w = Some (err, w') ->
  (err = PBIO_ERROR_INVALID_PORT <-> invalid_port cfg port = true) /\
  (err = PBIO_ERROR_NO_DEV <->
     invalid_port cfg port = false /\
     exists mf, motor_file cfg port w = Some mf /\ connected mf = false) /\
  (err = PBIO_ERROR_INVALID_PORT \/ err = PBIO_ERROR_NO_DEV -> w' = w) /\
  (err = PBIO_SUCCESS \/ err = PBIO_ERROR_IO \/
   err = PBIO_ERROR_INVALID_PORT \/ err = PBIO_ERROR_NO_DEV).
Proof.
  intros H.
  destruct (perform_cases _ _ _ _ _ _ _ H)
    as [(Hinv & -> & ->) | [(Hinv & mf & Hmf & Hc & -> & ->)
                           | (Hinv & mf & Hmf & Hc & Herr & _)]].
  - split; [split; auto |]. split; [split; [discriminate | intros [Hf _]; congruence] |].
    split; auto.
  - split; [split; [discriminate | congruence] |].
    split; [split; [intros _; split; [exact Hinv | exists mf; auto] | reflexivity] |].
    split; auto.
  - split; [split; [intros ->; destruct Herr; discriminate | congruence] |].
    split; [split; [intros ->; destruct Herr; discriminate
                   | intros (_ & mf' & Hmf' & Hc'); congruence] |].
    split; [intros [-> | ->]; destruct Herr; discriminate |].
    destruct Herr; auto.
Qed.

Lemma motor_call_error_codes_witness :
  (PBIO_ERROR_NO_DEV = PBIO_ERROR_INVALID_PORT <-> invalid_port ev3_ports 67 = true) /\
  (PBIO_ERROR_NO_DEV = PBIO_ERROR_NO_DEV <->
     invalid_port ev3_ports 67 = false /\
     exists mf, motor_file ev3_ports 67 ev3_world = Some mf /\ connected mf = false) /\
  (PBIO_ERROR_NO_DEV = PBIO_ERROR_INVALID_PORT \/ PBIO_ERROR_NO_DEV = PBIO_ERROR_NO_DEV ->
   ev3_world = ev3_world) /\
  (PBIO_ERROR_NO_DEV = PBIO_SUCCESS \/ PBIO_ERROR_NO_DEV = PBIO_ERROR_IO \/
   PBIO_ERROR_NO_DEV = PBIO_ERROR_INVALID_PORT \/ PBIO_ERROR_NO_DEV = PBIO_ERROR_NO_DEV).
Proof.
  apply (motor_call_error_codes ev3_ports ev3_sysfs 67 (call_set_duty_cycle 5000)
           ev3_world PBIO_ERROR_NO_DEV ev3_world).
  reflexivity.
Defined.

Lemma same_motor_refl mf : same_motor mf mf.
Proof. repeat split. Qed.

Lemma same_motor_trans mf1 mf2 mf3 :
  same_motor mf1 mf2 -> same_motor mf2 mf3 -> same_motor mf1 mf3.
Proof.
  unfold same_motor. intros (A1 & A2 & A3 & A4 & A5) (B1 & B2 & B3 & B4 & B5).
  repeat split; congruence.
Qed.

(** One call keeps every entry of [motor_files] but the [coasting] flag of
    the port it names, and only adds to what was written. *)
Lemma perform_frame cfg env port c w err w' :
  perform cfg env port c w = Some (err, w') ->
  length (motor_files w') = length (motor_files w) /\
  (forall i mf, motor_files w !! i = Some mf ->
     exists mf', motor_files w' !! i = Some mf' /\ same_motor mf mf' /\
                 (i <> Z.to_nat (PORT_TO_IDX cfg port) -> mf' = mf)) /\
  written w `prefix_of` written w'.
Proof.
  intros H.
  destruct (perform_cases _ _ _ _ _ _ _ H)
    as [(_ & _ & ->) | [(_ & mf & _ & _ & _ & ->)
                       | (_ & mf & _ & _ & _ & Hfiles & k & Hk)]].
  - split; [reflexivity |]. split; [| reflexivity].
    intros i mf Hi. exists mf. split; [exact Hi |]. split; [apply same_motor_refl | auto].
  - split; [reflexivity |]. split; [| reflexivity].
    intros i mf' Hi. exists mf'. split; [exact Hi |]. split; [apply same_motor_refl | auto].
  - split; [| split].
    + destruct Hfiles as [-> | [b ->]]; [reflexivity | apply length_alter].
    + intros i mf' Hi. destruct Hfiles as [-> | [b ->]].
      * exists mf'. split; [exact Hi |]. split; [apply same_motor_refl | auto].
      * destruct (decide (i = Z.to_nat (PORT_TO_IDX cfg port))) as [-> | Hne].
        -- exists (with_coasting b mf'). rewrite list_lookup_alter_eq, Hi.
           split; [reflexivity |]. split; [repeat split | congruence].
        -- exists mf'. rewrite list_lookup_alter_ne by congruence.
           split; [exact Hi |]. split; [apply same_motor_refl | auto].
    + exists k. exact Hk.
Qed.

(** X18: what no sequence of calls changes.  Whatever calls of [slow_write],
    [pbdrv_motor_coast] and [pbdrv_motor_set_duty_cycle] are made, on
    whatever ports and whatever sysfs does, [motor_files] keeps its length,
    every entry keeps its [connected] flag, directory number and three
    streams (only [coasting] is ever assigned), entries of ports that no call
    names stay as they are, and what was written before stays written, in
    order. *)
Theorem motor_calls_frame cfg calls w errs w' :
  run cfg calls w = Some (errs, w') ->
  length errs = length calls /\
  length (motor_files w') = length (motor_files w) /\
  (forall i mf, motor_files w !! i = Some mf ->
     exists mf', motor_files w' !! i = Some mf' /\ same_motor mf mf' /\
                 (Forall (fun call => i <> Z.to_nat (PORT_TO_IDX cfg call.1.2)) calls ->
                  mf' = mf)) /\
  written w `prefix_of` written w'.
Proof.
  revert w errs w'. induction calls as [| [[env port] c] calls IH]; intros w errs w' H.
  - cbn in H. injection H as <- <-. split; [reflexivity |]. split; [reflexivity |].
    split; [| reflexivity]. intros i mf Hi. exists mf.
    split; [exact Hi |]. split; [apply same_motor_refl | auto].
  - cbn [run] in H.
    destruct (perform cfg env port c w) as [[err w1] |] eqn:Hstep; [| discriminate].
    cbn [mbind option_bind] in H.
    destruct (run cfg calls w1) as [[errs1 w2] |] eqn:Hrest; [| discriminate].
    cbn [mbind option_bind] in H. injection H as <- <-.
    destruct (perform_frame _ _ _ _ _ _ _ Hstep) as (Hlen1 & Hkeep1 & Hpre1).
    destruct (IH _ _ _ Hrest) as (Hn & Hlen2 & Hkeep2 & Hpre2).
    split; [cbn [length]; congruence |]. split; [congruence |]. split.
    + intros i mf Hi. destruct (Hkeep1 i mf Hi) as (mf1 & Hi1 & Hsame1 & Hother1).
      destruct (Hkeep2 i mf1 Hi1) as (mf2 & Hi2 & Hsame2 & Hother2).
      exists mf2. split; [exact Hi2 |].
      split; [exact (same_motor_trans _ _ _ Hsame1 Hsame2) |].
      intros Hall. apply Forall_cons in Hall as [Hhd Htl]. cbn in Hhd.
      rewrite (Hother2 Htl). apply Hother1, Hhd.
    + etransitivity; eassumption.
Qed.

Lemma motor_calls_frame_witness :
  exists errs w',
    run ev3_ports [(ev3_sysfs, 66, call_coast);
                   (ev3_sysfs, 66, call_set_duty_cycle 5000);
                   (ev3_sysfs, 69, call_coast)] ev3_world = Some (errs, w') /\
    length errs = 3%nat /\
    length (motor_files w') = 4%nat /\
    written ev3_world `prefix_of` written w'.
Proof.
  eexists _, _. split; [reflexivity |].
  destruct (motor_calls_frame ev3_ports
              [(ev3_sysfs, 66, call_coast);
               (ev3_sysfs, 66, call_set_duty_cycle 5000);
               (ev3_sysfs, 69, call_coast)] ev3_world _ _ eq_refl)
    as (Hn & Hlen & _ & Hpre).
  split; [exact Hn |]. split; [exact Hlen | exact Hpre].
Defined.

(** One call on a ready driver returns, and leaves the driver ready. *)
Lemma perform_ready cfg env port c w :
  motor_ready cfg w ->
  exists err w', perform cfg env port c w = Some (err, w') /\ motor_ready cfg w'.
Proof.
  intros [Hlen Hopen].
  destruct (invalid_port cfg port) eqn:Hinv.
  { exists PBIO_ERROR_INVALID_PORT, w. split; [| split; assumption].
    destruct c; cbn [perform];
      unfold slow_write, pbdrv_motor_coast, pbdrv_motor_set_duty_cycle;
      rewrite Hinv; reflexivity. }
  pose proof (valid_port_index _ _ Hinv) as Hidx.
  destruct (motor_file cfg port w) as [mf |] eqn:Hmf.
  2: { exfalso. unfold motor_file in Hmf. apply lookup_ge_None in Hmf. lia. }
  assert (Hstreams : connected mf = true ->
            is_Some (f_encoder_count mf) /\ is_Some (f_encoder_rate mf) /\
            is_Some (f_duty mf)).
  { unfold motor_file in Hmf. exact (Forall_lookup_1 _ _ _ _ Hopen Hmf). }
  assert (Hstep : exists err w', perform cfg env port c w = Some (err, w')).
  { destruct (connected mf) eqn:Hc.
    - destruct c as [filename content | | duty_cycle]; cbn [perform].
      + rewrite (slow_write_connected _ _ _ _ _ _ _ Hinv Hmf Hc).
        destruct (can_open_write env _); eauto.
      + rewrite (coast_connected _ _ _ _ _ Hinv Hmf Hc).
        destruct (can_open_write env _); eauto.
      + destruct (Hstreams eq_refl) as (_ & _ & [f Hf]).
        rewrite (set_duty_cycle_connected _ _ _ _ _ _ _ Hinv Hmf Hc Hf). eauto.
    - exists PBIO_ERROR_NO_DEV, w. unfold motor_file in Hmf.
      destruct c; cbn [perform];
        unfold slow_write, pbdrv_motor_coast, pbdrv_motor_set_duty_cycle;
        rewrite Hinv, Hmf; cbn [mbind option_bind]; rewrite Hc; reflexivity. }
  destruct Hstep as (err & w' & Hstep). exists err, w'. split; [exact Hstep |].
  destruct (perform_frame _ _ _ _ _ _ _ Hstep) as (Hlen' & Hkeep & _).
  split; [rewrite Hlen'; exact Hlen |].
  apply Forall_lookup_2. intros i mf' Hi'.
  destruct (lookup_lt_is_Some_2 (motor_files w) i) as [mf0 Hi].
  { rewrite <- Hlen'. apply lookup_lt_Some in Hi'. exact Hi'. }
  destruct (Hkeep i mf0 Hi) as (mf1 & Hi1 & (S1 & S2 & S3 & S4 & S5) & _).
  assert (mf1 = mf') by congruence. subst mf1.
  rewrite S1, S3, S4, S5. exact (Forall_lookup_1 _ _ _ _ Hopen Hi).
Qed.

(** X19: a ready driver never leaves defined behaviour.  When [motor_files]
    has one entry for each configured port and every connected motor has its
    three streams open, every sequence of calls of [slow_write],
    [pbdrv_motor_coast] and [pbdrv_motor_set_duty_cycle], on any ports and
    whatever sysfs does, returns an error code for each call (no index
    outside the array, no NULL stream used) and leaves the driver ready. *)
Theorem motor_calls_defined cfg calls w :
  motor_ready cfg w ->
  exists errs w',
    run cfg calls w = Some (errs, w') /\ length errs = length calls /\
    motor_ready cfg w'.
Proof.
  revert w. induction calls as [| [[env port] c] calls IH]; intros w Hready.
  - exists [], w. auto.
  - destruct (perform_ready cfg env port c w Hready) as (err & w1 & Hstep & Hready1).
    destruct (IH w1 Hready1) as (errs & w2 & Hrest & Hn & Hready2).
    exists (err :: errs), w2. cbn [run]. rewrite Hstep. cbn [mbind option_bind].
    rewrite Hrest. cbn [mbind option_bind length]. auto.
Qed.

Lemma motor_calls_defined_witness :
  exists errs w',
    run ev3_ports [(ev3_sysfs, 66, call_coast);
                   (ev3_sysfs_no_command, 66, call_set_duty_cycle (-2550))]
      ev3_world = Some (errs, w') /\
    length errs = 2%nat /\ motor_ready ev3_ports w'.
Proof.
  apply (motor_calls_defined ev3_ports
           [(ev3_sysfs, 66, call_coast);
            (ev3_sysfs_no_command, 66, call_set_duty_cycle (-2550))] ev3_world).
  split; [reflexivity |].
  repeat constructor; cbn; intros; try discriminate; eauto.
Defined.

(** X20: coasting and driving again.  For a connected motor with its duty
    stream open, [pbdrv_motor_coast] sets the [coasting] flag and writes
    "stop" to the motor's [command] file, reporting PBIO_SUCCESS exactly when
    that file opens.  The next [pbdrv_motor_set_duty_cycle] first writes
    "run-direct" to [command], then the duty cycle divided by 100 (rounded
    towards zero) to the duty stream, and clears the flag; a further call
    writes the duty cycle only.  Their result is PBIO_SUCCESS exactly when
    the flush of the duty stream succeeds: when [command] cannot be opened,
    "run-direct" is not written, the flag is cleared all the same and the
    failure is not reported. *)
Theorem coast_then_duty_cycle cfg env1 env2 env3 port duty1 duty2 w mf f :
  invalid_port cfg port = false ->
  motor_file cfg port w = Some mf ->
  connected mf = true ->
  f_duty mf = Some f ->
  let command := tacho_motor_path (dir_number mf) "command"%string in
  exists e1 w1 e2 w2 e3 w3,
    pbdrv_motor_coast cfg env1 port w = Some (e1, w1) /\
    pbdrv_motor_set_duty_cycle cfg env2 port duty1 w1 = Some (e2, w2) /\
    pbdrv_motor_set_duty_cycle cfg env3 port duty2 w2 = Some (e3, w3) /\
    (e1 = if can_open_write env1 command then PBIO_SUCCESS else PBIO_ERROR_IO) /\
    (e2 = if flush_ok env2 f then PBIO_SUCCESS else PBIO_ERROR_IO) /\
    (e3 = if flush_ok env3 f then PBIO_SUCCESS else PBIO_ERROR_IO) /\
    written w1 = written w
                 ++ (if can_open_write env1 command then [(command, "stop"%string)] else []) /\
    written w2 = written w1
                 ++ (if can_open_write env2 command then [(command, "run-direct"%string)] else [])
                 ++ [(f, string_of_Z (Z.quot duty1 100))] /\
    written w3 = written w2 ++ [(f, string_of_Z (Z.quot duty2 100))] /\
    motor_file cfg port w1 = Some (with_coasting true mf) /\
    motor_file cfg port w2 = Some (with_coasting false mf) /\
    motor_files w3 = motor_files w2.
Proof.
  intros Hinv Hmf Hc Hf command.
  pose proof (coast_connected cfg env1 port w mf Hinv Hmf Hc) as H1.
  fold command in H1.
  set (w0 := set_coasting cfg port true w) in *.
  assert (Hmf0 : motor_file cfg port w0 = Some (with_coasting true mf))
    by (apply motor_file_set_coasting; exact Hmf).
  set (w1 := if can_open_write env1 command
             then log_write w0 command "stop"%string else w0).
  assert (Hmf1 : motor_file cfg port w1 = Some (with_coasting true mf))
    by (unfold w1; destruct (can_open_write env1 command); exact Hmf0).
  pose proof (set_duty_cycle_connected cfg env2 port duty1 w1 _ f Hinv Hmf1 Hc Hf) as H2.
  cbn [with_coasting coasting dir_number] in H2. fold command in H2.
  set (w1' := if can_open_write env2 command
              then log_write w1 command "run-direct"%string else w1) in *.
  assert (Hmf1' : motor_file cfg port w1' = Some (with_coasting true mf))
    by (unfold w1'; destruct (can_open_write env2 command); exact Hmf1).
  set (w2 := log_write (set_coasting cfg port false w1') f
               (string_of_Z (Z.quot duty1 100))) in *.
  assert (Hmf2 : motor_file cfg port w2 = Some (with_coasting false mf)).
  { change (motor_file cfg port w2)
      with (motor_file cfg port (set_coasting cfg port false w1')).
    rewrite (motor_file_set_coasting cfg port false w1' _ Hmf1'). reflexivity. }
  pose proof (set_duty_cycle_connected cfg env3 port duty2 w2 _ f Hinv Hmf2 Hc Hf) as H3.
  cbn [with_coasting coasting dir_number] in H3.
  exists (if can_open_write env1 command then PBIO_SUCCESS else PBIO_ERROR_IO), w1,
         (if flush_ok env2 f then PBIO_SUCCESS else PBIO_ERROR_IO), w2,
         (if flush_ok env3 f then PBIO_SUCCESS else PBIO_ERROR_IO),
         (log_write w2 f (string_of_Z (Z.quot duty2 100))).
  split. { rewrite H1. unfold w1. destruct (can_open_write env1 command); reflexivity. }
  split; [exact H2 |]. split; [exact H3 |].
  split; [reflexivity |]. split; [reflexivity |]. split; [reflexivity |].
  split. { unfold w1. destruct (can_open_write env1 command); cbn; [reflexivity |].
           symmetry. apply app_nil_r. }
  split. { unfold w2, w1'. destruct (can_open_write env2 command); cbn;
             [rewrite <- app_assoc |]; reflexivity. }
  split; [reflexivity |]. split; [exact Hmf1 |]. split; [exact Hmf2 | reflexivity].
Qed.

Lemma coast_then_duty_cycle_witness :
  exists e1 w1 e2 w2 e3 w3,
    pbdrv_motor_coast ev3_ports ev3_sysfs 66 ev3_world = Some (e1, w1) /\
    pbdrv_motor_set_duty_cycle ev3_ports ev3_sysfs_no_command 66 (-2550) w1
      = Some (e2, w2) /\
    pbdrv_motor_set_duty_cycle ev3_ports ev3_sysfs 66 9999 w2 = Some (e3, w3) /\
    e1 = PBIO_SUCCESS /\ e2 = PBIO_SUCCESS /\ e3 = PBIO_SUCCESS /\
    written w3 =
      [("/sys/class/tacho-motor/motor3/command", "stop");
       ("/sys/class/tacho-motor/motor3/duty_cycle_sp", "-25");
       ("/sys/class/tacho-motor/motor3/duty_cycle_sp", "99")]%string.
Proof.
  destruct (coast_then_duty_cycle ev3_ports ev3_sysfs ev3_sysfs_no_command ev3_sysfs
              66 (-2550) 9999 ev3_world motor3 _ eq_refl eq_refl eq_refl eq_refl)
    as (e1 & w1 & e2 & w2 & e3 & w3 & H1 & H2 & H3 & E1 & E2 & E3 & L1 & L2 & L3 & _).
  exists e1, w1, e2, w2, e3, w3.
  split; [exact H1 |]. split; [exact H2 |]. split; [exact H3 |].
  split; [exact E1 |]. split; [exact E2 |]. split; [exact E3 |].
  rewrite L3, L2, L1. reflexivity.
Defined.

(** X21: reading the encoder.  [pbdrv_motor_get_encoder_count] reports
    PBIO_ERROR_INVALID_PORT and PBIO_ERROR_NO_DEV as the calls that write do,
    PBIO_ERROR_IO exactly when the read of a connected motor's position meets
    the end of the file, and PBIO_SUCCESS otherwise, also when the file holds
    no number; the caller's variable changes only when a number was read.
    [pbdrv_motor_get_encoder_rate] does the same but never reports
    PBIO_ERROR_IO: for a connected motor it always reports PBIO_SUCCESS. *)
Theorem encoder_read_codes cfg env port w count rate e1 c e2 r :
  pbdrv_motor_get_encoder_count cfg env port count w = Some (e1, c) ->
  pbdrv_motor_get_encoder_rate cfg env port rate w = Some (e2, r) ->
  (e1 = PBIO_ERROR_INVALID_PORT <-> invalid_port cfg port = true) /\
  (e2 = PBIO_ERROR_INVALID_PORT <-> invalid_port cfg port = true) /\
  (e1 = PBIO_ERROR_NO_DEV <->
     invalid_port cfg port = false /\
     exists mf, motor_file cfg port w = Some mf /\ connected mf = false) /\
  (e2 = PBIO_ERROR_NO_DEV <->
     invalid_port cfg port = false /\
     exists mf, motor_file cfg port w = Some mf /\ connected mf = false) /\
  (e1 = PBIO_ERROR_IO <->
     invalid_port cfg port = false /\
     exists mf f, motor_file cfg port w = Some mf /\ connected mf = true /\
                  f_encoder_count mf = Some f /\ scan_int env f = ScanEOF) /\
  e2 <> PBIO_ERROR_IO /\
  (c <> count ->
     e1 = PBIO_SUCCESS /\
     exists mf f, motor_file cfg port w = Some mf /\
                  f_encoder_count mf = Some f /\ scan_int env f = ScanInt c) /\
  (r <> rate ->
     e2 = PBIO_SUCCESS /\
     exists mf f, motor_file cfg port w = Some mf /\
                  f_encoder_rate mf = Some f /\ scan_int env f = ScanInt r) /\
  (e1 = PBIO_SUCCESS \/ e1 = PBIO_ERROR_IO \/
   e1 = PBIO_ERROR_INVALID_PORT \/ e1 = PBIO_ERROR_NO_DEV).
Proof.
  unfold pbdrv_motor_get_encoder_count, pbdrv_motor_get_encoder_rate, motor_file.
  intros H1 H2.
  destruct (invalid_port cfg port) eqn:Hinv.
  { injection H1 as <- <-. injection H2 as <- <-.
    repeat match goal with |- _ /\ _ => split end;
      try (split; [try discriminate; auto | try reflexivity; intros [? _]; discriminate]);
      try discriminate; try congruence; auto. }
  destruct (motor_files w !! Z.to_nat (PORT_TO_IDX cfg port)) as [mf |] eqn:Hmf;
    [| discriminate].
  cbn [mbind option_bind] in H1, H2.
  destruct (connected mf) eqn:Hc; cbn [negb] in H1, H2.
  2: { injection H1 as <- <-. injection H2 as <- <-.
       repeat match goal with |- _ /\ _ => split end;
         try (split; [discriminate | congruence]);
         try (split; [intros _; split; [reflexivity | exists mf; auto] | reflexivity]);
         try discriminate; try congruence; auto.
       split; [discriminate |]. intros (_ & mf' & f & Hmf' & Hc' & _). congruence. }
  destruct (f_encoder_count mf) as [fc |] eqn:Hfc; [| discriminate].
  destruct (f_encoder_rate mf) as [fr |] eqn:Hfr; [| discriminate].
  cbn [mbind option_bind] in H1, H2.
  assert (Hno_dev : forall e, e <> PBIO_ERROR_NO_DEV ->
            e = PBIO_ERROR_NO_DEV <->
            false = false /\ exists mf0, Some mf = Some mf0 /\ connected mf0 = false).
  { intros e He. split; [congruence |]. intros (_ & mf' & Hmf' & Hc'). congruence. }
  assert (He2 : e2 = PBIO_SUCCESS)
    by (destruct (scan_int env fr); injection H2 as <- _; reflexivity).
  assert (Hr : r <> rate -> scan_int env fr = ScanInt r)
    by (destruct (scan_int env fr); injection H2 as _ <-; congruence).
  split; [| split; [| split; [| split; [| split; [| split; [| split; [| split]]]]]]].
  - split; [| discriminate]. destruct (scan_int env fc); injection H1 as <- _; discriminate.
  - split; [congruence | discriminate].
  - apply Hno_dev. destruct (scan_int env fc); injection H1 as <- _; discriminate.
  - apply Hno_dev. congruence.
  - split.
    + intros ->. split; [reflexivity |]. exists mf, fc.
      destruct (scan_int env fc); try discriminate; auto.
    + intros (_ & mf' & f' & Hmf' & _ & Hf' & Hscan).
      assert (mf' = mf) by congruence. subst mf'.
      assert (f' = fc) by congruence. subst f'.
      rewrite Hscan in H1. congruence.
  - congruence.
  - intros Hcount. destruct (scan_int env fc) eqn:Hscan; injection H1 as <- <-;
      try congruence. split; [reflexivity |]. exists mf, fc. auto.
  - intros Hrate. split; [exact He2 |]. exists mf, fr. auto.
  - destruct (scan_int env fc); injection H1 as <- _; auto.
Qed.

Lemma encoder_read_codes_witness :
  pbdrv_motor_get_encoder_count ev3_ports ev3_sysfs_no_command 66 123 ev3_world
    = Some (PBIO_ERROR_IO, 123) /\
  (PBIO_ERROR_IO = PBIO_ERROR_IO <->
     invalid_port ev3_ports 66 = false /\
     exists mf f, motor_file ev3_ports 66 ev3_world = Some mf /\ connected mf = true /\
                  f_encoder_count mf = Some f /\
                  scan_int ev3_sysfs_no_command f = ScanEOF).
Proof.
  split; [reflexivity |].
  exact (proj1 (proj2 (proj2 (proj2 (proj2
           (encoder_read_codes ev3_ports ev3_sysfs_no_command 66 ev3_world 123 7
              PBIO_ERROR_IO 123 PBIO_SUCCESS 7 eq_refl eq_refl)))))).
Defined.

(** ** Start-up and shutdown *)

Lemma slow_write_connected_world cfg env port filename content w mf :
  invalid_port cfg port = false ->
  motor_file cfg port w = Some mf ->
  connected mf = true ->
  exists err,
    slow_write cfg env port filename content w =
      Some (err, mk_motor_world (motor_files w)
                   (written w
                    ++ try_write env (tacho_motor_path (dir_number mf) filename) content)).
Proof.
  intros Hinv Hmf Hc. rewrite (slow_write_connected _ _ _ _ _ _ _ Hinv Hmf Hc).
  unfold try_write. destruct (can_open_write env _); eexists; [reflexivity |].
  destruct w; cbn. rewrite app_nil_r. reflexivity.
Qed.

Lemma coast_connected_world cfg env port w mf :
  invalid_port cfg port = false ->
  motor_file cfg port w = Some mf ->
  connected mf = true ->
  exists err,
    pbdrv_motor_coast cfg env port w =
      Some (err, mk_motor_world
                   (<[Z.to_nat (PORT_TO_IDX cfg port) := with_coasting true mf]>
                      (motor_files w))
                   (written w
                    ++ try_write env (tacho_motor_path (dir_number mf) "command"%string)
                         "stop"%string)).
Proof.
  intros Hinv Hmf Hc. rewrite (coast_connected _ _ _ _ _ Hinv Hmf Hc).
  unfold try_write, set_coasting, motor_file in *.
  rewrite (alter_lookup_insert _ _ _ _ Hmf).
  destruct (can_open_write env _); eexists; [reflexivity |].
  cbn. rewrite app_nil_r. reflexivity.
Qed.

(** One round of the loop over the ports at start-up. *)
Lemma init_port_step cfg env port w mf :
  invalid_port cfg port = false ->
  motor_file cfg port w = Some mf ->
  init_port cfg env port w =
    Some (mk_motor_world
            (<[Z.to_nat (PORT_TO_IDX cfg port) := started env mf]> (motor_files w))
            (written w ++ init_writes env mf)).
Proof.
  intros Hinv Hmf. unfold init_port. pose proof Hmf as Hmf'. unfold motor_file in Hmf'.
  rewrite Hmf'. cbn [mbind option_bind]. unfold started, init_writes.
  destruct (connected mf) eqn:Hc.
  2: { rewrite list_insert_id by exact Hmf'. rewrite app_nil_r. destruct w; reflexivity. }
  destruct (slow_write_connected_world cfg env port "command"%string "reset"%string w mf Hinv Hmf Hc)
    as [e1 ->].
  cbn [mbind option_bind].
  set (w1 := mk_motor_world (motor_files w) _).
  destruct (slow_write_connected_world cfg env port "stop_action"%string "coast"%string w1 mf Hinv Hmf Hc)
    as [e2 ->].
  cbn [mbind option_bind].
  set (w2 := mk_motor_world (motor_files w1) _).
  destruct (coast_connected_world cfg env port w2 mf Hinv Hmf Hc) as [e3 ->].
  cbn [mbind option_bind motor_files written].
  rewrite list_lookup_insert_eq by (apply lookup_lt_Some in Hmf'; exact Hmf').
  cbn [mbind option_bind with_coasting connected coasting dir_number].
  rewrite list_insert_insert_eq. subst w2 w1. cbn [motor_files written].
  rewrite <- !app_assoc. rewrite Hc. reflexivity.
Qed.

Lemma port_of_index cfg (pre suf : list motor_file_t) mf :
  Z.of_nat (length pre + length (mf :: suf))
    = PBDRV_CONFIG_LAST_MOTOR_PORT cfg - PBDRV_CONFIG_FIRST_MOTOR_PORT cfg + 1 ->
  let port := PBDRV_CONFIG_FIRST_MOTOR_PORT cfg + Z.of_nat (length pre) in
  invalid_port cfg port = false /\ Z.to_nat (PORT_TO_IDX cfg port) = length pre.
Proof.
  intros Hlen port. cbn [length] in Hlen. unfold invalid_port, PORT_TO_IDX, port. split.
  - apply orb_false_iff. split; apply Z.ltb_ge; lia.
  - lia.
Qed.

(** The loop over the ports at start-up, from any port on. *)
Lemma init_ports_loop cfg env suf : forall pre w,
  motor_files w = pre ++ suf ->
  Z.of_nat (length pre + length suf)
    = PBDRV_CONFIG_LAST_MOTOR_PORT cfg - PBDRV_CONFIG_FIRST_MOTOR_PORT cfg + 1 ->
  for_each (init_port cfg env)
    (seqZ (PBDRV_CONFIG_FIRST_MOTOR_PORT cfg + Z.of_nat (length pre))
          (Z.of_nat (length suf))) w
  = Some (mk_motor_world (pre ++ map (started env) suf)
            (written w ++ flat_map (init_writes env) suf)).
Proof.
  induction suf as [| mf suf IH]; intros pre w Hfiles Hlen.
  - cbn. rewrite !app_nil_r. rewrite <- (app_nil_r pre), <- Hfiles. destruct w; reflexivity.
  - destruct (port_of_index cfg pre suf mf Hlen) as [Hinv Hidx].
    rewrite seqZ_cons by (cbn [length]; lia). cbn [for_each].
    assert (Hmf : motor_file cfg
                    (PBDRV_CONFIG_FIRST_MOTOR_PORT cfg + Z.of_nat (length pre)) w = Some mf).
    { unfold motor_file. rewrite Hidx, Hfiles. apply list_lookup_middle. reflexivity. }
    rewrite (init_port_step cfg env _ w mf Hinv Hmf). cbn [mbind option_bind].
    rewrite Hidx, Hfiles.
    rewrite insert_app_r_alt by lia. rewrite Nat.sub_diag. cbn [insert list_insert].
    set (w1 := mk_motor_world _ _).
    specialize (IH (pre ++ [started env mf]) w1).
    rewrite length_app in IH. cbn [length] in IH.
    replace (Z.succ (PBDRV_CONFIG_FIRST_MOTOR_PORT cfg + Z.of_nat (length pre)))
      with (PBDRV_CONFIG_FIRST_MOTOR_PORT cfg + Z.of_nat (length pre + 1)) by lia.
    replace (Z.pred (Z.of_nat (length (mf :: suf)))) with (Z.of_nat (length suf))
      by (cbn [length]; lia).
    rewrite IH.
    + unfold w1. cbn [written map flat_map]. rewrite <- !app_assoc. reflexivity.
    + unfold w1. cbn [motor_files]. rewrite <- app_assoc. reflexivity.
    + cbn [length] in Hlen. lia.
Qed.

Lemma found_found d d' mf :
  found (Some d) (found d' mf) = found (Some d) mf.
Proof. destruct d'; reflexivity. Qed.

(** The scan of the names. *)
Lemma scan_entries env names : forall w,
  Forall (entry_ok env (length (motor_files w))) names ->
  exists files,
    for_each (scan_entry env) names w = Some (mk_motor_world files (written w)) /\
    length files = length (motor_files w) /\
    forall k mf, motor_files w !! k = Some mf ->
                 files !! k = Some (found (last_detected env names k) mf).
Proof.
  induction names as [| name names IH]; intros w Hok.
  - exists (motor_files w). split; [destruct w; reflexivity |]. split; [reflexivity |].
    intros k mf Hk. exact Hk.
  - apply Forall_cons in Hok as [Hname Hok]. cbn [for_each].
    assert (Hstep : exists files0,
              scan_entry env name w = Some (mk_motor_world files0 (written w)) /\
              length files0 = length (motor_files w) /\
              forall k mf, motor_files w !! k = Some mf ->
                files0 !! k =
                  Some (found (match detected env name with
                               | Some (k', d) => if (k' =? k)%nat then Some d else None
                               | None => None
                               end) mf)).
    { unfold scan_entry, detected.
      destruct Hname as [Hshort | (k0 & d0 & Hdet & Hk0)].
      - assert ((5 <? String.length name)%nat = false) as -> by (apply Nat.ltb_ge; exact Hshort).
        exists (motor_files w). split; [destruct w; reflexivity |]. split; [reflexivity |].
        intros k mf Hk. exact Hk.
      - unfold detected in Hdet.
        destruct (5 <? String.length name)%nat; [| discriminate].
        destruct (sscanf_5c_d name) as [d |]; [| discriminate].
        cbn [mbind option_bind] in *.
        destruct (read_file env _) as [addr |]; [| discriminate].
        cbn [mbind option_bind] in *.
        destruct (fgetc_at addr 13 - 65 <? 0); [discriminate |].
        injection Hdet as Hk0' ->. rewrite Hk0'.
        destruct (lookup_lt_is_Some_2 _ _ Hk0) as [mf0 Hmf0].
        rewrite Hmf0. cbn [mbind option_bind].
        eexists. split; [reflexivity |]. split; [apply length_insert |].
        intros k mf Hk. destruct (Nat.eqb_spec k0 k) as [-> | Hne].
        + rewrite list_lookup_insert_eq by exact Hk0.
          assert (mf0 = mf) by congruence. subst mf0. reflexivity.
        + rewrite list_lookup_insert_ne by exact Hne. exact Hk. }
    destruct Hstep as (files0 & -> & Hlen0 & Hfiles0). cbn [mbind option_bind].
    destruct (IH (mk_motor_world files0 (written w))) as (files & Hrest & Hlen & Hfiles).
    { cbn [motor_files]. rewrite Hlen0. exact Hok. }
    exists files. split; [exact Hrest |]. split; [cbn [motor_files] in Hlen; congruence |].
    intros k mf Hk. rewrite (Hfiles k _ (Hfiles0 k mf Hk)). cbn [last_detected].
    destruct (last_detected env names k) as [d |]; [| reflexivity].
    rewrite found_found. reflexivity.
Qed.

(** Start-up as its two loops: the scan, then the ports. *)
Lemma init_unfold cfg env w names :
  read_dir env "/sys/class/tacho-motor"%string = Some names ->
  Z.of_nat (length (motor_files w))
    = PBDRV_CONFIG_LAST_MOTOR_PORT cfg - PBDRV_CONFIG_FIRST_MOTOR_PORT cfg + 1 ->
  Forall (entry_ok env (length (motor_files w))) names ->
  exists files,
    _pbdrv_motor_init cfg env w =
      Some (mk_motor_world (map (started env) files)
              (written w ++ flat_map (init_writes env) files)) /\
    length files = length (motor_files w) /\
    forall k mf, motor_files w !! k = Some mf ->
                 files !! k = Some (found (last_detected env names k) mf).
Proof.
  intros Hdir Hlen Hok. unfold _pbdrv_motor_init. rewrite Hdir. cbn [mbind option_bind].
  destruct (scan_entries env names w Hok) as (files & -> & Hlen1 & Hfiles).
  cbn [mbind option_bind]. unfold motor_ports.
  pose proof (init_ports_loop cfg env files [] (mk_motor_world files (written w))) as Hloop.
  cbn [length motor_files written app] in Hloop.
  rewrite Z.add_0_r in Hloop.
  replace (PBDRV_CONFIG_LAST_MOTOR_PORT cfg - PBDRV_CONFIG_FIRST_MOTOR_PORT cfg + 1)
    with (Z.of_nat (length files)) by lia.
  rewrite Hloop by (reflexivity || lia).
  exists files. auto.
Qed.

Lemma last_detected_Some env names k d :
  last_detected env names k = Some d ->
  exists name, name ∈ names /\ detected env name = Some (k, d).
Proof.
  induction names as [| name names IH]; [discriminate |]. cbn [last_detected].
  destruct (last_detected env names k) as [d' |].
  - intros H. destruct (IH H) as (name' & Hin & Hdet).
    exists name'. split; [right; exact Hin | exact Hdet].
  - destruct (detected env name) as [[k' d'] |] eqn:Hdet; [| discriminate].
    destruct (Nat.eqb_spec k' k) as [-> | _]; [| discriminate].
    intros [= ->]. exists name. split; [left | exact Hdet].
Qed.

Lemma last_detected_None env names k :
  last_detected env names k = None ->
  forall name d, name ∈ names -> detected env name <> Some (k, d).
Proof.
  induction names as [| name names IH]; intros H name' d Hin.
  - inversion Hin.
  - cbn [last_detected] in H.
    destruct (last_detected env names k) as [d' |]; [discriminate |].
    apply elem_of_cons in Hin as [-> | Hin]; [| exact (IH eq_refl name' d Hin)].
    destruct (detected env name) as [[k' d''] |]; [| discriminate].
    destruct (Nat.eqb_spec k' k) as [-> | Hne]; [discriminate | congruence].
Qed.

(** X22: what start-up finds.  When the motor directory can be read and each
    of its names is short or detected on a port of the array,
    [_pbdrv_motor_init] returns.  Each entry of [motor_files] is then marked
    connected with the directory number of the last name detected for it, if
    there is one, and every connected entry is coasting with its three
    streams opened on [position], [speed] and [duty_cycle_sp] of that
    directory, or left NULL where the file does not open.  What is written
    is, for each connected motor in the order of the ports, "reset" to
    [command], "coast" to [stop_action] and "stop" to [command], each
    left out when the file does not open. *)
Theorem motor_init_detects cfg env w names :
  read_dir env "/sys/class/tacho-motor"%string = Some names ->
  Z.of_nat (length (motor_files w))
    = PBDRV_CONFIG_LAST_MOTOR_PORT cfg - PBDRV_CONFIG_FIRST_MOTOR_PORT cfg + 1 ->
  Forall (entry_ok env (length (motor_files w))) names ->
  exists w',
    _pbdrv_motor_init cfg env w = Some w' /\
    length (motor_files w') = length (motor_files w) /\
    (forall k mf, motor_files w !! k = Some mf ->
       motor_files w' !! k = Some (started env (found (last_detected env names k) mf))) /\
    written w' = written w ++ flat_map (init_writes env) (motor_files w').
Proof.
  intros Hdir Hlen Hok.
  destruct (init_unfold cfg env w names Hdir Hlen Hok) as (files & Hinit & Hlen1 & Hfiles).
  eexists. split; [exact Hinit |]. cbn [motor_files written].
  split; [rewrite length_map; exact Hlen1 |]. split.
  - intros k mf Hk. rewrite list_lookup_fmap, (Hfiles k mf Hk). reflexivity.
  - f_equal. rewrite !flat_map_concat_map, map_map. f_equal. apply map_ext.
    intros mf. unfold init_writes, started. destruct (connected mf) eqn:Hc; [| rewrite Hc];
      reflexivity.
Qed.

Lemma motor_init_detects_witness :
  exists w',
    _pbdrv_motor_init ev3_ports ev3_sysfs ev3_world_at_boot = Some w' /\
    motor_files w' !! 1%nat = Some (with_coasting true motor3) /\
    written w' =
      [("/sys/class/tacho-motor/motor3/command", "reset");
       ("/sys/class/tacho-motor/motor3/stop_action", "coast");
       ("/sys/class/tacho-motor/motor3/command", "stop")]%string.
Proof.
  destruct (motor_init_detects ev3_ports ev3_sysfs ev3_world_at_boot
              ["."; ".."; "motor3"]%string eq_refl eq_refl)
    as (w' & Hinit & _ & Hfiles & Hlog).
  - constructor; [left; cbn; lia |]. constructor; [left; cbn; lia |].
    constructor; [| constructor].
    right. exists 1%nat, 3. split; [reflexivity | cbn; lia].
  - exists w'. split; [exact Hinit |]. split.
    + rewrite (Hfiles 1%nat no_motor eq_refl). reflexivity.
    + rewrite Hlog.
      assert (Hall : motor_files w' =
                [no_motor; with_coasting true motor3; no_motor; no_motor]).
      { vm_compute in Hinit. injection Hinit as <-. reflexivity. }
      rewrite Hall. reflexivity.
Defined.

(** X23: after start-up the driver is ready.  When [motor_files] starts with no
    motor connected, the directory is one start-up can deal with and, for
    every motor detected, [position] and [speed] open for reading and
    [duty_cycle_sp] for writing, then after [_pbdrv_motor_init] a port is
    connected exactly when some name of the directory is detected on it, the
    driver is ready, and every sequence of calls of [slow_write],
    [pbdrv_motor_coast] and [pbdrv_motor_set_duty_cycle] after it returns
    an error code for each call. *)
Theorem motor_init_ready cfg env w names :
  read_dir env "/sys/class/tacho-motor"%string = Some names ->
  Z.of_nat (length (motor_files w))
    = PBDRV_CONFIG_LAST_MOTOR_PORT cfg - PBDRV_CONFIG_FIRST_MOTOR_PORT cfg + 1 ->
  Forall (entry_ok env (length (motor_files w))) names ->
  Forall (fun mf => connected mf = false) (motor_files w) ->
  (forall name k d,
     name ∈ names -> detected env name = Some (k, d) ->
     is_Some (read_file env (tacho_motor_path d "position"%string)) /\
     is_Some (read_file env (tacho_motor_path d "speed"%string)) /\
     can_open_write env (tacho_motor_path d "duty_cycle_sp"%string) = true) ->
  exists w',
    _pbdrv_motor_init cfg env w = Some w' /\
    motor_ready cfg w' /\
    (forall k mf', motor_files w' !! k = Some mf' ->
       (connected mf' = true <->
        exists name d, name ∈ names /\ detected env name = Some (k, d))) /\
    forall calls, exists errs w'',
      run cfg calls w' = Some (errs, w'') /\ length errs = length calls.
Proof.
  intros Hdir Hlen Hok Hboot Hopen.
  destruct (init_unfold cfg env w names Hdir Hlen Hok) as (files & Hinit & Hlen1 & Hfiles).
  set (w' := mk_motor_world (map (started env) files) _) in Hinit.
  assert (Hlen' : length (motor_files w') = length (motor_files w))
    by (unfold w'; cbn [motor_files]; rewrite length_map; exact Hlen1).
  assert (Hentry : forall k mf', motor_files w' !! k = Some mf' ->
            exists mf, motor_files w !! k = Some mf /\ connected mf = false /\
                       mf' = started env (found (last_detected env names k) mf)).
  { intros k mf' Hk'.
    destruct (lookup_lt_is_Some_2 (motor_files w) k) as [mf Hk].
    { rewrite <- Hlen'. apply lookup_lt_Some in Hk'. exact Hk'. }
    exists mf. split; [exact Hk |].
    split; [exact (Forall_lookup_1 _ _ _ _ Hboot Hk) |].
    unfold w' in Hk'. cbn [motor_files] in Hk'.
    rewrite list_lookup_fmap, (Hfiles k mf Hk) in Hk'.
    cbn [fmap option_fmap option_map] in Hk'. congruence. }
  clearbody w'.
  assert (Hready : motor_ready cfg w').
  { split; [rewrite Hlen'; exact Hlen |]. apply Forall_lookup_2. intros k mf' Hk'.
    destruct (Hentry k mf' Hk') as (mf & Hk & Hc & ->).
    destruct (last_detected env names k) as [d |] eqn:Hlast.
    - destruct (last_detected_Some _ _ _ _ Hlast) as (name & Hin & Hdet).
      destruct (Hopen name k d Hin Hdet) as ([p Hp] & [s Hs] & Hd).
      intros _. unfold started, found, fopen_r, fopen_w.
      cbn [connected dir_number f_encoder_count f_encoder_rate f_duty].
      rewrite Hp, Hs, Hd. eauto.
    - unfold started, found. rewrite Hc. congruence. }
  exists w'. split; [exact Hinit |]. split; [exact Hready |]. split.
  - intros k mf' Hk'. destruct (Hentry k mf' Hk') as (mf & Hk & Hc & ->).
    destruct (last_detected env names k) as [d |] eqn:Hlast.
    + split; [| reflexivity]. intros _.
      destruct (last_detected_Some _ _ _ _ Hlast) as (name & Hin & Hdet). eauto.
    + unfold started, found. rewrite Hc. split; [congruence |].
      intros (name & d & Hin & Hdet).
      exfalso. exact (last_detected_None _ _ _ Hlast name d Hin Hdet).
  - intros calls. revert Hready. generalize w'. clear.
    induction calls as [| [[env port] c] calls IH]; intros w Hready.
    + exists [], w. auto.
    + destruct (perform_ready cfg env port c w Hready) as (err & w1 & Hstep & Hready1).
      destruct (IH w1 Hready1) as (errs & w2 & Hrest & Hn).
      exists (err :: errs), w2. cbn [run]. rewrite Hstep. cbn [mbind option_bind].
      rewrite Hrest. cbn [mbind option_bind length]. auto.
Qed.

Lemma motor_init_ready_witness :
  exists w',
    _pbdrv_motor_init ev3_ports ev3_sysfs ev3_world_at_boot = Some w' /\
    motor_ready ev3_ports w' /\
    exists errs w'',
      run ev3_ports [(ev3_sysfs, 66, call_set_duty_cycle 10000);
                     (ev3_sysfs, 65, call_coast)] w' = Some (errs, w'') /\
      length errs = 2%nat.
Proof.
  destruct (motor_init_ready ev3_ports ev3_sysfs ev3_world_at_boot
              ["."; ".."; "motor3"]%string eq_refl eq_refl)
    as (w' & Hinit & Hready & _ & Hcalls).
  - constructor; [left; cbn; lia |]. constructor; [left; cbn; lia |].
    constructor; [| constructor].
    right. exists 1%nat, 3. split; [reflexivity | cbn; lia].
  - repeat constructor.
  - intros name k d _ _. unfold ev3_sysfs, read_file, can_open_write.
    split; [destruct (String.eqb _ _); eauto |].
    split; [destruct (String.eqb _ _); eauto | reflexivity].
  - exists w'. split; [exact Hinit |]. split; [exact Hready |].
    exact (Hcalls [(ev3_sysfs, 66, call_set_duty_cycle 10000);
                   (ev3_sysfs, 65, call_coast)]).
Defined.

(** One round of the loop of shutdown, for an entry whose streams are open
    if it is connected. *)
Lemma deinit_port_step cfg env port w mf :
  invalid_port cfg port = false ->
  motor_file cfg port w = Some mf ->
  (connected mf = true ->
   is_Some (f_encoder_count mf) /\ is_Some (f_encoder_rate mf) /\ is_Some (f_duty mf)) ->
  deinit_port cfg env port w =
    Some (mk_motor_world
            (<[Z.to_nat (PORT_TO_IDX cfg port) := closed mf]> (motor_files w))
            (written w ++ deinit_writes env mf)).
Proof.
  intros Hinv Hmf Hopen. unfold deinit_port. pose proof Hmf as Hmf'.
  unfold motor_file in Hmf'. rewrite Hmf'. cbn [mbind option_bind].
  unfold closed, deinit_writes.
  destruct (connected mf) eqn:Hc.
  2: { rewrite list_insert_id by exact Hmf'. rewrite app_nil_r. destruct w; reflexivity. }
  destruct (Hopen eq_refl) as ([fc ->] & [fr ->] & [fd ->]). cbn [mbind option_bind].
  set (mf' := mk_motor_file true (coasting mf) (dir_number mf) None None None).
  set (w1 := mk_motor_world _ (written w)).
  assert (Hmf1 : motor_file cfg port w1 = Some mf').
  { unfold motor_file, w1. cbn [motor_files].
    apply list_lookup_insert_eq. apply lookup_lt_Some in Hmf'. exact Hmf'. }
  destruct (slow_write_connected_world cfg env port "command"%string "reset"%string
              w1 mf' Hinv Hmf1 eq_refl) as [e ->].
  cbn [mbind option_bind]. reflexivity.
Qed.

(** The loop of shutdown, from any port on. *)
Lemma deinit_ports_loop cfg env suf : forall pre w,
  motor_files w = pre ++ suf ->
  Z.of_nat (length pre + length suf)
    = PBDRV_CONFIG_LAST_MOTOR_PORT cfg - PBDRV_CONFIG_FIRST_MOTOR_PORT cfg + 1 ->
  Forall (fun mf => connected mf = true ->
                    is_Some (f_encoder_count mf) /\ is_Some (f_encoder_rate mf) /\
                    is_Some (f_duty mf)) suf ->
  for_each (deinit_port cfg env)
    (seqZ (PBDRV_CONFIG_FIRST_MOTOR_PORT cfg + Z.of_nat (length pre))
          (Z.of_nat (length suf))) w
  = Some (mk_motor_world (pre ++ map closed suf)
            (written w ++ flat_map (deinit_writes env) suf)).
Proof.
  induction suf as [| mf suf IH]; intros pre w Hfiles Hlen Hopen.
  - cbn. rewrite !app_nil_r. rewrite <- (app_nil_r pre), <- Hfiles. destruct w; reflexivity.
  - apply Forall_cons in Hopen as [Hmf_open Hopen].
    destruct (port_of_index cfg pre suf mf Hlen) as [Hinv Hidx].
    rewrite seqZ_cons by (cbn [length]; lia). cbn [for_each].
    assert (Hmf : motor_file cfg
                    (PBDRV_CONFIG_FIRST_MOTOR_PORT cfg + Z.of_nat (length pre)) w = Some mf).
    { unfold motor_file. rewrite Hidx, Hfiles. apply list_lookup_middle. reflexivity. }
    rewrite (deinit_port_step cfg env _ w mf Hinv Hmf Hmf_open). cbn [mbind option_bind].
    rewrite Hidx, Hfiles.
    rewrite insert_app_r_alt by lia. rewrite Nat.sub_diag. cbn [insert list_insert].
    set (w1 := mk_motor_world _ _).
    specialize (IH (pre ++ [closed mf]) w1).
    rewrite length_app in IH. cbn [length] in IH.
    replace (Z.succ (PBDRV_CONFIG_FIRST_MOTOR_PORT cfg + Z.of_nat (length pre)))
      with (PBDRV_CONFIG_FIRST_MOTOR_PORT cfg + Z.of_nat (length pre + 1)) by lia.
    replace (Z.pred (Z.of_nat (length (mf :: suf)))) with (Z.of_nat (length suf))
      by (cbn [length]; lia).
    rewrite IH.
    + unfold w1. cbn [written map flat_map]. rewrite <- !app_assoc. reflexivity.
    + unfold w1. cbn [motor_files]. rewrite <- app_assoc. reflexivity.
    + cbn [length] in Hlen. lia.
    + exact Hopen.
Qed.

(** X24: what shutdown leaves.  On a ready driver [_pbdrv_motor_deinit]
    returns; it closes the three streams of every connected motor, changes
    nothing else in [motor_files], and writes "reset" to the [command] file
    of each connected motor, in the order of the ports, where that file
    opens.  Afterwards [pbdrv_motor_set_duty_cycle],
    [pbdrv_motor_get_encoder_count] and [pbdrv_motor_get_encoder_rate] on a
    connected motor use a closed stream, which C leaves undefined: the port
    still counts as connected, it is not reported as PBIO_ERROR_NO_DEV. *)
Theorem motor_deinit_closes cfg env w :
  motor_ready cfg w ->
  exists w',
    _pbdrv_motor_deinit cfg env w = Some w' /\
    motor_files w' = map closed (motor_files w) /\
    written w' = written w ++ flat_map (deinit_writes env) (motor_files w) /\
    forall env' port mf,
      invalid_port cfg port = false ->
      motor_file cfg port w = Some mf ->
      connected mf = true ->
      (forall duty_cycle, pbdrv_motor_set_duty_cycle cfg env' port duty_cycle w' = None) /\
      (forall count, pbdrv_motor_get_encoder_count cfg env' port count w' = None) /\
      (forall rate, pbdrv_motor_get_encoder_rate cfg env' port rate w' = None).
Proof.
  intros [Hlen Hopen]. unfold _pbdrv_motor_deinit, motor_ports.
  pose proof (deinit_ports_loop cfg env (motor_files w) [] w eq_refl) as Hloop.
  cbn [length app] in Hloop. rewrite Z.add_0_r in Hloop.
  rewrite <- Hlen. rewrite Hloop by (lia || exact Hopen).
  eexists. split; [reflexivity |]. cbn [motor_files written].
  split; [reflexivity |]. split; [reflexivity |].
  intros env' port mf Hinv Hmf Hc.
  set (w' := mk_motor_world _ _).
  assert (Hmf' : motor_files w' !! Z.to_nat (PORT_TO_IDX cfg port)
                 = Some (mk_motor_file true (coasting mf) (dir_number mf) None None None)).
  { unfold motor_file in Hmf. unfold w'. cbn [motor_files].
    rewrite list_lookup_fmap, Hmf. cbn [fmap option_fmap option_map].
    unfold closed. rewrite Hc. reflexivity. }
  clearbody w'.
  unfold pbdrv_motor_get_encoder_count, pbdrv_motor_get_encoder_rate.
  rewrite Hinv, Hmf'.
  cbn [mbind option_bind connected negb f_encoder_count f_encoder_rate].
  split; [| split; reflexivity].
  intros duty_cycle. unfold pbdrv_motor_set_duty_cycle.
  rewrite Hinv, Hmf'. cbn [mbind option_bind connected negb coasting f_duty].
  destruct (coasting mf); [| reflexivity].
  destruct (slow_write cfg env' port "command"%string "run-direct"%string _) as [[e w1] |];
    reflexivity.
Qed.

Lemma motor_deinit_closes_witness :
  exists w',
    _pbdrv_motor_deinit ev3_ports ev3_sysfs ev3_world = Some w' /\
    written w' = [("/sys/class/tacho-motor/motor3/command", "reset")]%string /\
    pbdrv_motor_set_duty_cycle ev3_ports ev3_sysfs 66 5000 w' = None.
Proof.
  destruct (motor_deinit_closes ev3_ports ev3_sysfs ev3_world)
    as (w' & Hdeinit & _ & Hlog & Hafter).
  - split; [reflexivity |].
    repeat (constructor; [cbn; intros; try discriminate; eauto |]). constructor.
  - exists w'. split; [exact Hdeinit |]. split; [rewrite Hlog; reflexivity |].
    exact (proj1 (Hafter ev3_sysfs 66 motor3 eq_refl eq_refl eq_refl) 5000).
Defined.
